(** * Boolean equations of pytypedecl: terms, simplification, pivots, solver

    A shallow embedding of [booleq.py].

    - Labels are byte strings ([str] of Python 2), compared byte by byte.
    - A candidate set is a [gset string]; an assignment and a table of
      pivots are [gmap string (gset string)].
    - A term is a value of [BooleanTerm]; the [exprs] frozenset of an [And]
      or [Or] is the list of its members.  Membership, equality and
      construction of these sets go through [__eq__] ([term_eqb]).
    - Python exceptions are carried by the [result] type, with one more
      outcome for the bound of the [while] loop.
    - A loop over a set or a dictionary visits the members in the order of
      [elements] and [map_to_list]; Python leaves that order open.  The
      lemmas on the loop bodies are stated for any list of members.
    - The working dictionary [assignments] of [solve] comes with the list of
      the values that it has held ([Solver.history]). *)

From Stdlib Require Import String Ascii List Bool Arith Lia.
From stdpp Require Import base option list gmap strings fin_maps fin_sets.

Open Scope string_scope.
Open Scope list_scope.
Open Scope nat_scope.

Set Warnings "-register-all".

(** ** Exceptions *)

Inductive exn : Type :=
| AssertionError
| KeyError
| IndexError.

(** [OutOfFuel] is not a Python outcome: it marks that the bound given to the
    [while] loop of the model was used up.  [solve_loop_total] and
    [solve_store_total] show that the bound chosen by [Solver.solve_store]
    is never used up. *)
Inductive result (A : Type) : Type :=
| Ok (a : A)
| Raise (e : exn)
| OutOfFuel.

Arguments Ok {A} a.
Arguments Raise {A} e.
Arguments OutOfFuel {A}.

#[global] Instance result_bind : MBind result := fun A B k m =>
  match m with
  | Ok a => k a
  | Raise e => Raise e
  | OutOfFuel => OutOfFuel
  end.

#[global] Instance result_ret : MRet result := fun A a => Ok a.

(** Runs the computations of a list in order, stopping at the first one that
    does not return. *)
Fixpoint sequence {A : Type} (ms : list (result A)) : result (list A) :=
  match ms with
  | [] => Ok []
  | m :: ms' => a ← m; r ← sequence ms'; Ok (a :: r)
  end.

(** ** Terms *)

(** [TRUE] and [FALSE] are the two module-level singletons; [EqNode l r]
    is an [Eq] object with attributes [left = l] and [right = r]; an
    [AndNode] or [OrNode] carries the members of its [exprs] frozenset, in
    the order in which they were inserted. *)
Inductive BooleanTerm : Type :=
| TRUE
| FALSE
| EqNode (l r : string)
| AndNode (exprs : list BooleanTerm)
| OrNode (exprs : list BooleanTerm).

Abbreviation candidates := (gset string).
Abbreviation assignment := (gmap string (gset string)).
Abbreviation pivot_table := (gmap string (gset string)).

Definition is_TRUE (t : BooleanTerm) : bool :=
  match t with TRUE => true | _ => false end.

Definition is_FALSE (t : BooleanTerm) : bool :=
  match t with FALSE => true | _ => false end.

Definition is_Eq (t : BooleanTerm) : bool :=
  match t with EqNode _ _ => true | _ => false end.

Definition is_And (t : BooleanTerm) : bool :=
  match t with AndNode _ => true | _ => false end.

Definition is_Or (t : BooleanTerm) : bool :=
  match t with OrNode _ => true | _ => false end.

(** [__eq__]: the constants compare by identity, [Eq.__eq__] compares the
    two attributes, [And.__eq__] and [Or.__eq__] compare the [exprs]
    frozensets (same size, every member of the one found in the other). *)
Fixpoint term_eqb (a b : BooleanTerm) : bool :=
  match a, b with
  | TRUE, TRUE => true
  | FALSE, FALSE => true
  | EqNode l r, EqNode l' r' => String.eqb l l' && String.eqb r r'
  | AndNode xs, AndNode ys =>
      Nat.eqb (length xs) (length ys)
      && forallb (fun x => existsb (fun y => term_eqb x y) ys) xs
  | OrNode xs, OrNode ys =>
      Nat.eqb (length xs) (length ys)
      && forallb (fun x => existsb (fun y => term_eqb x y) ys) xs
  | _, _ => false
  end.

(** [x in s] for a set of terms. *)
Definition term_in (x : BooleanTerm) (s : list BooleanTerm) : bool :=
  existsb (term_eqb x) s.

(** [frozenset(iterable)]: the members are added one at a time and a
    member already present is skipped.  [And] and [Or] define [__eq__] and
    no [__hash__]; the model has no object identity and takes two compound
    terms for the same member when [__eq__] says so. *)
Fixpoint set_add_all (seen l : list BooleanTerm) : list BooleanTerm :=
  match l with
  | [] => seen
  | x :: l' => set_add_all (if term_in x seen then seen else seen ++ [x]) l'
  end.

Definition frozenset (l : list BooleanTerm) : list BooleanTerm :=
  set_add_all [] l.

(** ** Constructors: [Eq.__new__], [And.__new__], [Or.__new__] *)

(** [sorted((left, right))] on two byte strings. *)
Definition sorted2 (a b : string) : string * string :=
  if String.ltb b a then (b, a) else (a, b).

Definition Eq_new (left right : string) : BooleanTerm :=
  if String.eqb left right then TRUE
  else let '(lo, hi) := sorted2 left right in EqNode hi lo.

Definition And_flatten (exprs : list BooleanTerm) : list BooleanTerm :=
  flat_map (fun e => match e with AndNode es => es | _ => [e] end) exprs.

Definition And_new (exprs : list BooleanTerm) : BooleanTerm :=
  let flattened := And_flatten exprs in
  let expr_set := frozenset flattened in
  let expr_set := List.filter (fun e => negb (is_TRUE e)) expr_set in
  if existsb is_FALSE expr_set then FALSE
  else match expr_set with
       | _ :: _ :: _ => AndNode expr_set
       | [expr] => expr
       | [] => TRUE
       end.

Definition Or_flatten (exprs : list BooleanTerm) : list BooleanTerm :=
  flat_map (fun e => match e with OrNode es => es | _ => [e] end) exprs.

Definition Or_new (exprs : list BooleanTerm) : BooleanTerm :=
  let flattened := Or_flatten exprs in
  let expr_set := frozenset flattened in
  let expr_set := List.filter (fun e => negb (is_FALSE e)) expr_set in
  if existsb is_TRUE expr_set then TRUE
  else match expr_set with
       | _ :: _ :: _ => OrNode expr_set
       | [expr] => expr
       | [] => FALSE
       end.

(** ** Simplifier *)

(** [assignments.get(k, ())]. *)
Definition assignments_get (assignments : assignment) (k : string) : gset string :=
  default ∅ (assignments !! k).

Definition Eq_simplify (l r : string) (assignments : assignment) : BooleanTerm :=
  if bool_decide (r ∈ assignments_get assignments l)
     || bool_decide (l ∈ assignments_get assignments r)
  then EqNode l r
  else
    let intersection := assignments_get assignments l ∩ assignments_get assignments r in
    Or_new (map (fun i => And_new [Eq_new l i; Eq_new i r]) (elements intersection)).

Fixpoint simplify (t : BooleanTerm) (assignments : assignment) : BooleanTerm :=
  match t with
  | TRUE => TRUE
  | FALSE => FALSE
  | EqNode l r => Eq_simplify l r assignments
  | AndNode exprs => And_new (map (fun t => simplify t assignments) exprs)
  | OrNode exprs => Or_new (map (fun t => simplify t assignments) exprs)
  end.

(** ** Pivot extractor *)

(** A [for] loop whose body may raise. *)
Fixpoint foldlM {A B : Type} (f : A -> B -> result A) (a : A) (l : list B) : result A :=
  match l with
  | [] => Ok a
  | x :: l' => a' ← f a x; foldlM f a' l'
  end.

(** [d[k]] on a dictionary. *)
Definition dict_item {V : Type} (d : gmap string V) (k : string) : result V :=
  match d !! k with
  | Some v => Ok v
  | None => Raise KeyError
  end.

(** The dictionary display of [Eq.extract_pivots]: the entry for [left] is
    written first, the entry for [right] second. *)
Definition Eq_extract_pivots (l r : string) : pivot_table :=
  <[r := {[l]}]> (<[l := {[r]}]> ∅).

(** Body of the inner loop of [And.extract_pivots]. *)
Definition And_merge_item (pivots : pivot_table) (item : string * gset string) : pivot_table :=
  let '(name, values) := item in
  match pivots !! name with
  | Some old => <[name := old ∩ values]> pivots
  | None => <[name := values]> pivots
  end.

(** Body of the outer loop of [And.extract_pivots], for a child whose
    pivots are [expr_pivots]. *)
Definition And_merge (pivots expr_pivots : pivot_table) : pivot_table :=
  foldl And_merge_item pivots (map_to_list expr_pivots).

Definition And_extract_pivots (pivots_list : list pivot_table) : pivot_table :=
  foldl And_merge ∅ pivots_list.

(** The names that appear in all subexpressions. *)
Definition Or_intersection (p0 : pivot_table) (rest : list pivot_table) : gset string :=
  foldl (fun acc p => acc ∩ dom p) (dom p0) rest.

(** [values |= p[pivot]] for every [p] of [pivots_list]. *)
Definition Or_values (pivots_list : list pivot_table) (pivot : string) : result (gset string) :=
  foldlM (fun values p => v ← dict_item p pivot; Ok (values ∪ v)) ∅ pivots_list.

Definition Or_extract_pivots (pivots_list : list pivot_table) : result pivot_table :=
  match pivots_list with
  | [] => Raise IndexError
  | p0 :: rest =>
      let intersection := Or_intersection p0 rest in
      foldlM (fun pivots pivot =>
                values ← Or_values pivots_list pivot;
                Ok (<[pivot := values]> pivots))
             ∅ (elements intersection)
  end.

(** In [And.extract_pivots] the pivots of a child are computed when the loop
    reaches it; computing them all first gives the same outcome, as the loop
    has no other effect than building [pivots]. *)
Fixpoint extract_pivots (t : BooleanTerm) : result pivot_table :=
  match t with
  | TRUE => Ok ∅
  | FALSE => Ok ∅
  | EqNode l r => Ok (Eq_extract_pivots l r)
  | AndNode exprs =>
      pivots_list ← sequence (map extract_pivots exprs);
      Ok (And_extract_pivots pivots_list)
  | OrNode exprs =>
      pivots_list ← sequence (map extract_pivots exprs);
      Or_extract_pivots pivots_list
  end.

(** ** Solver *)

Module Solver.

(** [implications] is the dictionary from [Eq] objects to terms, as the
    list of its items in insertion order. *)
Record state : Type := {
  variables : list string;
  values : list string;
  implications : list (BooleanTerm * BooleanTerm);
  ground_truth : BooleanTerm
}.

(** [Solver.__init__]. *)
Definition init : state :=
  {| variables := []; values := []; implications := []; ground_truth := TRUE |}.

(** [e in implications]. *)
Definition has_key (impls : list (BooleanTerm * BooleanTerm)) (e : BooleanTerm) : bool :=
  existsb (fun kv => term_eqb (fst kv) e) impls.

(** [implications[e]]. *)
Definition item (impls : list (BooleanTerm * BooleanTerm)) (e : BooleanTerm)
  : result BooleanTerm :=
  match List.find (fun kv => term_eqb (fst kv) e) impls with
  | Some kv => Ok (snd kv)
  | None => Raise KeyError
  end.

Definition register_variable (variable : string) (s : state) : state :=
  {| variables := variables s ++ [variable]; values := values s;
     implications := implications s; ground_truth := ground_truth s |}.

Definition register_value (value : string) (s : state) : state :=
  {| variables := variables s; values := values s ++ [value];
     implications := implications s; ground_truth := ground_truth s |}.

Definition always_true (formula : BooleanTerm) (s : state) : result state :=
  if is_FALSE formula then Raise AssertionError
  else Ok {| variables := variables s; values := values s;
             implications := implications s;
             ground_truth := And_new [ground_truth s; formula] |}.

Definition implies (e implication : BooleanTerm) (s : state) : result state :=
  if is_FALSE e || is_TRUE e then Raise AssertionError
  else if negb (is_Eq e) then Raise AssertionError
  else if has_key (implications s) e then Raise AssertionError
  else Ok {| variables := variables s; values := values s;
             implications := implications s ++ [(e, implication)];
             ground_truth := ground_truth s |}.

(** Body of the inner loop of [_complete]. *)
Definition complete_pair (var : string) (impls : list (BooleanTerm * BooleanTerm))
    (value : string) : list (BooleanTerm * BooleanTerm) :=
  let e := Eq_new var value in
  if has_key impls e then impls else impls ++ [(e, TRUE)].

Definition _complete (s : state) : state :=
  {| variables := variables s; values := values s;
     implications :=
       foldl (fun impls var => foldl (complete_pair var) impls (values s))
             (implications s) (variables s);
     ground_truth := ground_truth s |}.

(** The working assignment together with every assignment that it has held
    so far, newest first.  The history is not in the source: it records
    the successive contents of [assignments]. *)
Record store : Type := {
  assignments : assignment;
  history : list assignment
}.

Definition fresh_store (a : assignment) : store :=
  {| assignments := a; history := [a] |}.

(** Every in-place change of a candidate set goes through [update]. *)
Definition update (k : string) (c : gset string) (st : store) : store :=
  let a := <[k := c]> (assignments st) in
  {| assignments := a; history := a :: history st |}.

(** The set comprehension of [solve] for one variable. *)
Definition initial_candidates (impls : list (BooleanTerm * BooleanTerm))
    (vals : list string) (var : string) : result (gset string) :=
  foldlM (fun acc value =>
            implication ← item impls (Eq_new var value);
            Ok (if is_FALSE implication then acc else acc ∪ {[value]}))
         ∅ vals.

(** The dictionary comprehension of [solve]. *)
Definition initial_assignments (s : state) : result assignment :=
  foldlM (fun asg var =>
            c ← initial_candidates (implications s) (values s) var;
            Ok (<[var := c]> asg))
         ∅ (variables s).

(** Body of the loop over [ground_pivots.items()]. *)
Definition ground_step (st : store) (it : string * gset string) : store :=
  let '(pivot, possible_values) := it in
  match assignments st !! pivot with
  | Some c => update pivot (c ∩ possible_values) st
  | None => st
  end.

(** [assignments[var].remove(value)]. *)
Definition remove (var value : string) (st : store) : result store :=
  c ← dict_item (assignments st) var;
  if bool_decide (value ∈ c) then Ok (update var (c ∖ {[value]}) st)
  else Raise KeyError.

(** Body of the loop over the values of [var]; the accumulator holds the
    store, [something_changed] and [terms]. *)
Definition filter_value (s : state) (var : string)
    (acc : store * bool * list BooleanTerm) (value : string)
  : result (store * bool * list BooleanTerm) :=
  let '(st, something_changed, terms) := acc in
  let e := Eq_new var value in
  implication ← item (implications s) e;
  '(st', changed') ←
    (if is_FALSE (simplify implication (assignments st))
     then st' ← remove var value st; Ok (st', true)
     else Ok (st, something_changed));
  Ok (st', changed', terms ++ [implication]).

(** Body of the loop over [d.extract_pivots().items()]. *)
Definition pivot_step (acc : store * bool) (it : string * gset string) : store * bool :=
  let '(st, something_changed) := acc in
  let '(pivot, possible_values) := it in
  match assignments st !! pivot with
  | None => acc
  | Some c =>
      let length_before := size c in
      let c' := c ∩ possible_values in
      let length_after := size c' in
      (update pivot c' st, something_changed || negb (Nat.eqb length_before length_after))
  end.

(** Body of the loop over [self.variables]. *)
Definition process_var (s : state) (acc : store * bool) (var : string)
  : result (store * bool) :=
  let '(st, something_changed) := acc in
  c ← dict_item (assignments st) var;
  '(st, something_changed, terms) ←
    foldlM (filter_value s var) (st, something_changed, []) (elements c);
  let d := Or_new terms in
  let d := simplify d (assignments st) in
  pivots ← extract_pivots d;
  Ok (foldl pivot_step (st, something_changed) (map_to_list pivots)).

(** One round of the [while] loop. *)
Definition pass (s : state) (st : store) : result (store * bool) :=
  foldlM (process_var s) (st, false) (variables s).

Fixpoint solve_loop (fuel : nat) (s : state) (st : store) : result store :=
  match fuel with
  | O => OutOfFuel
  | S fuel' =>
      '(st', something_changed) ← pass s st;
      if something_changed : bool then solve_loop fuel' s st' else Ok st'
  end.

(** Number of (variable, candidate) pairs of an assignment. *)
Definition weight (a : assignment) : nat :=
  map_fold (fun _ c n => size c + n) 0 a.

(** [solve], with the history of the working assignment. *)
Definition solve_store (s : state) : result store :=
  let s := _complete s in
  asg ← initial_assignments s;
  let st := fresh_store asg in
  ground_pivots ← extract_pivots (simplify (ground_truth s) asg);
  let st := foldl ground_step st (map_to_list ground_pivots) in
  solve_loop (S (weight (assignments st))) s st.

Definition solve (s : state) : result assignment :=
  st ← solve_store s; Ok (assignments st).

(** *** Relations between the successive assignments *)

(** No variable has in [a] a candidate that it has not in [a0]. *)
Definition shrinks (a0 a : assignment) : Prop :=
  forall var, assignments_get a var ⊆ assignments_get a0 var.

(** In a history, newest first, each assignment has shrunk from all the
    older ones. *)
Definition descending (h : list assignment) : Prop :=
  forall i j a b, i <= j -> h !! i = Some a -> h !! j = Some b -> shrinks b a.

(** The history ends with the working assignment and is descending. *)
Definition coherent (st : store) : Prop :=
  head (history st) = Some (assignments st) /\ descending (history st).

(** What holds between the store at some point and the store later on. *)
Definition evolves (st st' : store) : Prop :=
  (coherent st -> coherent st')
  /\ (exists new, history st' = new ++ history st)
  /\ shrinks (assignments st) (assignments st')
  /\ dom (assignments st') = dom (assignments st)
  /\ weight (assignments st') <= weight (assignments st).

(** [evolves], with [something_changed]: the flag is raised only when a
    candidate has been lost. *)
Definition progress (x y : store * bool) : Prop :=
  evolves x.1 y.1
  /\ (y.2 = true ->
      x.2 = true \/ weight (assignments y.1) < weight (assignments x.1)).

(** Every variable has a candidate set, made of registered values. *)
Definition in_range (s : state) (a : assignment) : Prop :=
  forall var, var ∈ variables s ->
    exists c, a !! var = Some c /\ forall v, v ∈ c -> v ∈ values s.

(** Every (variable, value) pair has an implication. *)
Definition completed (s : state) : Prop :=
  forall var value, var ∈ variables s -> value ∈ values s ->
    has_key (implications s) (Eq_new var value) = true.

End Solver.

(** The solver of the example, built through the registration calls. *)
Definition example_solver : result Solver.state :=
  let s := Solver.register_variable "t" Solver.init in
  let s := Solver.register_value "v1" s in
  let s := Solver.register_value "v2" s in
  let s := Solver.register_value "v3" s in
  s ← Solver.implies (Eq_new "t" "v1") TRUE s;
  s ← Solver.implies (Eq_new "t" "v2") TRUE s;
  s ← Solver.implies (Eq_new "t" "v3") FALSE s;
  Solver.always_true
    (Or_new [Eq_new "t" "v1";
             And_new [Eq_new "t" "v2"; Or_new [Eq_new "t" "v2"; Eq_new "t" "v3"]]])
    s.


(** ** Induction on terms *)

Section term_induction.
Variable P : BooleanTerm -> Prop.
Hypothesis HTRUE : P TRUE.
Hypothesis HFALSE : P FALSE.
Hypothesis HEq : forall l r, P (EqNode l r).
Hypothesis HAnd : forall exprs, Forall P exprs -> P (AndNode exprs).
Hypothesis HOr : forall exprs, Forall P exprs -> P (OrNode exprs).

Fixpoint BooleanTerm_induction (t : BooleanTerm) : P t :=
  let fix go (l : list BooleanTerm) : Forall P l :=
    match l with
    | [] => List.Forall_nil P
    | x :: l' => List.Forall_cons P x l' (BooleanTerm_induction x) (go l')
    end in
  match t with
  | TRUE => HTRUE
  | FALSE => HFALSE
  | EqNode l r => HEq l r
  | AndNode exprs => HAnd exprs (go exprs)
  | OrNode exprs => HOr exprs (go exprs)
  end.
End term_induction.

(** ** Predicates used by the statements *)

(** The [exprs] attribute of a compound term. *)
Definition children (t : BooleanTerm) : list BooleanTerm :=
  match t with
  | AndNode exprs => exprs
  | OrNode exprs => exprs
  | _ => []
  end.

(** Every [And] and [Or] node of the term has at least two members and no
    member of its own class. *)
Fixpoint well_formed (t : BooleanTerm) : bool :=
  match t with
  | AndNode exprs =>
      (2 <=? length exprs)
      && forallb (fun e => negb (is_And e) && well_formed e) exprs
  | OrNode exprs =>
      (2 <=? length exprs)
      && forallb (fun e => negb (is_Or e) && well_formed e) exprs
  | _ => true
  end.

(** The terms that a caller can obtain: the two constants and the results
    of [Eq], [And] and [Or] on terms obtained before. *)
Inductive constructible : BooleanTerm -> Prop :=
| constructible_TRUE : constructible TRUE
| constructible_FALSE : constructible FALSE
| constructible_Eq (left right : string) : constructible (Eq_new left right)
| constructible_And (exprs : list BooleanTerm) :
    (forall e, In e exprs -> constructible e) -> constructible (And_new exprs)
| constructible_Or (exprs : list BooleanTerm) :
    (forall e, In e exprs -> constructible e) -> constructible (Or_new exprs).

(** No member of [l] is equal, for [__eq__], to a member of [seen] or to an
    earlier member of [l]. *)
Fixpoint distinct_from (seen l : list BooleanTerm) : bool :=
  match l with
  | [] => true
  | x :: l' => negb (term_in x seen) && distinct_from (seen ++ [x]) l'
  end.

Definition distinct (l : list BooleanTerm) : bool := distinct_from [] l.

(** The pivots of a conjunction as the specification words them: the keys
    are the union of the keys of the children, and a key goes to the
    intersection of the candidate sets that the children give it. *)
Definition And_pivots_reference (pivots_list : list pivot_table) (pivots : pivot_table)
  : Prop :=
  (forall k, k ∈ dom pivots <-> exists p, p ∈ pivots_list /\ k ∈ dom p)
  /\ (forall k V, pivots !! k = Some V ->
        forall x, x ∈ V <-> forall p c, p ∈ pivots_list -> p !! k = Some c -> x ∈ c).

(** The pivots of a disjunction as the specification words them: the keys
    are those that every child has, and a key goes to the union of the
    candidate sets that the children give it. *)
Definition Or_pivots_reference (pivots_list : list pivot_table) (pivots : pivot_table)
  : Prop :=
  (forall k, k ∈ dom pivots <-> forall p, p ∈ pivots_list -> k ∈ dom p)
  /\ (forall k V, pivots !! k = Some V ->
        forall x, x ∈ V <-> exists p c, p ∈ pivots_list /\ p !! k = Some c /\ x ∈ c).

(** What a key holds after one child of a conjunction has been merged. *)
Definition meet (o1 o2 : option (gset string)) : option (gset string) :=
  match o1, o2 with
  | Some a, Some b => Some (a ∩ b)
  | Some a, None => Some a
  | None, o => o
  end.

(** A solver whose only requirement cannot be met: [x] ranges over [1]
    and [2] and is required to be [3]. *)
Definition contradictory_solver : result Solver.state :=
  let s := Solver.register_variable "x" Solver.init in
  let s := Solver.register_value "1" s in
  let s := Solver.register_value "2" s in
  Solver.always_true (Eq_new "x" "3") s.

(** A solver that requires [x] to be [a] and to be [b]. *)
Definition conflicting_solver : result Solver.state :=
  let s := Solver.register_variable "x" Solver.init in
  let s := Solver.register_value "a" s in
  let s := Solver.register_value "b" s in
  Solver.always_true (And_new [Eq_new "x" "a"; Eq_new "x" "b"]) s.

(** A solver in which the implication of [x = 1] cannot hold: it asks for
    [y = 3], and [3] is no value. *)
Definition filtering_solver : result Solver.state :=
  let s := Solver.register_variable "x" Solver.init in
  let s := Solver.register_variable "y" s in
  let s := Solver.register_value "1" s in
  let s := Solver.register_value "2" s in
  Solver.implies (Eq_new "x" "1") (Eq_new "y" "3") s.

(** ** Canonical terms and the meaning of terms *)

(** What the constructors keep, beyond [well_formed]: the two labels of an
    [Eq] are stored with the greater one on the left, and the members of an
    [And] or [Or] are pairwise different for [__eq__] and none of them is
    [TRUE] or [FALSE]. *)
Fixpoint canonical (t : BooleanTerm) : bool :=
  match t with
  | TRUE => true
  | FALSE => true
  | EqNode l r => String.ltb r l
  | AndNode exprs =>
      (2 <=? length exprs) && distinct exprs
      && forallb (fun e => negb (is_And e) && negb (is_TRUE e || is_FALSE e)
                           && canonical e) exprs
  | OrNode exprs =>
      (2 <=? length exprs) && distinct exprs
      && forallb (fun e => negb (is_Or e) && negb (is_TRUE e || is_FALSE e)
                           && canonical e) exprs
  end.

(** The truth value of a term when every label stands for the label
    [rho] gives it, after the docstrings of the classes: [Eq] is "an
    equality constraint", [And] "a conjunction" and [Or] "a disjunction" of
    its members. *)
Fixpoint eval (rho : string -> string) (t : BooleanTerm) : bool :=
  match t with
  | TRUE => true
  | FALSE => false
  | EqNode l r => String.eqb (rho l) (rho r)
  | AndNode exprs => forallb (eval rho) exprs
  | OrNode exprs => existsb (eval rho) exprs
  end.

(** [Q] holds of the two labels of every [Eq] inside the term. *)
Fixpoint all_eqs (Q : string -> string -> bool) (t : BooleanTerm) : bool :=
  match t with
  | TRUE => true
  | FALSE => true
  | EqNode l r => Q l r
  | AndNode exprs => forallb (all_eqs Q) exprs
  | OrNode exprs => forallb (all_eqs Q) exprs
  end.

(** No [Eq] of the term relates two keys of the assignment: one side at
    least is a label without a candidate set. *)
Definition grounded (a : assignment) (t : BooleanTerm) : bool :=
  all_eqs (fun l r => bool_decide (a !! l = None) || bool_decide (a !! r = None)) t.

(** No candidate of the assignment is itself a key of the assignment. *)
Definition separated (a : assignment) : Prop :=
  forall k c v, a !! k = Some c -> v ∈ c -> a !! v = None.

(** [rho] gives every key of the assignment one of its candidates and
    leaves every other label as it is. *)
Definition consistent (rho : string -> string) (a : assignment) : Prop :=
  (forall k c, a !! k = Some c -> rho k ∈ c)
  /\ (forall k, a !! k = None -> rho k = k).

(** ** Solutions of the system that a solver holds *)

(** [rho] solves the system: it gives every variable a registered value and
    leaves the other labels as they are, it makes the ground truth true
    ("an equation that needs to always be TRUE") and, for every registered
    implication, it makes the implication true when it makes its key true
    ("if x is 1, then ..."). *)
Definition solution (s : Solver.state) (rho : string -> string) : Prop :=
  (forall var, var ∈ Solver.variables s -> rho var ∈ Solver.values s)
  /\ (forall k, k ∉ Solver.variables s -> rho k = k)
  /\ eval rho (Solver.ground_truth s) = true
  /\ (forall e implication,
        Solver.item (Solver.implications s) e = Ok implication ->
        eval rho e = true -> eval rho implication = true).

(** The ground truth and the registered implications are canonical, and no
    label is both a variable and a value. *)
Definition well_posed (s : Solver.state) : Prop :=
  canonical (Solver.ground_truth s) = true
  /\ Forall (fun kv => canonical kv.2 = true) (Solver.implications s)
  /\ (forall v, v ∈ Solver.variables s -> v ∉ Solver.values s).

(** The assignment has the variables of the solver for keys, registered
    values for candidates, and the value that [rho] gives a variable is one
    of its candidates. *)
Definition agrees (s : Solver.state) (rho : string -> string) (a : assignment) : Prop :=
  dom a = list_to_set (Solver.variables s)
  /\ Solver.in_range s a
  /\ forall var, var ∈ Solver.variables s -> rho var ∈ assignments_get a var.


(** No [Or] node of the term is without members. *)
Fixpoint no_empty_Or (t : BooleanTerm) : bool :=
  match t with
  | AndNode exprs => forallb no_empty_Or exprs
  | OrNode exprs =>
      match exprs with [] => false | _ => forallb no_empty_Or exprs end
  | _ => true
  end.


(** The store and [something_changed]. *)
Definition store_flag : Type := Solver.store * bool.

(** A step is quiet when, [something_changed] still being false after it,
    it was false before and the working assignment is the same. *)
Definition quiet (x y : store_flag) : Prop :=
  y.2 = false -> x.2 = false /\ Solver.assignments y.1 = Solver.assignments x.1.

(** Two stores that hold the same working assignment, whatever their
    histories. *)
Definition alike (x y : store_flag) : Prop :=
  Solver.assignments x.1 = Solver.assignments y.1 /\ x.2 = y.2.

(** The valuation that a finite table gives: a label of the table stands
    for its entry, any other label for itself. *)
Definition valuation (m : gmap string string) (k : string) : string :=
  default k (m !! k).

(** The state of the solver of the documented example after its
    registration calls. *)
Definition documented_state : Solver.state :=
  {| Solver.variables := ["t"];
     Solver.values := ["v1"; "v2"; "v3"];
     Solver.implications :=
       [(Eq_new "t" "v1", TRUE); (Eq_new "t" "v2", TRUE); (Eq_new "t" "v3", FALSE)];
     Solver.ground_truth :=
       Or_new [Eq_new "t" "v1";
               And_new [Eq_new "t" "v2"; Or_new [Eq_new "t" "v2"; Eq_new "t" "v3"]]] |}.

(** Two variables over three values, with one implication that asks for
    nothing. *)
Definition unconstrained_state : Solver.state :=
  {| Solver.variables := ["x"; "y"];
     Solver.values := ["1"; "2"; "3"];
     Solver.implications := [(Eq_new "x" "1", TRUE)];
     Solver.ground_truth := TRUE |}.

(** Settles a decidable statement about closed terms by evaluation. *)
Ltac by_computation := refine (bool_decide_eq_true_1 _ _); by vm_compute.

(** * Properties *)

(** ** Frozensets of terms *)

Lemma set_add_all_Forall (P : BooleanTerm -> Prop) (l seen : list BooleanTerm) :
  Forall P seen -> Forall P l -> Forall P (set_add_all seen l).
Proof.
  revert seen. induction l as [|x l IH]; intros seen Hseen Hl; simpl; [done|].
  inversion Hl; subst. apply IH; [|done].
  destruct (term_in x seen); [done|].
  apply Forall_app; split; [done|]. by constructor.
Qed.

Lemma frozenset_Forall (P : BooleanTerm -> Prop) (l : list BooleanTerm) :
  Forall P l -> Forall P (frozenset l).
Proof. intros Hl. apply set_add_all_Forall; [constructor | done]. Qed.

Lemma set_add_all_distinct (l seen : list BooleanTerm) :
  distinct_from seen l = true -> set_add_all seen l = seen ++ l.
Proof.
  revert seen. induction l as [|x l IH]; intros seen Hd; simpl in *.
  - by rewrite app_nil_r.
  - apply andb_true_iff in Hd as [Hx Hd].
    apply negb_true_iff in Hx. rewrite Hx.
    rewrite (IH _ Hd). by rewrite <- app_assoc.
Qed.

Lemma frozenset_distinct (l : list BooleanTerm) :
  distinct l = true -> frozenset l = l.
Proof. intros Hd. unfold frozenset. by rewrite set_add_all_distinct. Qed.

Lemma filter_Forall_bool {A : Type} (f : A -> bool) (P : A -> Prop) (l : list A) :
  Forall P l -> Forall P (List.filter f l).
Proof.
  induction 1 as [|x l Hx Hl IH]; simpl; [constructor|].
  destruct (f x); [by constructor | done].
Qed.

(** ** Equality terms *)

Lemma ltb_irrefl_pair (a b : string) :
  String.ltb a b = true -> String.ltb b a = true -> False.
Proof.
  unfold String.ltb. rewrite (String.compare_antisym b a).
  destruct (String.compare a b); simpl; discriminate.
Qed.

Lemma ltb_total (a b : string) :
  String.ltb a b = false -> String.ltb b a = false -> a = b.
Proof.
  unfold String.ltb. rewrite (String.compare_antisym b a).
  destruct (String.compare a b) eqn:Hc; simpl; try discriminate.
  intros _ _. by apply String.compare_eq_iff.
Qed.

Lemma term_eqb_Eq_refl (l r : string) : term_eqb (EqNode l r) (EqNode l r) = true.
Proof. simpl. by rewrite !String.eqb_refl. Qed.

Lemma Eq_new_cases (a b : string) :
  (a = b /\ Eq_new a b = TRUE)
  \/ (a <> b /\ String.ltb b a = true /\ Eq_new a b = EqNode a b)
  \/ (a <> b /\ String.ltb a b = true /\ Eq_new a b = EqNode b a).
Proof.
  unfold Eq_new, sorted2.
  destruct (String.eqb_spec a b) as [->|Hne]; [by left|right].
  destruct (String.ltb b a) eqn:Hba; [by left|right].
  split; [done|]. split; [|done].
  destruct (String.ltb a b) eqn:Hab; [done|].
  destruct Hne. by apply ltb_total.
Qed.

(** C9.  [Eq(a, b)] and [Eq(b, a)] are the same term, so they are equal for
    [__eq__] and every function of the term, the hash among them, takes one
    value on both; [Eq(a, a)] is the constant [TRUE]; and no [Eq] object
    with twice the same label comes out of the constructor. *)
Theorem Eq_new_symmetric_reflexive :
  (forall a b : string,
      Eq_new a b = Eq_new b a /\ term_eqb (Eq_new a b) (Eq_new b a) = true)
  /\ (forall a : string, Eq_new a a = TRUE)
  /\ (forall a b l r : string, Eq_new a b = EqNode l r -> l <> r).
Proof.
  split; [|split].
  - intros a b.
    assert (Hsym : Eq_new a b = Eq_new b a).
    { destruct (Eq_new_cases a b) as [[-> _]|[(Hne & Hlt & ->)|(Hne & Hlt & ->)]];
        [done| |].
      - destruct (Eq_new_cases b a) as [[-> _]|[(_ & Hlt' & ->)|(_ & _ & ->)]];
          [done| |done].
        destruct (ltb_irrefl_pair _ _ Hlt Hlt').
      - destruct (Eq_new_cases b a) as [[-> _]|[(_ & _ & ->)|(_ & Hlt' & ->)]];
          [done|done|].
        destruct (ltb_irrefl_pair _ _ Hlt Hlt'). }
    split; [done|]. rewrite <- Hsym.
    destruct (Eq_new_cases a b) as [[_ ->]|[(_ & _ & ->)|(_ & _ & ->)]];
      [done| |]; apply term_eqb_Eq_refl.
  - intros a. unfold Eq_new. by rewrite String.eqb_refl.
  - intros a b l r H.
    destruct (Eq_new_cases a b) as [[_ Heq]|[(Hne & _ & Heq)|(Hne & _ & Heq)]];
      rewrite Heq in H; [discriminate| |]; injection H as <- <-; congruence.
Qed.

(** ** The shape of compound terms *)

Lemma well_formed_And (exprs : list BooleanTerm) :
  well_formed (AndNode exprs) = true <->
  2 <= length exprs /\ Forall (fun e => is_And e = false /\ well_formed e = true) exprs.
Proof.
  cbn [well_formed]. rewrite andb_true_iff, Nat.leb_le, forallb_forall, Forall_forall.
  split; intros [Hlen H]; (split; [done|]); intros e He; specialize (H e).
  - apply list_elem_of_In in He. apply H in He.
    apply andb_true_iff in He as [Hk Hw]. by apply negb_true_iff in Hk.
  - apply list_elem_of_In in He. destruct (H He) as [Hk Hw].
    by rewrite Hk, Hw.
Qed.

Lemma well_formed_Or (exprs : list BooleanTerm) :
  well_formed (OrNode exprs) = true <->
  2 <= length exprs /\ Forall (fun e => is_Or e = false /\ well_formed e = true) exprs.
Proof.
  cbn [well_formed]. rewrite andb_true_iff, Nat.leb_le, forallb_forall, Forall_forall.
  split; intros [Hlen H]; (split; [done|]); intros e He; specialize (H e).
  - apply list_elem_of_In in He. apply H in He.
    apply andb_true_iff in He as [Hk Hw]. by apply negb_true_iff in Hk.
  - apply list_elem_of_In in He. destruct (H He) as [Hk Hw].
    by rewrite Hk, Hw.
Qed.

Lemma And_flatten_Forall (exprs : list BooleanTerm) :
  Forall (fun e => well_formed e = true) exprs ->
  Forall (fun e => is_And e = false /\ well_formed e = true) (And_flatten exprs).
Proof.
  induction 1 as [|e l He Hl IH]; simpl; [constructor|].
  apply Forall_app; split; [|exact IH].
  destruct e; try (by repeat constructor).
  by apply well_formed_And in He as [_ He].
Qed.

Lemma Or_flatten_Forall (exprs : list BooleanTerm) :
  Forall (fun e => well_formed e = true) exprs ->
  Forall (fun e => is_Or e = false /\ well_formed e = true) (Or_flatten exprs).
Proof.
  induction 1 as [|e l He Hl IH]; simpl; [constructor|].
  apply Forall_app; split; [|exact IH].
  destruct e; try (by repeat constructor).
  by apply well_formed_Or in He as [_ He].
Qed.

Lemma And_new_well_formed (exprs : list BooleanTerm) :
  Forall (fun e => well_formed e = true) exprs -> well_formed (And_new exprs) = true.
Proof.
  intros H. unfold And_new.
  pose proof (filter_Forall_bool (fun e => negb (is_TRUE e)) _ _
                (frozenset_Forall _ _ (And_flatten_Forall _ H))) as HF.
  destruct (existsb is_FALSE _); [done|].
  destruct (List.filter _ _) as [|x [|y l]] eqn:E; [done| |].
  - by inversion HF as [|? ? [_ Hx] _].
  - apply well_formed_And. split; [simpl; lia | done].
Qed.

Lemma Or_new_well_formed (exprs : list BooleanTerm) :
  Forall (fun e => well_formed e = true) exprs -> well_formed (Or_new exprs) = true.
Proof.
  intros H. unfold Or_new.
  pose proof (filter_Forall_bool (fun e => negb (is_FALSE e)) _ _
                (frozenset_Forall _ _ (Or_flatten_Forall _ H))) as HF.
  destruct (existsb is_TRUE _); [done|].
  destruct (List.filter _ _) as [|x [|y l]] eqn:E; [done| |].
  - by inversion HF as [|? ? [_ Hx] _].
  - apply well_formed_Or. split; [simpl; lia | done].
Qed.

Lemma Eq_new_well_formed (a b : string) : well_formed (Eq_new a b) = true.
Proof.
  by destruct (Eq_new_cases a b) as [[_ ->]|[(_ & _ & ->)|(_ & _ & ->)]].
Qed.

(** C7.  Every term obtained from the constructors is well formed: each of
    its [And] and [Or] nodes has at least two members, none of which is a
    node of the same class. *)
Theorem constructible_well_formed (t : BooleanTerm) :
  constructible t -> well_formed t = true.
Proof.
  induction 1 as [| |a b|exprs _ IH|exprs _ IH]; [done|done| | |].
  - apply Eq_new_well_formed.
  - apply And_new_well_formed. apply Forall_forall. intros e He.
    apply IH. by apply list_elem_of_In.
  - apply Or_new_well_formed. apply Forall_forall. intros e He.
    apply IH. by apply list_elem_of_In.
Qed.

Lemma constructible_well_formed_witness :
  constructible (Or_new [Eq_new "t" "v1";
                         And_new [Eq_new "t" "v2";
                                  Or_new [Eq_new "t" "v2"; Eq_new "t" "v3"]]])
  /\ well_formed (Or_new [Eq_new "t" "v1";
                          And_new [Eq_new "t" "v2";
                                   Or_new [Eq_new "t" "v2"; Eq_new "t" "v3"]]]) = true.
Proof.
  assert (H : constructible
                (Or_new [Eq_new "t" "v1";
                         And_new [Eq_new "t" "v2";
                                  Or_new [Eq_new "t" "v2"; Eq_new "t" "v3"]]])).
  { apply constructible_Or. intros e [<-|[<-|[]]]; [apply constructible_Eq|].
    apply constructible_And. intros e [<-|[<-|[]]]; [apply constructible_Eq|].
    apply constructible_Or. intros e [<-|[<-|[]]]; apply constructible_Eq. }
  split; [exact H | exact (constructible_well_formed _ H)].
Defined.

(** [simplify] builds its result with the constructors, whatever the term
    it starts from. *)
Lemma simplify_well_formed (t : BooleanTerm) (a : assignment) :
  well_formed (simplify t a) = true.
Proof.
  induction t as [| |l r|exprs IH|exprs IH] using BooleanTerm_induction;
    [done|done| | |]; simpl.
  - unfold Eq_simplify. destruct (_ || _); [done|].
    apply Or_new_well_formed, Forall_forall. intros e He.
    apply list_elem_of_In, in_map_iff in He as (i & <- & _).
    apply And_new_well_formed. repeat constructor; apply Eq_new_well_formed.
  - apply And_new_well_formed, Forall_forall. intros e He.
    apply list_elem_of_In, in_map_iff in He as (x & <- & Hx).
    rewrite Forall_forall in IH. by apply IH, list_elem_of_In.
  - apply Or_new_well_formed, Forall_forall. intros e He.
    apply list_elem_of_In, in_map_iff in He as (x & <- & Hx).
    rewrite Forall_forall in IH. by apply IH, list_elem_of_In.
Qed.

(** ** Normalization of a set that is already normal *)

Lemma And_flatten_id (exprs : list BooleanTerm) :
  forallb (fun e => negb (is_And e)) exprs = true -> And_flatten exprs = exprs.
Proof.
  induction exprs as [|e l IH]; simpl; [done|].
  intros [He Hl]%andb_true_iff. rewrite (IH Hl). by destruct e.
Qed.

Lemma Or_flatten_id (exprs : list BooleanTerm) :
  forallb (fun e => negb (is_Or e)) exprs = true -> Or_flatten exprs = exprs.
Proof.
  induction exprs as [|e l IH]; simpl; [done|].
  intros [He Hl]%andb_true_iff. rewrite (IH Hl). by destruct e.
Qed.

Lemma no_constant_split (exprs : list BooleanTerm) :
  forallb (fun e => negb (is_TRUE e || is_FALSE e)) exprs = true ->
  forallb (fun e => negb (is_TRUE e)) exprs = true
  /\ forallb (fun e => negb (is_FALSE e)) exprs = true
  /\ existsb is_TRUE exprs = false
  /\ existsb is_FALSE exprs = false.
Proof.
  induction exprs as [|e l IH]; simpl; [done|].
  intros [He Hl]%andb_true_iff. destruct (IH Hl) as (-> & -> & -> & ->).
  by destruct e.
Qed.

Lemma normal_set_kept (exprs : list BooleanTerm) :
  2 <= length exprs ->
  distinct exprs = true ->
  forallb (fun e => negb (is_TRUE e || is_FALSE e)) exprs = true ->
  (forallb (fun e => negb (is_And e)) exprs = true -> And_new exprs = AndNode exprs)
  /\ (forallb (fun e => negb (is_Or e)) exprs = true -> Or_new exprs = OrNode exprs).
Proof.
  intros Hlen Hd Hc. destruct (no_constant_split _ Hc) as (HT & HF & HeT & HeF).
  split; intros Hk.
  - unfold And_new. rewrite (And_flatten_id _ Hk), (frozenset_distinct _ Hd).
    rewrite (forallb_filter_id _ _ HT), HeF.
    destruct exprs as [|x [|y l]]; simpl in Hlen; [lia|lia|done].
  - unfold Or_new. rewrite (Or_flatten_id _ Hk), (frozenset_distinct _ Hd).
    rewrite (forallb_filter_id _ _ HF), HeT.
    destruct exprs as [|x [|y l]]; simpl in Hlen; [lia|lia|done].
Qed.

(** C8, as amended.  Over a list of at least two terms, pairwise different
    for [__eq__], none of which is [TRUE] or [FALSE]: when no member is an
    [And], [And] returns the [And] node whose members are exactly the given
    ones, and when no member is an [Or], [Or] returns the [Or] node whose
    members are exactly the given ones. *)
Theorem normalization_idempotent (exprs : list BooleanTerm) :
  2 <= length exprs ->
  distinct exprs = true ->
  forallb (fun e => negb (is_TRUE e || is_FALSE e)) exprs = true ->
  (forallb (fun e => negb (is_And e)) exprs = true -> And_new exprs = AndNode exprs)
  /\ (forallb (fun e => negb (is_Or e)) exprs = true -> Or_new exprs = OrNode exprs).
Proof. exact (normal_set_kept exprs). Qed.

Lemma normalization_idempotent_witness :
  And_new [Eq_new "x" "a"; Or_new [Eq_new "y" "a"; Eq_new "y" "b"]]
  = AndNode [EqNode "x" "a"; OrNode [EqNode "y" "a"; EqNode "y" "b"]]
  /\ Or_new [Eq_new "x" "a"; And_new [Eq_new "y" "a"; Eq_new "y" "b"]]
     = OrNode [EqNode "x" "a"; AndNode [EqNode "y" "a"; EqNode "y" "b"]].
Proof.
  split.
  - apply (normalization_idempotent
             [EqNode "x" "a"; OrNode [EqNode "y" "a"; EqNode "y" "b"]]);
      [simpl; lia | reflexivity | reflexivity | reflexivity].
  - apply (normalization_idempotent
             [EqNode "x" "a"; AndNode [EqNode "y" "a"; EqNode "y" "b"]]);
      [simpl; lia | reflexivity | reflexivity | reflexivity].
Defined.

(** C8, as stated, fails on a set that holds a constant: the two terms
    [Eq("a", "b")] and [TRUE] are different, neither is an [And], and [And]
    over them is the [Eq] term alone, while [And] over [Eq("a", "b")] and
    [FALSE] is [FALSE]; dually for [Or]. *)
Lemma normalization_idempotent_counterexample :
  let with_true := [Eq_new "a" "b"; TRUE] in
  let with_false := [Eq_new "a" "b"; FALSE] in
  (2 <= length with_true /\ distinct with_true = true
   /\ forallb (fun e => negb (is_And e)) with_true = true
   /\ And_new with_true = EqNode "b" "a"
   /\ ~ exists cs, And_new with_true = AndNode cs
                   /\ forall x, In x cs <-> In x with_true)
  /\ (2 <= length with_false /\ distinct with_false = true
      /\ forallb (fun e => negb (is_Or e)) with_false = true
      /\ Or_new with_false = EqNode "b" "a"
      /\ ~ exists cs, Or_new with_false = OrNode cs
                      /\ forall x, In x cs <-> In x with_false)
  /\ And_new with_false = FALSE
  /\ Or_new with_true = TRUE.
Proof.
  simpl. repeat split; try lia; try reflexivity.
  - intros (cs & H & _). vm_compute in H. discriminate.
  - intros (cs & H & _). vm_compute in H. discriminate.
Qed.

(** ** Simplification of an equality *)

Lemma Or_new_nil : Or_new [] = FALSE.
Proof. reflexivity. Qed.

(** In the rewriting case every disjunct is a conjunction of two equality
    objects: a common candidate is neither of the two labels. *)
Lemma Eq_simplify_conjunct (l r i : string) (a : assignment) :
  l <> r ->
  r ∉ assignments_get a l -> l ∉ assignments_get a r ->
  i ∈ assignments_get a l ∩ assignments_get a r ->
  is_Eq (Eq_new l i) = true /\ is_Eq (Eq_new i r) = true
  /\ And_new [Eq_new l i; Eq_new i r] = AndNode [Eq_new l i; Eq_new i r].
Proof.
  intros Hlr Hr Hl [Hil Hir]%elem_of_intersection.
  assert (Hli : l <> i) by (intros ->; done).
  assert (Hri : i <> r) by (intros ->; done).
  assert (Hne : forall x y z : string, x <> y -> y <> z -> x <> z ->
                term_eqb (Eq_new y z) (Eq_new x y) = false).
  { intros x y z Hxy Hyz Hxz.
    destruct (Eq_new_cases y z) as [[? _]|[(_ & _ & ->)|(_ & _ & ->)]]; [done| |];
      destruct (Eq_new_cases x y) as [[? _]|[(_ & _ & ->)|(_ & _ & ->)]];
      try done; simpl; apply andb_false_iff;
      solve [ left; apply String.eqb_neq; congruence
            | right; apply String.eqb_neq; congruence ]. }
  specialize (Hne l i r Hli Hri Hlr).
  destruct (Eq_new_cases l i) as [[? _]|[(_ & _ & El)|(_ & _ & El)]]; [done| |];
    destruct (Eq_new_cases i r) as [[? _]|[(_ & _ & Er)|(_ & _ & Er)]];
    try done; rewrite El, Er in *; (split; [done|split; [done|]]);
    unfold And_new, frozenset; simpl; unfold term_in; simpl;
    simpl in Hne; rewrite Hne; reflexivity.
Qed.

Lemma Eq_new_eqb_inv (p q p' q' : string) :
  p <> q -> term_eqb (Eq_new p q) (Eq_new p' q') = true ->
  (p = p' /\ q = q') \/ (p = q' /\ q = p').
Proof.
  intros Hpq.
  destruct (Eq_new_cases p q) as [[? _]|[(_ & _ & ->)|(_ & _ & ->)]]; [done| |];
    destruct (Eq_new_cases p' q') as [[_ ->]|[(_ & _ & ->)|(_ & _ & ->)]];
    simpl; try discriminate;
    intros [H1 H2]%andb_true_iff;
    apply String.eqb_eq in H1; apply String.eqb_eq in H2; tauto.
Qed.

Lemma conjunct_eqb_false (l r x y : string) :
  l <> x -> x <> y -> l <> y -> l <> r ->
  term_eqb (AndNode [Eq_new l x; Eq_new x r]) (AndNode [Eq_new l y; Eq_new y r])
  = false.
Proof.
  intros Hlx Hxy Hly Hlr. simpl.
  destruct (term_eqb (Eq_new l x) (Eq_new l y)) eqn:E1.
  { apply Eq_new_eqb_inv in E1 as [[_ ?]|[? _]]; done. }
  destruct (term_eqb (Eq_new l x) (Eq_new y r)) eqn:E2.
  { apply Eq_new_eqb_inv in E2 as [[? _]|[? _]]; done. }
  done.
Qed.

Lemma conjuncts_distinct (l r : string) (seen rest : list string) :
  l <> r -> NoDup (seen ++ rest) ->
  (forall i, i ∈ seen ++ rest -> l <> i) ->
  distinct_from (map (fun i => AndNode [Eq_new l i; Eq_new i r]) seen)
                (map (fun i => AndNode [Eq_new l i; Eq_new i r]) rest) = true.
Proof.
  intros Hlr. revert seen. induction rest as [|x rest IH]; intros seen Hnd Hl; [done|].
  cbn [map distinct_from]. apply andb_true_iff. split.
  - apply negb_true_iff. unfold term_in.
    destruct (existsb _ _) eqn:E; [|done].
    apply existsb_exists in E as (t & Ht & Heq).
    apply in_map_iff in Ht as (y & <- & Hy).
    rewrite conjunct_eqb_false in Heq; [done| | | |done].
    + apply Hl. apply elem_of_app. right. constructor.
    + intros ->. apply NoDup_app in Hnd as (_ & Hdis & _).
      apply (Hdis y); [by apply list_elem_of_In | constructor].
    + apply Hl. apply elem_of_app. left. by apply list_elem_of_In.
  - replace (map (fun i => AndNode [Eq_new l i; Eq_new i r]) seen
             ++ [AndNode [Eq_new l x; Eq_new x r]])
      with (map (fun i => AndNode [Eq_new l i; Eq_new i r]) (seen ++ [x]))
      by (by rewrite map_app).
    apply IH; by rewrite <- app_assoc.
Qed.

(** The rewriting case of [Eq.simplify], with the constructors evaluated: no
    common candidate gives [FALSE], one gives the conjunction for it, and
    several give the [Or] node of their conjunctions, one member for each
    common candidate. *)
Lemma Eq_simplify_shape (l r : string) (a : assignment) :
  l <> r -> r ∉ assignments_get a l -> l ∉ assignments_get a r ->
  simplify (EqNode l r) a
  = match elements (assignments_get a l ∩ assignments_get a r) with
    | [] => FALSE
    | [i] => AndNode [Eq_new l i; Eq_new i r]
    | common => OrNode (map (fun i => AndNode [Eq_new l i; Eq_new i r]) common)
    end.
Proof.
  intros Hlr Hr Hl. simpl. unfold Eq_simplify.
  rewrite (bool_decide_eq_false_2 _ Hr), (bool_decide_eq_false_2 _ Hl). simpl.
  pose proof (NoDup_elements (assignments_get a l ∩ assignments_get a r)) as Hnd.
  assert (Hin : forall i, i ∈ elements (assignments_get a l ∩ assignments_get a r) ->
                i ∈ assignments_get a l ∩ assignments_get a r).
  { intros i. apply elem_of_elements. }
  destruct (elements _) as [|i [|j common]] eqn:E; [done| |].
  - simpl. destruct (Eq_simplify_conjunct l r i a) as (_ & _ & ->); try done.
    apply Hin. constructor.
  - rewrite (map_ext_in _ (fun i => AndNode [Eq_new l i; Eq_new i r])).
    + apply (normal_set_kept
               (map (fun i => AndNode [Eq_new l i; Eq_new i r]) (i :: j :: common))).
      * simpl. lia.
      * apply (conjuncts_distinct l r [] (i :: j :: common)); [done|done|].
        intros x Hx ->. apply Hin, elem_of_intersection in Hx as [_ Hx]. done.
      * apply forallb_forall. intros t Ht. by apply in_map_iff in Ht as (x & <- & _).
      * apply forallb_forall. intros t Ht. by apply in_map_iff in Ht as (x & <- & _).
    + intros x Hx. destruct (Eq_simplify_conjunct l r x a) as (_ & _ & ->); try done.
      apply Hin. by apply list_elem_of_In.
Qed.

Lemma Eq_simplify_unchanged (l r : string) (a : assignment) :
  r ∈ assignments_get a l \/ l ∈ assignments_get a r ->
  simplify (EqNode l r) a = EqNode l r.
Proof.
  intros H. simpl. unfold Eq_simplify. destruct H as [H|H].
  - by rewrite (bool_decide_eq_true_2 _ H).
  - rewrite (bool_decide_eq_true_2 _ H). by rewrite orb_true_r.
Qed.

(** C2.  [simplify] on an equality [Eq(left, right)], for any assignments,
    a missing key standing for the empty set: the term is returned as it is
    when [right] is a candidate of [left] or [left] a candidate of [right];
    otherwise the result is [Or] over the terms [And([Eq(left, i),
    Eq(i, right)])], [i] ranging over the common candidates of [left] and
    [right], which is [FALSE] when there is no common candidate.  For two
    different labels, this [Or] is the conjunction itself when there is one
    common candidate and an [Or] node with one conjunction for each common
    candidate when there are several. *)
Theorem Eq_simplify_spec (l r : string) (a : assignment) :
  (r ∈ assignments_get a l \/ l ∈ assignments_get a r ->
   simplify (EqNode l r) a = EqNode l r)
  /\ (r ∉ assignments_get a l -> l ∉ assignments_get a r ->
      simplify (EqNode l r) a
      = Or_new (map (fun i => And_new [Eq_new l i; Eq_new i r])
                    (elements (assignments_get a l ∩ assignments_get a r)))
      /\ (assignments_get a l ∩ assignments_get a r = ∅ ->
          simplify (EqNode l r) a = FALSE)
      /\ (l <> r ->
          simplify (EqNode l r) a
          = match elements (assignments_get a l ∩ assignments_get a r) with
            | [] => FALSE
            | [i] => AndNode [Eq_new l i; Eq_new i r]
            | common =>
                OrNode (map (fun i => AndNode [Eq_new l i; Eq_new i r]) common)
            end)).
Proof.
  split; [apply Eq_simplify_unchanged|].
  intros Hr Hl. split; [|split].
  - simpl. unfold Eq_simplify.
    by rewrite (bool_decide_eq_false_2 _ Hr), (bool_decide_eq_false_2 _ Hl).
  - simpl. unfold Eq_simplify.
    rewrite (bool_decide_eq_false_2 _ Hr), (bool_decide_eq_false_2 _ Hl). simpl.
    intros ->. by rewrite elements_empty.
  - intros Hlr. by apply Eq_simplify_shape.
Qed.

Lemma Eq_simplify_spec_witness :
  simplify (EqNode "x" "1") {[ "x" := {[ "1"; "2" ]} ]} = EqNode "x" "1"
  /\ simplify (EqNode "y" "x") {[ "x" := {[ "1" ]}; "y" := {[ "1"; "2" ]} ]}
     = AndNode [EqNode "y" "1"; EqNode "x" "1"]
  /\ simplify (EqNode "x" "3") {[ "x" := {[ "1"; "2" ]} ]} = FALSE.
Proof.
  split; [|split].
  - apply (proj1 (Eq_simplify_spec "x" "1" {[ "x" := {[ "1"; "2" ]} ]})).
    left. vm_compute. reflexivity.
  - destruct (proj2 (Eq_simplify_spec "y" "x"
                       {[ "x" := {[ "1" ]}; "y" := {[ "1"; "2" ]} ]}))
      as (_ & _ & H); [vm_compute; discriminate | vm_compute; discriminate |].
    rewrite H by discriminate. vm_compute. reflexivity.
  - destruct (proj2 (Eq_simplify_spec "x" "3" {[ "x" := {[ "1"; "2" ]} ]}))
      as (_ & H & _); [vm_compute; discriminate | vm_compute; discriminate |].
    apply H. vm_compute. reflexivity.
Defined.

(** ** Pivots of compound terms *)

Lemma And_merge_items_lookup (l : list (string * gset string)) (pivots : pivot_table)
    (k : string) :
  NoDup l.*1 ->
  foldl And_merge_item pivots l !! k
  = meet (pivots !! k) ((list_to_map l : pivot_table) !! k).
Proof.
  revert pivots. induction l as [|[n v] l IH]; intros pivots Hnd; simpl.
  - rewrite lookup_empty. by destruct (pivots !! k).
  - apply NoDup_cons in Hnd as [Hn Hnd]. rewrite (IH _ Hnd).
    destruct (decide (n = k)) as [->|Hne].
    + rewrite lookup_insert_eq.
      rewrite (not_elem_of_list_to_map_1 _ _ Hn).
      destruct (pivots !! k) eqn:E; simpl; by rewrite lookup_insert_eq.
    + rewrite (lookup_insert_ne _ _ _ _ Hne).
      destruct (pivots !! n) eqn:E; simpl; by rewrite lookup_insert_ne.
Qed.

Lemma And_merge_lookup (pivots expr_pivots : pivot_table) (k : string) :
  And_merge pivots expr_pivots !! k = meet (pivots !! k) (expr_pivots !! k).
Proof.
  unfold And_merge. rewrite And_merge_items_lookup.
  - by rewrite list_to_map_to_list.
  - apply NoDup_fst_map_to_list.
Qed.

Lemma And_extract_pivots_snoc (ps : list pivot_table) (p : pivot_table) :
  And_extract_pivots (ps ++ [p]) = And_merge (And_extract_pivots ps) p.
Proof. unfold And_extract_pivots. by rewrite foldl_app. Qed.

Lemma snoc_last {A : Type} (l : list A) (x : A) : x ∈ l ++ [x].
Proof. apply elem_of_app. right. constructor. Qed.

Lemma snoc_init {A : Type} (l : list A) (x y : A) : y ∈ l -> y ∈ l ++ [x].
Proof. intros H. apply elem_of_app. by left. Qed.

Lemma And_extract_pivots_reference (ps : list pivot_table) :
  And_pivots_reference ps (And_extract_pivots ps).
Proof.
  induction ps as [|p ps [IHd IHv]] using rev_ind.
  - split.
    + intros k. unfold And_extract_pivots. simpl. rewrite dom_empty_L.
      split; [intros H; by apply not_elem_of_empty in H|].
      intros (p & Hp & _). by apply elem_of_nil in Hp.
    + intros k V H. unfold And_extract_pivots in H. simpl in H.
      by rewrite lookup_empty in H.
  - rewrite And_extract_pivots_snoc. split.
    + intros k. rewrite elem_of_dom, And_merge_lookup.
      specialize (IHd k). rewrite elem_of_dom in IHd.
      split.
      * intros HS.
        destruct (p !! k) as [c|] eqn:Ep.
        -- exists p. split; [apply snoc_last|]. by apply elem_of_dom.
        -- destruct (And_extract_pivots ps !! k) as [c|] eqn:Ea;
             [|by destruct HS].
           destruct (proj1 IHd) as (q & Hq & Hk); [done|].
           exists q. split; [by apply snoc_init | done].
      * intros (q & Hq & Hk). apply elem_of_app in Hq as [Hq|Hq].
        -- destruct (proj2 IHd) as [c Hc]; [by exists q|].
           rewrite Hc. by destruct (p !! k).
        -- apply list_elem_of_singleton in Hq as ->.
           apply elem_of_dom in Hk as [c Hc]. rewrite Hc.
           by destruct (And_extract_pivots ps !! k).
    + intros k V. rewrite And_merge_lookup. intros HV x.
      specialize (IHv k).
      destruct (And_extract_pivots ps !! k) as [A|] eqn:Ea;
        destruct (p !! k) as [c|] eqn:Ep; simpl in HV; try discriminate;
        injection HV as <-.
      * rewrite elem_of_intersection, (IHv A eq_refl x). split.
        -- intros [HA Hc] q d [Hq|Hq]%elem_of_app Hd; [by eapply HA|].
           apply list_elem_of_singleton in Hq as ->. congruence.
        -- intros H. split; [|apply (H p c); [apply snoc_last|done]].
           intros q d Hq Hd. apply (H q d); [by apply snoc_init|done].
      * rewrite (IHv A eq_refl x). split.
        -- intros HA q d [Hq|Hq]%elem_of_app Hd; [by eapply HA|].
           apply list_elem_of_singleton in Hq as ->. congruence.
        -- intros H q d Hq Hd. apply (H q d); [by apply snoc_init|done].
      * split.
        -- intros Hx q d [Hq|Hq]%elem_of_app Hd.
           ++ assert (Hk : k ∈ dom (And_extract_pivots ps)).
              { apply IHd. exists q. split; [done|]. apply elem_of_dom; eauto. }
              apply elem_of_dom in Hk as [? Hk]. congruence.
           ++ apply list_elem_of_singleton in Hq as ->. congruence.
        -- intros H. apply (H p c); [apply snoc_last|done].
Qed.

Lemma dict_item_Some {V : Type} (d : gmap string V) (k : string) (v : V) :
  d !! k = Some v -> dict_item d k = Ok v.
Proof. unfold dict_item. by intros ->. Qed.

Lemma bind_Ok_inv {A B : Type} (m : result A) (f : A -> result B) (b : B) :
  m ≫= f = Ok b -> exists a, m = Ok a /\ f a = Ok b.
Proof. destruct m as [a| |]; simpl; [by exists a | done | done]. Qed.

Lemma sequence_Forall2 {A B : Type} (f : A -> result B) (l : list A) (rs : list B) :
  Forall2 (fun x r => f x = Ok r) l rs <-> sequence (map f l) = Ok rs.
Proof.
  revert rs. induction l as [|x l IH]; intros rs; simpl.
  - split.
    + intros H. by inversion H.
    + intros [= <-]. constructor.
  - split.
    + intros H. inversion H as [|? r ? rs' Hx Hl]; subst.
      rewrite Hx. simpl. apply IH in Hl. by rewrite Hl.
    + intros H. apply bind_Ok_inv in H as (r & Hx & H).
      apply bind_Ok_inv in H as (rs' & Hl & [= <-]).
      constructor; [done | by apply IH].
Qed.

Lemma Or_intersection_acc (rest : list pivot_table) (acc : gset string) (k : string) :
  k ∈ foldl (fun acc p => acc ∩ dom p) acc rest
  <-> k ∈ acc /\ forall p, p ∈ rest -> k ∈ dom p.
Proof.
  revert acc. induction rest as [|p rest IH]; intros acc; simpl.
  - split; [|by intros [? _]]. intros H. split; [done|].
    intros p Hp. by apply elem_of_nil in Hp.
  - rewrite IH, elem_of_intersection. split.
    + intros [[Ha Hp] H]. split; [done|].
      intros q [->|Hq]%elem_of_cons; [done | by apply H].
    + intros [Ha H]. split; [split; [done|]|].
      * apply H. constructor.
      * intros q Hq. apply H. by constructor.
Qed.

Lemma Or_intersection_spec (p0 : pivot_table) (rest : list pivot_table) (k : string) :
  k ∈ Or_intersection p0 rest <-> forall p, p ∈ p0 :: rest -> k ∈ dom p.
Proof.
  unfold Or_intersection. rewrite Or_intersection_acc. split.
  - intros [H0 H] p [->|Hp]%elem_of_cons; [done | by apply H].
  - intros H. split; [apply H; constructor|].
    intros p Hp. apply H. by constructor.
Qed.

Lemma Or_values_acc (ps : list pivot_table) (k : string) (acc : gset string) :
  (forall p, p ∈ ps -> k ∈ dom p) ->
  exists V,
    foldlM (fun values p => v ← dict_item p k; Ok (values ∪ v)) acc ps = Ok V
    /\ forall x, x ∈ V <-> x ∈ acc \/ exists p c, p ∈ ps /\ p !! k = Some c /\ x ∈ c.
Proof.
  revert acc. induction ps as [|p ps IH]; intros acc Hk; simpl.
  - exists acc. split; [done|]. intros x. split; [by left|].
    intros [H|(p & c & Hp & _)]; [done | by apply elem_of_nil in Hp].
  - assert (Hp : k ∈ dom p) by (apply Hk; constructor).
    apply elem_of_dom in Hp as [c Hc].
    rewrite (dict_item_Some _ _ _ Hc). simpl.
    destruct (IH (acc ∪ c)) as (V & HV & Hx).
    { intros q Hq. apply Hk. by constructor. }
    exists V. split; [done|]. intros x. rewrite Hx, elem_of_union. split.
    + intros [[Ha|Hxc]|(q & d & Hq & Hd & Hxd)].
      * by left.
      * right. exists p, c. split; [constructor | done].
      * right. exists q, d. split; [by constructor | done].
    + intros [Ha|(q & d & [->|Hq]%elem_of_cons & Hd & Hxd)].
      * left. by left.
      * left. right. congruence.
      * right. by exists q, d.
Qed.

Lemma Or_values_spec (ps : list pivot_table) (k : string) :
  (forall p, p ∈ ps -> k ∈ dom p) ->
  exists V, Or_values ps k = Ok V
    /\ forall x, x ∈ V <-> exists p c, p ∈ ps /\ p !! k = Some c /\ x ∈ c.
Proof.
  intros Hk. destruct (Or_values_acc ps k ∅ Hk) as (V & HV & Hx).
  exists V. split; [done|]. intros x. rewrite Hx. split; [|by right].
  intros [H|H]; [by apply not_elem_of_empty in H | done].
Qed.

Lemma Or_build_acc (ps : list pivot_table) (keys : list string) (acc : pivot_table) :
  (forall k, k ∈ keys -> forall p, p ∈ ps -> k ∈ dom p) ->
  exists P,
    foldlM (fun pivots pivot =>
              values ← Or_values ps pivot; Ok (<[pivot := values]> pivots))
           acc keys = Ok P
    /\ (forall k, k ∈ dom P <-> k ∈ dom acc \/ k ∈ keys)
    /\ (forall k V, P !! k = Some V ->
          acc !! k = Some V \/ (k ∈ keys /\ Or_values ps k = Ok V)).
Proof.
  revert acc. induction keys as [|k0 keys IH]; intros acc Hk; simpl.
  - exists acc. split; [done|]. split; [|by left].
    intros k. split; [by left|]. intros [H|H]; [done | by apply elem_of_nil in H].
  - destruct (Or_values_spec ps k0) as (V0 & HV0 & _).
    { apply Hk. constructor. }
    rewrite HV0. simpl.
    destruct (IH (<[k0 := V0]> acc)) as (P & HP & Hdom & Hval).
    { intros k Hkk. apply Hk. by constructor. }
    exists P. split; [done|]. split.
    + intros k. rewrite Hdom, dom_insert_L, elem_of_union, elem_of_singleton,
        elem_of_cons. tauto.
    + intros k V HkV. destruct (Hval k V HkV) as [Ha|[Hin HV]].
      * destruct (decide (k0 = k)) as [->|Hne].
        -- rewrite lookup_insert_eq in Ha. injection Ha as <-.
           right. split; [constructor | done].
        -- rewrite lookup_insert_ne in Ha by done. by left.
      * right. split; [by constructor | done].
Qed.

Lemma Or_extract_pivots_reference (p0 : pivot_table) (rest : list pivot_table) :
  exists P, Or_extract_pivots (p0 :: rest) = Ok P
            /\ Or_pivots_reference (p0 :: rest) P.
Proof.
  unfold Or_extract_pivots.
  destruct (Or_build_acc (p0 :: rest) (elements (Or_intersection p0 rest)) ∅)
    as (P & HP & Hdom & Hval).
  { intros k Hk%elem_of_elements. by apply Or_intersection_spec. }
  exists P. split; [done|]. split.
  - intros k. rewrite Hdom, dom_empty_L, elem_of_elements, Or_intersection_spec.
    split; [|by right]. intros [H|H]; [by apply not_elem_of_empty in H | done].
  - intros k V HkV x. destruct (Hval k V HkV) as [Ha|[Hin HV]].
    { by rewrite lookup_empty in Ha. }
    destruct (Or_values_spec (p0 :: rest) k) as (V' & HV' & Hx).
    { apply Or_intersection_spec. by apply elem_of_elements. }
    rewrite HV in HV'. injection HV' as <-. apply Hx.
Qed.

Lemma extract_pivots_compound (exprs : list BooleanTerm)
    (pivots_list : list pivot_table) :
  Forall2 (fun e p => extract_pivots e = Ok p) exprs pivots_list ->
  (exists P, extract_pivots (AndNode exprs) = Ok P
             /\ And_pivots_reference pivots_list P)
  /\ (exprs <> [] ->
      exists P, extract_pivots (OrNode exprs) = Ok P
                /\ Or_pivots_reference pivots_list P).
Proof.
  intros H. pose proof (proj1 (sequence_Forall2 _ _ _) H) as Hseq. split.
  - exists (And_extract_pivots pivots_list). split.
    + simpl. by rewrite Hseq.
    + apply And_extract_pivots_reference.
  - intros Hne. simpl. rewrite Hseq. simpl.
    destruct H as [|e p es ps _ _]; [done|].
    apply Or_extract_pivots_reference.
Qed.

Lemma Forall_exists_Forall2 {A B : Type} (R : A -> B -> Prop) (l : list A) :
  Forall (fun x => exists y, R x y) l -> exists ys, Forall2 R l ys.
Proof.
  induction 1 as [|x l [y Hy] _ [ys Hys]].
  - exists []. constructor.
  - exists (y :: ys). by constructor.
Qed.

(** [extract_pivots] returns on every well-formed term: the only statement
    that can raise, [pivots_list[0]], runs on a non-empty list. *)
Lemma extract_pivots_total (t : BooleanTerm) :
  well_formed t = true -> exists P, extract_pivots t = Ok P.
Proof.
  induction t as [| |l r|exprs IH|exprs IH] using BooleanTerm_induction;
    intros Hwf; [by exists ∅ | by exists ∅ | by eexists | |].
  - apply well_formed_And in Hwf as [_ Hwf].
    destruct (Forall_exists_Forall2 (fun e p => extract_pivots e = Ok p) exprs)
      as [ps Hps].
    { rewrite Forall_forall in *. intros e He. apply (IH e He).
      by apply (Hwf e He). }
    destruct (extract_pivots_compound _ _ Hps) as [(P & HP & _) _]. by exists P.
  - apply well_formed_Or in Hwf as [Hlen Hwf].
    destruct (Forall_exists_Forall2 (fun e p => extract_pivots e = Ok p) exprs)
      as [ps Hps].
    { rewrite Forall_forall in *. intros e He. apply (IH e He).
      by apply (Hwf e He). }
    destruct (extract_pivots_compound _ _ Hps) as [_ HO].
    destruct HO as (P & HP & _); [|by exists P].
    intros ->. simpl in Hlen. lia.
Qed.

(** C3.  On every [And] node, [extract_pivots] returns the table that the
    reference definition describes from the pivots of the children (keys:
    union of the children's keys; value of a key: intersection of the
    candidate sets that the children give it); on every [Or] node it
    returns the table of the dual definition (keys: those that every child
    has; value of a key: union of its candidate sets across the
    children). *)
Theorem extract_pivots_matches_reference :
  (forall exprs, well_formed (AndNode exprs) = true ->
     exists pivots_list P,
       Forall2 (fun e p => extract_pivots e = Ok p) exprs pivots_list
       /\ extract_pivots (AndNode exprs) = Ok P
       /\ And_pivots_reference pivots_list P)
  /\ (forall exprs, well_formed (OrNode exprs) = true ->
        exists pivots_list P,
          Forall2 (fun e p => extract_pivots e = Ok p) exprs pivots_list
          /\ extract_pivots (OrNode exprs) = Ok P
          /\ Or_pivots_reference pivots_list P).
Proof.
  split; intros exprs Hwf.
  - apply well_formed_And in Hwf as [_ Hwf].
    destruct (Forall_exists_Forall2 (fun e p => extract_pivots e = Ok p) exprs)
      as [ps Hps].
    { rewrite Forall_forall in *. intros e He.
      apply extract_pivots_total. by apply (Hwf e He). }
    destruct (extract_pivots_compound _ _ Hps) as [(P & HP & Href) _].
    by exists ps, P.
  - apply well_formed_Or in Hwf as [Hlen Hwf].
    destruct (Forall_exists_Forall2 (fun e p => extract_pivots e = Ok p) exprs)
      as [ps Hps].
    { rewrite Forall_forall in *. intros e He.
      apply extract_pivots_total. by apply (Hwf e He). }
    destruct (extract_pivots_compound _ _ Hps) as [_ HO].
    destruct HO as (P & HP & Href); [|by exists ps, P].
    intros ->. simpl in Hlen. lia.
Qed.

Lemma extract_pivots_matches_reference_witness :
  (exists pivots_list P,
      Forall2 (fun e p => extract_pivots e = Ok p)
              [EqNode "x" "a"; EqNode "x" "b"] pivots_list
      /\ extract_pivots (AndNode [EqNode "x" "a"; EqNode "x" "b"]) = Ok P
      /\ And_pivots_reference pivots_list P)
  /\ (exists pivots_list P,
         Forall2 (fun e p => extract_pivots e = Ok p)
                 [EqNode "x" "a"; EqNode "x" "b"] pivots_list
         /\ extract_pivots (OrNode [EqNode "x" "a"; EqNode "x" "b"]) = Ok P
         /\ Or_pivots_reference pivots_list P).
Proof.
  split.
  - apply (proj1 extract_pivots_matches_reference). reflexivity.
  - apply (proj2 extract_pivots_matches_reference). reflexivity.
Defined.

(** ** Registration *)

(** C6, as amended.  [implies(e, implication)] raises [AssertionError], at
    the call, when [e] is not an [Eq] object (one of the two constants, an
    [And] or an [Or]) or when [e] is already a key of the implication table,
    and in every other case it returns, with the new entry added;
    [always_true(formula)] raises at the call when [formula] is [FALSE] and
    in every other case it returns, with [formula] conjoined to the ground
    truth. *)
Theorem registration_contract (s : Solver.state) :
  (forall e implication,
      is_Eq e = false \/ Solver.has_key (Solver.implications s) e = true ->
      Solver.implies e implication s = Raise AssertionError)
  /\ (forall e implication,
         is_Eq e = true -> Solver.has_key (Solver.implications s) e = false ->
         exists s', Solver.implies e implication s = Ok s'
                    /\ Solver.implications s'
                       = Solver.implications s ++ [(e, implication)])
  /\ Solver.always_true FALSE s = Raise AssertionError
  /\ (forall formula, is_FALSE formula = false ->
        exists s', Solver.always_true formula s = Ok s'
                   /\ Solver.ground_truth s'
                      = And_new [Solver.ground_truth s; formula]).
Proof.
  split; [|split; [|split]].
  - intros e implication [He|Hk]; unfold Solver.implies.
    + destruct e; try done.
    + destruct e; try done. simpl. by rewrite Hk.
  - intros e implication He Hk. unfold Solver.implies.
    destruct e; try done. simpl. rewrite Hk. by eexists.
  - done.
  - intros formula Hf. unfold Solver.always_true. rewrite Hf. by eexists.
Qed.

Lemma registration_contract_witness :
  Solver.implies (AndNode [EqNode "b" "a"; EqNode "d" "c"]) TRUE Solver.init
  = Raise AssertionError
  /\ (exists s', Solver.implies (EqNode "t" "1") FALSE Solver.init = Ok s'
                 /\ Solver.implications s'
                    = Solver.implications Solver.init ++ [(EqNode "t" "1", FALSE)])
  /\ (exists s', Solver.always_true (EqNode "t" "1") Solver.init = Ok s'
                 /\ Solver.ground_truth s'
                    = And_new [Solver.ground_truth Solver.init; EqNode "t" "1"]).
Proof.
  split; [|split].
  - apply (proj1 (registration_contract Solver.init)). left. reflexivity.
  - apply (proj1 (proj2 (registration_contract Solver.init))); reflexivity.
  - apply (proj2 (proj2 (proj2 (registration_contract Solver.init)))). reflexivity.
Defined.

(** C6, as stated, fails when the key is a compound term: an [And] of two
    equalities is neither constant and is no key of the empty table, and
    [implies] raises on it. *)
Lemma registration_contract_counterexample :
  let e := And_new [Eq_new "a" "b"; Eq_new "c" "d"] in
  is_TRUE e = false /\ is_FALSE e = false
  /\ Solver.has_key (Solver.implications Solver.init) e = false
  /\ Solver.implies e TRUE Solver.init = Raise AssertionError
  /\ ~ exists s', Solver.implies e TRUE Solver.init = Ok s'.
Proof.
  simpl. repeat split. intros [s' H]. vm_compute in H. discriminate.
Qed.

(** ** The documented example *)

(** C1.  On the documented example (variable [t], values [v1], [v2], [v3],
    implications [TRUE], [TRUE], [FALSE], ground truth
    [t = v1 | (t = v2 & (t = v2 | t = v3))]) every registration call
    returns and [solve] returns the assignment that maps [t] to
    [{v1, v2}] and has no other key. *)
Theorem solve_documented_example :
  (s ← example_solver; Solver.solve s) = Ok {[ "t" := {[ "v1"; "v2" ]} ]}.
Proof. vm_compute. reflexivity. Qed.

(** ** Loops *)

Lemma foldlM_snoc {A B : Type} (f : A -> B -> result A) (a : A) (l : list B) (x : B) :
  foldlM f a (l ++ [x]) = (a' ← foldlM f a l; f a' x).
Proof.
  revert a. induction l as [|y l IH]; intros a; simpl.
  - by destruct (f a x).
  - destruct (f a y) as [a'| |]; simpl; [apply IH | done | done].
Qed.

(** A relation that is reflexive and transitive and holds across the body
    holds across the loop. *)
Lemma foldlM_preorder {A B : Type} (R : A -> A -> Prop) (f : A -> B -> result A)
    (l : list B) (a a' : A) :
  (forall x, R x x) -> (forall x y z, R x y -> R y z -> R x z) ->
  (forall x b y, b ∈ l -> f x b = Ok y -> R x y) ->
  foldlM f a l = Ok a' -> R a a'.
Proof.
  intros Hrefl Htrans. revert a. induction l as [|b l IH]; intros a Hf; simpl.
  - intros [= <-]. apply Hrefl.
  - intros H. apply bind_Ok_inv in H as (y & Hy & H).
    apply (Htrans _ y).
    + apply (Hf a b); [constructor | done].
    + apply IH; [|done]. intros x c z Hc. apply Hf. by constructor.
Qed.

Lemma foldl_preorder {A B : Type} (R : A -> A -> Prop) (f : A -> B -> A)
    (l : list B) (a : A) :
  (forall x, R x x) -> (forall x y z, R x y -> R y z -> R x z) ->
  (forall x b, b ∈ l -> R x (f x b)) ->
  R a (foldl f a l).
Proof.
  intros Hrefl Htrans. revert a. induction l as [|b l IH]; intros a Hf; simpl.
  - apply Hrefl.
  - apply (Htrans _ (f a b)).
    + apply Hf. constructor.
    + apply IH. intros x c Hc. apply Hf. by constructor.
Qed.

(** ** The working assignment only shrinks *)

Import Solver.

Lemma shrinks_refl (a : assignment) : shrinks a a.
Proof. by intros var. Qed.

Lemma shrinks_trans (a b c : assignment) : shrinks a b -> shrinks b c -> shrinks a c.
Proof. intros H1 H2 var. etransitivity; [apply H2 | apply H1]. Qed.

Lemma shrinks_insert (a : assignment) (k : string) (c c' : gset string) :
  a !! k = Some c -> c' ⊆ c -> shrinks a (<[k := c']> a).
Proof.
  intros Hk Hc var. unfold assignments_get.
  destruct (decide (k = var)) as [<-|Hne].
  - by rewrite lookup_insert_eq, Hk.
  - by rewrite lookup_insert_ne.
Qed.

Lemma weight_insert (a : assignment) (k : string) (c c' : gset string) :
  a !! k = Some c -> weight (<[k := c']> a) + size c = weight a + size c'.
Proof.
  intros Hk. unfold weight.
  rewrite (map_fold_delete_L _ _ k c a); [|intros; lia|done].
  rewrite <- (insert_delete_eq a k c').
  rewrite (map_fold_insert_L _ _ k c' (delete k a));
    [lia | intros; lia | apply lookup_delete_eq].
Qed.

Lemma descending_cons (a : assignment) (h : list assignment) :
  descending h -> (forall b, b ∈ h -> shrinks b a) -> descending (a :: h).
Proof.
  intros Hd Ha i j x y Hij Hi Hj.
  destruct i as [|i]; simpl in Hi.
  - injection Hi as <-. destruct j as [|j]; simpl in Hj.
    + injection Hj as <-. apply shrinks_refl.
    + apply Ha. by eapply list_elem_of_lookup_2.
  - destruct j as [|j]; [lia|]. simpl in Hj.
    apply (Hd i j); [lia | done | done].
Qed.

Lemma evolves_refl (st : store) : evolves st st.
Proof.
  split; [done|]. split; [by exists []|]. split; [apply shrinks_refl|]. done.
Qed.

Lemma evolves_trans (x y z : store) : evolves x y -> evolves y z -> evolves x z.
Proof.
  intros (Hc1 & [n1 Hh1] & Hs1 & Hd1 & Hw1) (Hc2 & [n2 Hh2] & Hs2 & Hd2 & Hw2).
  split; [tauto|]. split.
  { exists (n2 ++ n1). by rewrite Hh2, Hh1, app_assoc. }
  split; [by eapply shrinks_trans|]. split; [congruence | lia].
Qed.

Lemma progress_refl (x : store * bool) : progress x x.
Proof. split; [apply evolves_refl | by left]. Qed.

Lemma progress_trans (x y z : store * bool) :
  progress x y -> progress y z -> progress x z.
Proof.
  intros [He1 Hw1] [He2 Hw2]. split; [by eapply evolves_trans|].
  intros Hz. destruct He1 as (_ & _ & _ & _ & Hle1).
  destruct He2 as (_ & _ & _ & _ & Hle2).
  destruct (Hw2 Hz) as [Hy|Hlt]; [|right; lia].
  destruct (Hw1 Hy) as [Hx|Hlt]; [by left | right; lia].
Qed.

(** The one place where a candidate set is written. *)
Lemma update_evolves (st : store) (k : string) (c c' : gset string) :
  assignments st !! k = Some c -> c' ⊆ c ->
  evolves st (update k c' st)
  /\ weight (assignments (update k c' st)) + size c
     = weight (assignments st) + size c'.
Proof.
  intros Hk Hc. pose proof (weight_insert _ _ _ c' Hk) as Hw.
  pose proof (shrinks_insert _ _ _ _ Hk Hc) as Hs.
  split; [|exact Hw]. unfold update; simpl. split; [|split; [|split; [|split]]].
  - intros [Hhead Hdesc]. split; [done|]. simpl.
    apply descending_cons; [done|]. intros b Hb.
    apply list_elem_of_lookup_1 in Hb as [j Hj].
    apply (shrinks_trans _ (assignments st)); [|done].
    apply (Hdesc 0 j); [lia | | done].
    by destruct (history st).
  - by exists [<[k := c']> (assignments st)].
  - done.
  - simpl. rewrite dom_insert_L. apply subseteq_union_1_L.
    apply singleton_subseteq_l. by apply elem_of_dom_2 in Hk.
  - simpl. apply subseteq_size in Hc. lia.
Qed.

Lemma ground_step_evolves (st : store) (it : string * gset string) :
  evolves st (ground_step st it).
Proof.
  destruct it as [pivot possible_values]. unfold ground_step.
  destruct (assignments st !! pivot) as [c|] eqn:Hc; [|apply evolves_refl].
  apply (update_evolves st pivot c); [done|]. apply intersection_subseteq_l.
Qed.

Lemma ground_narrowing_evolves (st : store) (items : list (string * gset string)) :
  evolves st (foldl ground_step st items).
Proof.
  apply foldl_preorder; [apply evolves_refl | apply evolves_trans |].
  intros x b _. apply ground_step_evolves.
Qed.

Lemma pivot_step_progress (acc : store * bool) (it : string * gset string) :
  progress acc (pivot_step acc it).
Proof.
  destruct acc as [st ch], it as [pivot possible_values]. unfold pivot_step.
  destruct (assignments st !! pivot) as [c|] eqn:Hc; [|apply progress_refl].
  destruct (update_evolves st pivot c (c ∩ possible_values) Hc) as [He Hw];
    [apply intersection_subseteq_l|].
  split; [done|]. simpl. intros [Hch|Hne]%orb_true_iff; [by left|right].
  apply negb_true_iff, Nat.eqb_neq in Hne.
  pose proof (subseteq_size (c ∩ possible_values) c (intersection_subseteq_l _ _)).
  simpl in Hw. lia.
Qed.

Lemma remove_evolves (var value : string) (st st' : store) :
  remove var value st = Ok st' ->
  evolves st st' /\ weight (assignments st') < weight (assignments st).
Proof.
  unfold remove. intros H. apply bind_Ok_inv in H as (c & Hc & H).
  unfold dict_item in Hc. destruct (assignments st !! var) as [c0|] eqn:E; [|done].
  injection Hc as ->. case_bool_decide as Hv; [|done]. injection H as <-.
  destruct (update_evolves st var c (c ∖ {[value]}) E) as [He Hw];
    [apply subseteq_difference_l; done|].
  split; [done|].
  assert (size (c ∖ {[value]}) < size c); [|simpl in *; lia].
  by apply subset_size, subset_difference_elem_of.
Qed.

Lemma filter_value_progress (s : state) (var value : string)
    (st st' : store) (ch ch' : bool) (terms terms' : list BooleanTerm) :
  filter_value s var (st, ch, terms) value = Ok (st', ch', terms') ->
  progress (st, ch) (st', ch').
Proof.
  unfold filter_value. intros H. apply bind_Ok_inv in H as (implication & _ & H).
  apply bind_Ok_inv in H as ([st1 ch1] & H1 & [= <- <- <-]).
  destruct (is_FALSE _).
  - apply bind_Ok_inv in H1 as (st2 & Hr & [= <- <-]).
    apply remove_evolves in Hr as [He Hw]. split; [done|]. by right.
  - injection H1 as <- <-. apply progress_refl.
Qed.

Lemma filter_values_progress (s : state) (var : string) (vals : list string)
    (st st' : store) (ch ch' : bool) (terms terms' : list BooleanTerm) :
  foldlM (filter_value s var) (st, ch, terms) vals = Ok (st', ch', terms') ->
  progress (st, ch) (st', ch').
Proof.
  intros H.
  apply (foldlM_preorder
           (fun x y : store * bool * list BooleanTerm => progress x.1 y.1)
           _ _ _ _ (fun x => progress_refl x.1)
           (fun x y z => progress_trans x.1 y.1 z.1)) in H; [done|].
  intros [[st1 ch1] t1] value [[st2 ch2] t2] _. apply filter_value_progress.
Qed.

Lemma process_var_progress (s : state) (var : string) (acc acc' : store * bool) :
  process_var s acc var = Ok acc' -> progress acc acc'.
Proof.
  destruct acc as [st ch]. unfold process_var. intros H.
  apply bind_Ok_inv in H as (c & _ & H).
  apply bind_Ok_inv in H as ([[st1 ch1] terms] & Hf & H).
  apply bind_Ok_inv in H as (pivots & _ & [= <-]).
  apply (progress_trans _ (st1, ch1)); [by eapply filter_values_progress|].
  apply foldl_preorder; [apply progress_refl | apply progress_trans |].
  intros x b _. apply pivot_step_progress.
Qed.

Lemma pass_progress (s : state) (st st' : store) (ch : bool) :
  pass s st = Ok (st', ch) -> progress (st, false) (st', ch).
Proof.
  unfold pass. apply foldlM_preorder; [apply progress_refl | apply progress_trans |].
  intros x var y _. apply process_var_progress.
Qed.

Lemma solve_loop_evolves (s : state) (fuel : nat) (st st' : store) :
  solve_loop fuel s st = Ok st' -> evolves st st'.
Proof.
  revert st. induction fuel as [|fuel IH]; intros st; simpl; [done|].
  intros H. apply bind_Ok_inv in H as ([st1 ch] & Hp & H).
  apply pass_progress in Hp as [He _]. simpl in He.
  destruct ch.
  - apply (evolves_trans _ st1); [done | by apply IH].
  - by injection H as <-.
Qed.

Lemma fresh_store_coherent (a : assignment) : coherent (fresh_store a).
Proof.
  split; [done|]. intros i j x y _ Hi Hj.
  destruct i; [|done]. destruct j; [|done]. simpl in *.
  injection Hi as <-. injection Hj as <-. apply shrinks_refl.
Qed.

(** ** [solve] returns *)

Lemma term_eqb_Eq_new_refl (a b : string) :
  term_eqb (Eq_new a b) (Eq_new a b) = true.
Proof.
  destruct (Eq_new_cases a b) as [[_ ->]|[(_ & _ & ->)|(_ & _ & ->)]];
    [done| |]; apply term_eqb_Eq_refl.
Qed.

Lemma has_key_item (impls : list (BooleanTerm * BooleanTerm)) (e : BooleanTerm) :
  has_key impls e = true -> exists t, item impls e = Ok t.
Proof.
  unfold has_key, item. induction impls as [|kv impls IH]; simpl; [done|].
  destruct (term_eqb kv.1 e); [by eexists | done].
Qed.

Lemma has_key_app (impls more : list (BooleanTerm * BooleanTerm)) (e : BooleanTerm) :
  has_key (impls ++ more) e = has_key impls e || has_key more e.
Proof. unfold has_key. apply existsb_app. Qed.

Lemma complete_pair_keeps (var value : string)
    (impls : list (BooleanTerm * BooleanTerm)) (e : BooleanTerm) :
  has_key impls e = true -> has_key (complete_pair var impls value) e = true.
Proof.
  intros H. unfold complete_pair. destruct (has_key impls (Eq_new var value)); [done|].
  by rewrite has_key_app, H.
Qed.

Lemma complete_pair_adds (var value : string)
    (impls : list (BooleanTerm * BooleanTerm)) :
  has_key (complete_pair var impls value) (Eq_new var value) = true.
Proof.
  unfold complete_pair. destruct (has_key impls (Eq_new var value)) eqn:E; [done|].
  rewrite has_key_app. apply orb_true_iff. right.
  unfold has_key. simpl. by rewrite term_eqb_Eq_new_refl.
Qed.

Lemma complete_values_keeps (var : string) (vals : list string)
    (impls : list (BooleanTerm * BooleanTerm)) (e : BooleanTerm) :
  has_key impls e = true -> has_key (foldl (complete_pair var) impls vals) e = true.
Proof.
  revert impls. induction vals as [|v vals IH]; intros impls H; simpl; [done|].
  by apply IH, complete_pair_keeps.
Qed.

Lemma complete_values_adds (var : string) (vals : list string)
    (impls : list (BooleanTerm * BooleanTerm)) (value : string) :
  value ∈ vals ->
  has_key (foldl (complete_pair var) impls vals) (Eq_new var value) = true.
Proof.
  revert impls. induction vals as [|v vals IH]; intros impls H; simpl.
  - by apply elem_of_nil in H.
  - apply elem_of_cons in H as [->|H]; [|by apply IH].
    apply complete_values_keeps, complete_pair_adds.
Qed.

Lemma complete_variables_keeps (vars vals : list string)
    (impls : list (BooleanTerm * BooleanTerm)) (e : BooleanTerm) :
  has_key impls e = true ->
  has_key (foldl (fun impls var => foldl (complete_pair var) impls vals) impls vars) e
  = true.
Proof.
  revert impls. induction vars as [|v vars IH]; intros impls H; simpl; [done|].
  by apply IH, complete_values_keeps.
Qed.

Lemma _complete_completed (s : state) : completed (_complete s).
Proof.
  unfold completed, _complete. simpl. generalize (implications s).
  induction (variables s) as [|v vars IH]; intros impls var value Hvar Hval; simpl.
  - by apply elem_of_nil in Hvar.
  - apply elem_of_cons in Hvar as [->|Hvar]; [|by apply IH].
    by apply complete_variables_keeps, complete_values_adds.
Qed.

Lemma initial_candidates_total (impls : list (BooleanTerm * BooleanTerm))
    (vals : list string) (var : string) (acc : gset string) :
  (forall value, value ∈ vals -> has_key impls (Eq_new var value) = true) ->
  exists c,
    foldlM (fun acc value =>
              implication ← item impls (Eq_new var value);
              Ok (if is_FALSE implication then acc else acc ∪ {[value]}))
           acc vals = Ok c
    /\ forall v, v ∈ c -> v ∈ acc \/ v ∈ vals.
Proof.
  revert acc. induction vals as [|value vals IH]; intros acc Hk; simpl.
  - exists acc. split; [done | by left].
  - destruct (has_key_item impls (Eq_new var value)) as [t Ht].
    { apply Hk. constructor. }
    rewrite Ht. simpl.
    destruct (IH (if is_FALSE t then acc else acc ∪ {[value]})) as (c & Hc & Hin).
    { intros v Hv. apply Hk. by constructor. }
    exists c. split; [done|]. intros v Hv.
    destruct (Hin v Hv) as [Ha|Hl]; [|right; by constructor].
    destruct (is_FALSE t); [by left|].
    apply elem_of_union in Ha as [Ha|Ha]; [by left|].
    apply elem_of_singleton in Ha as ->. right. constructor.
Qed.

Lemma initial_assignments_total (s : state) :
  completed s ->
  exists a0, initial_assignments s = Ok a0 /\ in_range s a0.
Proof.
  intros Hc. unfold initial_assignments, in_range.
  assert (H : forall (vars : list string) (acc : assignment),
             (forall var, var ∈ vars -> var ∈ variables s) ->
             exists a0 : assignment,
               foldlM (fun asg var =>
                         c ← initial_candidates (implications s) (values s) var;
                         Ok (<[var := c]> asg)) acc vars = Ok a0
               /\ forall var, (var ∈ vars \/
                               exists c, acc !! var = Some c
                                         /\ forall v, v ∈ c -> v ∈ values s) ->
                  exists c, a0 !! var = Some c /\ forall v, v ∈ c -> v ∈ values s).
  { induction vars as [|x vars IH]; intros acc Hsub; simpl.
    - exists acc. split; [done|]. intros var [Hv|Hv]; [by apply elem_of_nil in Hv|done].
    - destruct (initial_candidates_total (implications s) (values s) x ∅)
        as (c & Hcx & Hin).
      { intros value Hval. apply Hc; [|done]. apply Hsub. constructor. }
      unfold initial_candidates. rewrite Hcx. simpl.
      destruct (IH (<[x := c]> acc)) as (a0 & Ha0 & Hr).
      { intros var Hv. apply Hsub. by constructor. }
      exists a0. split; [done|]. intros var Hv. apply Hr.
      destruct (decide (x = var)) as [<-|Hne].
      + right. exists c. rewrite lookup_insert_eq. split; [done|].
        intros v Hvc. destruct (Hin v Hvc) as [He|Hl]; [|done].
        by apply not_elem_of_empty in He.
      + destruct Hv as [[?|Hv]%elem_of_cons|(c' & Hc' & Hv)]; [done|by left|].
        right. exists c'. by rewrite lookup_insert_ne. }
  destruct (H (variables s) ∅) as (a0 & Ha0 & Hr); [done|].
  exists a0. split; [done|]. intros var Hv. apply Hr. by left.
Qed.

Lemma in_range_evolves (s : state) (st st' : store) :
  in_range s (assignments st) -> evolves st st' -> in_range s (assignments st').
Proof.
  intros Hr (_ & _ & Hs & Hd & _) var Hv.
  destruct (Hr var Hv) as (c & Hc & Hin).
  assert (Hk : var ∈ dom (assignments st')).
  { rewrite Hd. by apply elem_of_dom_2 in Hc. }
  apply elem_of_dom in Hk as [c' Hc']. exists c'. split; [done|].
  intros v Hvc. apply Hin. specialize (Hs var). unfold assignments_get in Hs.
  rewrite Hc, Hc' in Hs. by apply Hs.
Qed.

Lemma filter_value_total (s : state) (var value : string) (st : store) (ch : bool)
    (terms : list BooleanTerm) :
  completed s -> var ∈ variables s -> in_range s (assignments st) ->
  value ∈ assignments_get (assignments st) var ->
  exists st' ch' terms',
    filter_value s var (st, ch, terms) value = Ok (st', ch', terms')
    /\ forall v, v <> value -> v ∈ assignments_get (assignments st) var ->
                 v ∈ assignments_get (assignments st') var.
Proof.
  intros Hcomp Hvar Hr Hval. destruct (Hr var Hvar) as (c & Hc & Hin).
  unfold assignments_get in Hval. rewrite Hc in Hval. simpl in Hval.
  destruct (has_key_item (implications s) (Eq_new var value)) as [t Ht].
  { apply Hcomp; [done | by apply Hin]. }
  unfold filter_value. rewrite Ht. simpl.
  destruct (is_FALSE (simplify t (assignments st))).
  - unfold remove. rewrite (dict_item_Some _ _ _ Hc). simpl.
    rewrite (bool_decide_eq_true_2 _ Hval). simpl.
    eexists _, _, _. split; [done|]. intros v Hne Hv.
    unfold assignments_get in *. simpl. rewrite lookup_insert_eq. simpl.
    rewrite Hc in Hv. simpl in Hv.
    apply elem_of_difference. split; [done|]. by intros ?%elem_of_singleton.
  - simpl. eexists _, _, _. split; [done|]. done.
Qed.

Lemma filter_values_total (s : state) (var : string) (vals : list string)
    (st : store) (ch : bool) (terms : list BooleanTerm) :
  completed s -> var ∈ variables s -> NoDup vals -> in_range s (assignments st) ->
  (forall v, v ∈ vals -> v ∈ assignments_get (assignments st) var) ->
  exists r, foldlM (filter_value s var) (st, ch, terms) vals = Ok r.
Proof.
  intros Hcomp Hvar. revert st ch terms.
  induction vals as [|value vals IH]; intros st ch terms Hnd Hr Hin; cbn [foldlM].
  - by eexists.
  - apply NoDup_cons in Hnd as [Hnotin Hnd].
    destruct (filter_value_total s var value st ch terms)
      as (st' & ch' & terms' & Hf & Hkeep); [done|done|done| |].
    { apply Hin. constructor. }
    rewrite Hf. simpl. apply IH; [done| |].
    + apply (in_range_evolves s st); [done|].
      by apply filter_value_progress in Hf as [He _].
    + intros v Hv. apply Hkeep; [|apply Hin; by constructor].
      intros ->. done.
Qed.

Lemma process_var_total (s : state) (var : string) (st : store) (ch : bool) :
  completed s -> var ∈ variables s -> in_range s (assignments st) ->
  exists acc', process_var s (st, ch) var = Ok acc'.
Proof.
  intros Hcomp Hvar Hr. destruct (Hr var Hvar) as (c & Hc & Hin).
  unfold process_var. rewrite (dict_item_Some _ _ _ Hc). simpl.
  destruct (filter_values_total s var (elements c) st ch [])
    as ([[st1 ch1] terms] & Hf); [done|done|apply NoDup_elements|done| |].
  { intros v Hv%elem_of_elements. unfold assignments_get. by rewrite Hc. }
  rewrite Hf. simpl.
  destruct (extract_pivots_total (simplify (Or_new terms) (assignments st1)))
    as [P HP]; [apply simplify_well_formed|].
  rewrite HP. simpl. by eexists.
Qed.

Lemma process_vars_total (s : state) (vars : list string) (acc : store * bool) :
  completed s -> (forall var, var ∈ vars -> var ∈ variables s) ->
  in_range s (assignments acc.1) ->
  exists acc', foldlM (process_var s) acc vars = Ok acc'.
Proof.
  intros Hcomp. revert acc.
  induction vars as [|var vars IH]; intros [st ch] Hsub Hr; cbn [foldlM].
  - by eexists.
  - destruct (process_var_total s var st ch) as [[st1 ch1] Hp];
      [done | apply Hsub; constructor | done |].
    rewrite Hp. simpl. apply IH.
    + intros v Hv. apply Hsub. by constructor.
    + apply (in_range_evolves s st); [done|].
      by apply process_var_progress in Hp as [He _].
Qed.

Lemma pass_total (s : state) (st : store) :
  completed s -> in_range s (assignments st) ->
  exists st' ch, pass s st = Ok (st', ch).
Proof.
  intros Hcomp Hr.
  destruct (process_vars_total s (variables s) (st, false)) as [[st' ch] H];
    [done|done|done|]. by exists st', ch.
Qed.

(** The [while] loop stops before the bound is used up, when the bound
    exceeds the number of candidates left. *)
Lemma solve_loop_total (s : state) (fuel : nat) (st : store) :
  completed s -> in_range s (assignments st) ->
  weight (assignments st) < fuel ->
  exists st', solve_loop fuel s st = Ok st'.
Proof.
  intros Hcomp. revert st.
  induction fuel as [|fuel IH]; intros st Hr Hw; [lia|]. simpl.
  destruct (pass_total s st Hcomp Hr) as (st1 & ch & Hp). rewrite Hp. simpl.
  destruct ch; [|by eexists].
  apply pass_progress in Hp as [He Hlt]. simpl in *.
  apply IH; [by eapply in_range_evolves|].
  destruct Hlt as [?|Hlt]; [done|done|lia].
Qed.

(** The first steps of [solve], up to the entry of the [while] loop. *)
Lemma solve_store_unfold (s : state) :
  exists a0 ground_pivots,
    initial_assignments (_complete s) = Ok a0
    /\ in_range (_complete s) a0
    /\ extract_pivots (simplify (ground_truth s) a0) = Ok ground_pivots
    /\ solve_store s
       = solve_loop
           (S (weight (assignments
                         (foldl ground_step (fresh_store a0)
                                (map_to_list ground_pivots)))))
           (_complete s)
           (foldl ground_step (fresh_store a0) (map_to_list ground_pivots)).
Proof.
  destruct (initial_assignments_total (_complete s) (_complete_completed s))
    as (a0 & Ha0 & Hr).
  destruct (extract_pivots_total (simplify (ground_truth s) a0))
    as [P HP]; [apply simplify_well_formed|].
  exists a0, P. split; [done|]. split; [done|]. split; [done|].
  unfold solve_store. rewrite Ha0. simpl. rewrite HP. done.
Qed.

Theorem solve_store_total (s : state) : exists st, solve_store s = Ok st.
Proof.
  destruct (solve_store_unfold s) as (a0 & P & Ha0 & Hr & HP & ->).
  apply solve_loop_total; [apply _complete_completed| |lia].
  apply (in_range_evolves _ (fresh_store a0)); [done|].
  apply ground_narrowing_evolves.
Qed.

Lemma solve_store_evolves (s : state) (a0 : assignment) (st : store) :
  initial_assignments (_complete s) = Ok a0 -> solve_store s = Ok st ->
  evolves (fresh_store a0) st.
Proof.
  intros Ha0 Hst.
  destruct (solve_store_unfold s) as (a0' & P & Ha0' & _ & _ & Hs).
  rewrite Ha0 in Ha0'. injection Ha0' as <-. rewrite Hs in Hst.
  eapply evolves_trans; [apply ground_narrowing_evolves|].
  by eapply solve_loop_evolves.
Qed.

(** C4.  [solve] returns, and in the run every assignment that the working
    dictionary has held, from the initial one (the candidate sets at the
    start) through the narrowing by the ground truth and every step of the
    [while] loop to the returned one, gives each variable a subset of its
    initial candidate set, and a subset of what it had at any earlier
    point: candidates are lost, never gained. *)
Theorem monotonic_shrink (s : state) :
  exists (a0 : assignment) (st : store),
    initial_assignments (_complete s) = Ok a0
    /\ solve_store s = Ok st
    /\ last (history st) = Some a0
    /\ head (history st) = Some (assignments st)
    /\ (forall a, a ∈ history st ->
          forall var, assignments_get a var ⊆ assignments_get a0 var)
    /\ descending (history st).
Proof.
  destruct (solve_store_unfold s) as (a0 & _ & Ha0 & _).
  destruct (solve_store_total s) as [st Hst].
  exists a0, st. split; [done|]. split; [done|].
  destruct (solve_store_evolves s a0 st Ha0 Hst) as (Hc & [new Hh] & _).
  destruct (Hc (fresh_store_coherent a0)) as [Hhead Hdesc].
  simpl in Hh.
  assert (Hlast : last (history st) = Some a0).
  { rewrite Hh. by rewrite last_snoc. }
  split; [done|]. split; [done|]. split; [|done].
  intros a Ha. apply list_elem_of_lookup_1 in Ha as [i Hi].
  rewrite last_lookup in Hlast.
  apply (Hdesc i (pred (length (history st)))); [|done|done].
  apply lookup_lt_Some in Hi. lia.
Qed.

(** The history of a run: the initial assignment, then the assignment
    after [1] has been removed from the candidates of [x]. *)
Example filtering_solver_history :
  (s ← filtering_solver; st ← solve_store s; Ok (history st))
  = Ok [ {[ "x" := {[ "2" ]}; "y" := {[ "1"; "2" ]} ]};
         {[ "x" := {[ "1"; "2" ]}; "y" := {[ "1"; "2" ]} ]} ].
Proof. vm_compute. reflexivity. Qed.

(** ** A ground truth that reduces to [FALSE] *)

(** C5.  [FALSE] has no pivots.  Whenever the ground truth simplifies to
    [FALSE] against the initial assignment, the narrowing by the ground
    truth leaves the initial assignment as it is (the [while] loop starts
    from it) and [solve] returns an assignment: no exception comes out.
    And there is such a solver for which the returned candidate set of a
    variable is not empty. *)
Theorem FALSE_ground_truth_is_silent :
  extract_pivots FALSE = Ok ∅
  /\ (forall (s : state) (a0 : assignment),
         initial_assignments (_complete s) = Ok a0 ->
         simplify (ground_truth s) a0 = FALSE ->
         solve_store s = solve_loop (S (weight a0)) (_complete s) (fresh_store a0)
         /\ exists a, solve s = Ok a)
  /\ (exists (s : state) (a0 a : assignment),
         contradictory_solver = Ok s
         /\ initial_assignments (_complete s) = Ok a0
         /\ simplify (ground_truth s) a0 = FALSE
         /\ solve s = Ok a
         /\ a !! "x" = Some {[ "1"; "2" ]}).
Proof.
  split; [done|]. split.
  - intros s a0 Ha0 HF. split.
    + unfold solve_store. rewrite Ha0. simpl. rewrite HF. simpl.
      by rewrite map_to_list_empty.
    + destruct (solve_store_total s) as [st Hst]. exists (assignments st).
      unfold solve. by rewrite Hst.
  - eexists _, _, _. split; [reflexivity|]. split; [by vm_compute|].
    split; [by vm_compute|]. split; by vm_compute.
Qed.

Lemma FALSE_ground_truth_is_silent_witness :
  let s := {| variables := ["x"]; values := ["1"; "2"]; implications := [];
              ground_truth := EqNode "x" "3" |} in
  let a0 : assignment := {[ "x" := {[ "1"; "2" ]} ]} in
  initial_assignments (_complete s) = Ok a0
  /\ simplify (ground_truth s) a0 = FALSE
  /\ solve_store s = solve_loop (S (weight a0)) (_complete s) (fresh_store a0)
  /\ exists a, solve s = Ok a.
Proof.
  intros s a0.
  assert (H1 : initial_assignments (_complete s) = Ok a0) by (by vm_compute).
  assert (H2 : simplify (ground_truth s) a0 = FALSE) by (by vm_compute).
  split; [exact H1|]. split; [exact H2|].
  exact (proj1 (proj2 FALSE_ground_truth_is_silent) s a0 H1 H2).
Defined.

(** ** A conjunction that leaves a variable no candidate *)

Lemma Eq_new_node (x a : string) :
  x <> a ->
  exists l r, Eq_new x a = EqNode l r
              /\ ((l = x /\ r = a) \/ (l = a /\ r = x)).
Proof.
  intros Hne.
  destruct (Eq_new_cases x a) as [[? _]|[(_ & _ & ->)|(_ & _ & ->)]]; [done| |];
    eexists _, _; (split; [done|]); tauto.
Qed.

Lemma Eq_extract_pivots_lookup (l r : string) :
  l <> r ->
  Eq_extract_pivots l r !! l = Some {[r]} /\ Eq_extract_pivots l r !! r = Some {[l]}.
Proof.
  intros Hne. unfold Eq_extract_pivots. split.
  - rewrite lookup_insert_ne by done. by rewrite lookup_insert_eq.
  - by rewrite lookup_insert_eq.
Qed.

Lemma Eq_new_pivots (x a : string) :
  x <> a ->
  exists l r, Eq_new x a = EqNode l r
              /\ l <> r
              /\ Eq_extract_pivots l r !! x = Some {[a]}.
Proof.
  intros Hne. destruct (Eq_new_node x a Hne) as (l & r & HE & [[-> ->]|[-> ->]]);
    rewrite HE; eexists _, _; (split; [reflexivity|]).
  - split; [done|]. by apply Eq_extract_pivots_lookup.
  - split; [done|]. by apply Eq_extract_pivots_lookup.
Qed.

Lemma conflicting_conjunction_node (x a b : string) :
  x <> a -> x <> b -> a <> b ->
  And_new [Eq_new x a; Eq_new x b] = AndNode [Eq_new x a; Eq_new x b].
Proof.
  intros Hxa Hxb Hab.
  destruct (Eq_new_node x a Hxa) as (l1 & r1 & E1 & H1).
  destruct (Eq_new_node x b Hxb) as (l2 & r2 & E2 & H2).
  rewrite E1, E2. apply normal_set_kept; try done.
  unfold distinct. simpl. unfold term_in. simpl.
  rewrite orb_false_r, andb_true_r. apply negb_true_iff, andb_false_iff.
  destruct H1 as [[-> ->]|[-> ->]], H2 as [[-> ->]|[-> ->]].
  - right. by apply String.eqb_neq.
  - left. by apply String.eqb_neq.
  - left. by apply String.eqb_neq.
  - left. by apply String.eqb_neq.
Qed.

Lemma conflicting_conjunction_pivots (x a b : string) :
  x <> a -> x <> b -> a <> b ->
  exists P, extract_pivots (And_new [Eq_new x a; Eq_new x b]) = Ok P
            /\ P !! x = Some ∅.
Proof.
  intros Hxa Hxb Hab. rewrite conflicting_conjunction_node by done.
  destruct (Eq_new_pivots x a Hxa) as (l1 & r1 & E1 & _ & P1).
  destruct (Eq_new_pivots x b Hxb) as (l2 & r2 & E2 & _ & P2).
  rewrite E1, E2. simpl. eexists. split; [done|].
  unfold And_extract_pivots. simpl.
  rewrite !And_merge_lookup, P1, P2, lookup_empty. simpl. f_equal.
  apply set_eq. intros v. rewrite elem_of_intersection, !elem_of_singleton.
  split; [intros [-> ?]; done | intros H; by apply not_elem_of_empty in H].
Qed.

Lemma conflicting_conjunction_simplify (x a b : string) (a0 : assignment) :
  x <> a -> x <> b -> a <> b ->
  a ∈ assignments_get a0 x -> b ∈ assignments_get a0 x ->
  simplify (And_new [Eq_new x a; Eq_new x b]) a0 = And_new [Eq_new x a; Eq_new x b].
Proof.
  intros Hxa Hxb Hab Ha Hb. rewrite conflicting_conjunction_node by done.
  assert (Hs : forall v, x <> v -> v ∈ assignments_get a0 x ->
               simplify (Eq_new x v) a0 = Eq_new x v).
  { intros v Hv Hin. destruct (Eq_new_node x v Hv) as (l & r & -> & Hlr).
    apply Eq_simplify_unchanged. destruct Hlr as [[-> ->]|[-> ->]]; tauto. }
  simpl. rewrite (Hs a Hxa Ha), (Hs b Hxb Hb).
  by apply conflicting_conjunction_node.
Qed.

Lemma empty_candidates (a : assignment) (k : string) :
  k ∈ dom a -> assignments_get a k ⊆ ∅ -> a !! k = Some ∅.
Proof.
  intros [c Hc]%elem_of_dom Hsub. unfold assignments_get in Hsub.
  rewrite Hc in *. simpl in Hsub. f_equal. apply set_eq. intros v.
  split; [apply Hsub | intros H; by apply not_elem_of_empty in H].
Qed.

Lemma ground_narrowing_bound (items : list (string * gset string)) (st : store)
    (k : string) (V : gset string) :
  (k, V) ∈ items -> k ∈ dom (assignments st) ->
  assignments_get (assignments (foldl ground_step st items)) k ⊆ V.
Proof.
  revert st. induction items as [|it items IH]; intros st Hin Hk; simpl.
  - by apply elem_of_nil in Hin.
  - apply elem_of_cons in Hin as [<-|Hin].
    + destruct (ground_narrowing_evolves (ground_step st (k, V)) items)
        as (_ & _ & Hs & _).
      etransitivity; [apply Hs|].
      apply elem_of_dom in Hk as [c Hc]. unfold ground_step. rewrite Hc.
      unfold assignments_get. simpl. rewrite lookup_insert_eq. simpl.
      apply intersection_subseteq_r.
    + apply IH; [done|].
      destruct (ground_step_evolves st it) as (_ & _ & _ & Hd & _). by rewrite Hd.
Qed.

Lemma pivot_narrowing_bound (items : list (string * gset string))
    (acc : store * bool) (k : string) (V : gset string) :
  (k, V) ∈ items -> k ∈ dom (assignments acc.1) ->
  assignments_get (assignments (foldl pivot_step acc items).1) k ⊆ V.
Proof.
  revert acc. induction items as [|it items IH]; intros acc Hin Hk; simpl.
  - by apply elem_of_nil in Hin.
  - apply elem_of_cons in Hin as [<-|Hin].
    + assert (He : progress (pivot_step acc (k, V))
                            (foldl pivot_step (pivot_step acc (k, V)) items)).
      { apply foldl_preorder; [apply progress_refl | apply progress_trans |].
        intros x b _. apply pivot_step_progress. }
      destruct He as [(_ & _ & Hs & _) _].
      etransitivity; [apply Hs|].
      destruct acc as [st ch]. simpl in Hk.
      apply elem_of_dom in Hk as [c Hc]. unfold pivot_step. rewrite Hc.
      unfold assignments_get. simpl. rewrite lookup_insert_eq. simpl.
      apply intersection_subseteq_r.
    + apply IH; [done|].
      destruct (pivot_step_progress acc it) as [(_ & _ & _ & Hd & _) _].
      by rewrite Hd.
Qed.

(** C10.  For three different labels [x], [a], [b], the pivots of
    [And([Eq(x, a), Eq(x, b)])] map [x] to the empty set; intersecting
    these pivots into a working assignment that has the key [x], before the
    loop or inside it, leaves [x] the empty candidate set; and a solver
    with the variable [x] and that ground truth, where [a] and [b] are
    initial candidates of [x], returns an assignment (no exception) in
    which [x] has the empty candidate set. *)
Theorem conflicting_conjunction_empties (x a b : string) :
  x <> a -> x <> b -> a <> b ->
  (exists P,
      extract_pivots (And_new [Eq_new x a; Eq_new x b]) = Ok P
      /\ P !! x = Some ∅
      /\ (forall st, x ∈ dom (assignments st) ->
            assignments (foldl ground_step st (map_to_list P)) !! x = Some ∅)
      /\ (forall st ch, x ∈ dom (assignments st) ->
            assignments (foldl pivot_step (st, ch) (map_to_list P)).1 !! x = Some ∅))
  /\ (forall (s : state) (a0 : assignment),
         x ∈ variables s ->
         ground_truth s = And_new [Eq_new x a; Eq_new x b] ->
         initial_assignments (_complete s) = Ok a0 ->
         a ∈ assignments_get a0 x -> b ∈ assignments_get a0 x ->
         exists res, solve s = Ok res /\ res !! x = Some ∅).
Proof.
  intros Hxa Hxb Hab.
  destruct (conflicting_conjunction_pivots x a b Hxa Hxb Hab) as (P & HP & Hx).
  assert (Hitem : (x, ∅) ∈ map_to_list P) by (by apply elem_of_map_to_list).
  assert (Hground : forall st, x ∈ dom (assignments st) ->
            assignments (foldl ground_step st (map_to_list P)) !! x = Some ∅).
  { intros st Hk. apply empty_candidates.
    - destruct (ground_narrowing_evolves st (map_to_list P)) as (_ & _ & _ & Hd & _).
      by rewrite Hd.
    - by apply ground_narrowing_bound. }
  split.
  - exists P. split; [done|]. split; [done|]. split; [done|].
    intros st ch Hk. apply empty_candidates.
    + assert (He : progress (st, ch) (foldl pivot_step (st, ch) (map_to_list P))).
      { apply foldl_preorder; [apply progress_refl | apply progress_trans |].
        intros y c _. apply pivot_step_progress. }
      destruct He as [(_ & _ & _ & Hd & _) _]. by rewrite Hd.
    + by apply (pivot_narrowing_bound _ (st, ch)).
  - intros s a0 Hvar Hgt Ha0 Ha Hb.
    destruct (solve_store_unfold s) as (a0' & P' & Ha0' & Hr & HP' & Hs).
    rewrite Ha0 in Ha0'. injection Ha0' as <-.
    rewrite Hgt, (conflicting_conjunction_simplify x a b a0), HP in HP' by done.
    injection HP' as <-.
    destruct (solve_store_total s) as [st Hst].
    exists (assignments st). split; [unfold solve; by rewrite Hst|].
    rewrite Hs in Hst. apply solve_loop_evolves in Hst as (_ & _ & Hsh & Hd & _).
    assert (Hk : x ∈ dom (assignments (fresh_store a0))).
    { destruct (Hr x Hvar) as (c & Hc & _). by apply elem_of_dom_2 in Hc. }
    specialize (Hground _ Hk).
    apply empty_candidates.
    + rewrite Hd. by apply elem_of_dom_2 in Hground.
    + etransitivity; [apply Hsh|]. unfold assignments_get at 1.
      by rewrite Hground.
Qed.

Lemma conflicting_conjunction_empties_witness :
  exists s, conflicting_solver = Ok s
            /\ exists res, solve s = Ok res /\ res !! "x" = Some ∅.
Proof.
  exists {| variables := ["x"]; values := ["a"; "b"]; implications := [];
            ground_truth := AndNode [EqNode "x" "a"; EqNode "x" "b"] |}.
  split; [reflexivity|].
  apply (proj2 (conflicting_conjunction_empties "x" "a" "b"
                  ltac:(discriminate) ltac:(discriminate) ltac:(discriminate))
           _ {[ "x" := {[ "a"; "b" ]} ]}).
  - simpl. constructor.
  - reflexivity.
  - by vm_compute.
  - by vm_compute.
  - by vm_compute.
Defined.

(** * Further properties *)

(** ** Sets of terms without duplicates *)

Lemma term_in_app (x : BooleanTerm) (s1 s2 : list BooleanTerm) :
  term_in x (s1 ++ s2) = term_in x s1 || term_in x s2.
Proof. unfold term_in. apply existsb_app. Qed.

Lemma distinct_from_spec (l seen : list BooleanTerm) :
  distinct_from seen l = true <->
  (forall x, In x l -> term_in x seen = false) /\ distinct l = true.
Proof.
  unfold distinct. revert seen. induction l as [|x l IH]; intros seen; simpl.
  - split; [by split | done].
  - rewrite andb_true_iff, negb_true_iff, (IH (seen ++ [x])), (IH [x]).
    split.
    + intros (Hx & Hl & Hd). split; [|split; [|done]].
      * intros y [<-|Hy]; [done|].
        specialize (Hl y Hy). rewrite term_in_app in Hl.
        by apply orb_false_iff in Hl as [? _].
      * intros y Hy. specialize (Hl y Hy). rewrite term_in_app in Hl.
        by apply orb_false_iff in Hl as [_ ?].
    + intros (Hs & Hl & Hd). split; [by apply Hs; left|]. split; [|done].
      intros y Hy. rewrite term_in_app. apply orb_false_iff.
      split; [apply Hs; by right | by apply Hl].
Qed.

Lemma distinct_cons (x : BooleanTerm) (l : list BooleanTerm) :
  distinct (x :: l) = true <->
  (forall y, In y l -> term_eqb y x = false) /\ distinct l = true.
Proof.
  unfold distinct at 1. simpl. rewrite (distinct_from_spec l [x]).
  split; intros [H Hd]; (split; [|done]); intros y Hy; specialize (H y Hy);
    unfold term_in in *; simpl in *.
  - by apply orb_false_iff in H as [? _].
  - by rewrite H.
Qed.

Lemma distinct_snoc (l : list BooleanTerm) (x : BooleanTerm) :
  distinct l = true -> term_in x l = false -> distinct (l ++ [x]) = true.
Proof.
  induction l as [|y l IH]; intros Hd Hx; [done|].
  simpl. apply distinct_cons in Hd as [Hy Hd]. apply distinct_cons.
  unfold term_in in Hx. simpl in Hx. apply orb_false_iff in Hx as [Hxy Hx].
  split; [|by apply IH].
  intros z [Hz|Hz]%in_app_or; [by apply Hy|].
  destruct Hz as [<-|[]]. done.
Qed.

Lemma set_add_all_is_distinct (l seen : list BooleanTerm) :
  distinct seen = true -> distinct (set_add_all seen l) = true.
Proof.
  revert seen. induction l as [|x l IH]; intros seen Hd; simpl; [done|].
  apply IH. destruct (term_in x seen) eqn:E; [done|]. by apply distinct_snoc.
Qed.

Lemma frozenset_is_distinct (l : list BooleanTerm) : distinct (frozenset l) = true.
Proof. by apply set_add_all_is_distinct. Qed.

Lemma distinct_filter (f : BooleanTerm -> bool) (l : list BooleanTerm) :
  distinct l = true -> distinct (List.filter f l) = true.
Proof.
  induction l as [|x l IH]; [done|]. intros [Hx Hd]%distinct_cons. simpl.
  destruct (f x); [|by apply IH].
  apply distinct_cons. split; [|by apply IH].
  intros y [Hy _]%filter_In. by apply Hx.
Qed.

Lemma set_add_all_seen (l seen : list BooleanTerm) (x : BooleanTerm) :
  In x seen -> In x (set_add_all seen l).
Proof.
  revert seen. induction l as [|y l IH]; intros seen Hx; simpl; [done|].
  apply IH. destruct (term_in y seen); [done|]. apply in_or_app. by left.
Qed.

Lemma set_add_all_subset (l seen : list BooleanTerm) (x : BooleanTerm) :
  In x (set_add_all seen l) -> In x seen \/ In x l.
Proof.
  revert seen. induction l as [|y l IH]; intros seen Hx; simpl in *; [by left|].
  apply IH in Hx as [Hx|Hx]; [|right; by right].
  destruct (term_in y seen); [by left|].
  apply in_app_or in Hx as [Hx|[<-|[]]]; [by left|]. right. by left.
Qed.


(** ** [__eq__] is reflexive *)

Lemma term_eqb_refl (t : BooleanTerm) : term_eqb t t = true.
Proof.
  induction t as [| |l r|exprs IH|exprs IH] using BooleanTerm_induction;
    simpl; [done|done| | |].
  - by rewrite !String.eqb_refl.
  - rewrite Nat.eqb_refl. simpl. apply forallb_forall. intros x Hx.
    apply existsb_exists. exists x. split; [done|].
    rewrite Forall_forall in IH. by apply IH, list_elem_of_In.
  - rewrite Nat.eqb_refl. simpl. apply forallb_forall. intros x Hx.
    apply existsb_exists. exists x. split; [done|].
    rewrite Forall_forall in IH. by apply IH, list_elem_of_In.
Qed.


Lemma term_eqb_TRUE_l (t : BooleanTerm) : term_eqb TRUE t = is_TRUE t.
Proof. by destruct t. Qed.

Lemma term_eqb_FALSE_l (t : BooleanTerm) : term_eqb FALSE t = is_FALSE t.
Proof. by destruct t. Qed.

Lemma term_eqb_TRUE_r (t : BooleanTerm) : term_eqb t TRUE = is_TRUE t.
Proof. by destruct t. Qed.

Lemma term_eqb_FALSE_r (t : BooleanTerm) : term_eqb t FALSE = is_FALSE t.
Proof. by destruct t. Qed.

Lemma is_TRUE_In (l : list BooleanTerm) : existsb is_TRUE l = true <-> In TRUE l.
Proof.
  rewrite existsb_exists. split.
  - intros (x & Hx & Ht). by destruct x.
  - intros H. by exists TRUE.
Qed.

Lemma is_FALSE_In (l : list BooleanTerm) : existsb is_FALSE l = true <-> In FALSE l.
Proof.
  rewrite existsb_exists. split.
  - intros (x & Hx & Ht). by destruct x.
  - intros H. by exists FALSE.
Qed.

Lemma set_add_all_keeps (l seen : list BooleanTerm) (x : BooleanTerm) :
  In x l -> (forall y, term_eqb x y = true -> y = x) ->
  In x (set_add_all seen l).
Proof.
  intros Hx Hxy. revert seen. induction l as [|y l IH]; intros seen; simpl; [done|].
  destruct Hx as [->|Hx]; [|by apply IH].
  apply set_add_all_seen. destruct (term_in x seen) eqn:E.
  - apply existsb_exists in E as (z & Hz & Heq). by rewrite <- (Hxy z Heq).
  - apply in_or_app. right. by left.
Qed.

(** ** The constructors return canonical terms *)

Lemma canonical_And (exprs : list BooleanTerm) :
  canonical (AndNode exprs) = true <->
  2 <= length exprs /\ distinct exprs = true
  /\ Forall (fun e => is_And e = false /\ is_TRUE e = false /\ is_FALSE e = false
                      /\ canonical e = true) exprs.
Proof.
  cbn [canonical].
  rewrite !andb_true_iff, Nat.leb_le, forallb_forall, Forall_forall.
  split.
  - intros [[Hlen Hd] H]. split; [done|]. split; [done|]. intros e He.
    apply list_elem_of_In, H in He.
    apply andb_true_iff in He as [[Hk Hc]%andb_true_iff Hw].
    apply negb_true_iff in Hk. apply negb_true_iff, orb_false_iff in Hc as [? ?].
    done.
  - intros (Hlen & Hd & H). split; [done|]. intros e He.
    apply list_elem_of_In, H in He as (-> & -> & -> & ->). done.
Qed.

Lemma canonical_Or (exprs : list BooleanTerm) :
  canonical (OrNode exprs) = true <->
  2 <= length exprs /\ distinct exprs = true
  /\ Forall (fun e => is_Or e = false /\ is_TRUE e = false /\ is_FALSE e = false
                      /\ canonical e = true) exprs.
Proof.
  cbn [canonical].
  rewrite !andb_true_iff, Nat.leb_le, forallb_forall, Forall_forall.
  split.
  - intros [[Hlen Hd] H]. split; [done|]. split; [done|]. intros e He.
    apply list_elem_of_In, H in He.
    apply andb_true_iff in He as [[Hk Hc]%andb_true_iff Hw].
    apply negb_true_iff in Hk. apply negb_true_iff, orb_false_iff in Hc as [? ?].
    done.
  - intros (Hlen & Hd & H). split; [done|]. intros e He.
    apply list_elem_of_In, H in He as (-> & -> & -> & ->). done.
Qed.

Lemma And_flatten_canonical (exprs : list BooleanTerm) :
  Forall (fun e => canonical e = true) exprs ->
  Forall (fun e => is_And e = false /\ canonical e = true) (And_flatten exprs).
Proof.
  induction 1 as [|e l He Hl IH]; simpl; [constructor|].
  apply Forall_app; split; [|exact IH].
  destruct e; try (by repeat constructor).
  apply canonical_And in He as (_ & _ & He).
  eapply Forall_impl; [exact He|]. simpl. tauto.
Qed.

Lemma Or_flatten_canonical (exprs : list BooleanTerm) :
  Forall (fun e => canonical e = true) exprs ->
  Forall (fun e => is_Or e = false /\ canonical e = true) (Or_flatten exprs).
Proof.
  induction 1 as [|e l He Hl IH]; simpl; [constructor|].
  apply Forall_app; split; [|exact IH].
  destruct e; try (by repeat constructor).
  apply canonical_Or in He as (_ & _ & He).
  eapply Forall_impl; [exact He|]. simpl. tauto.
Qed.

Lemma filter_all (f : BooleanTerm -> bool) (l : list BooleanTerm) :
  Forall (fun e => f e = true) (List.filter f l).
Proof.
  apply Forall_forall. intros e He. by apply list_elem_of_In, filter_In in He as [_ ?].
Qed.

Lemma existsb_false_Forall (f : BooleanTerm -> bool) (l : list BooleanTerm) :
  existsb f l = false -> Forall (fun e => f e = false) l.
Proof.
  induction l as [|x l IH]; simpl; [constructor|].
  intros [Hx Hl]%orb_false_iff. constructor; [done | by apply IH].
Qed.

Lemma And_new_canonical (exprs : list BooleanTerm) :
  Forall (fun e => canonical e = true) exprs -> canonical (And_new exprs) = true.
Proof.
  intros H. unfold And_new.
  pose proof (filter_Forall_bool (fun e => negb (is_TRUE e)) _ _
                (frozenset_Forall _ _ (And_flatten_canonical _ H))) as HF.
  pose proof (distinct_filter (fun e => negb (is_TRUE e)) _
                (frozenset_is_distinct (And_flatten exprs))) as HD.
  pose proof (filter_all (fun e => negb (is_TRUE e))
                (frozenset (And_flatten exprs))) as HT.
  destruct (existsb is_FALSE _) eqn:EF; [done|].
  apply existsb_false_Forall in EF.
  destruct (List.filter _ _) as [|x [|y l]] eqn:E; [done| |].
  - by inversion HF as [|? ? [_ Hx] _].
  - apply canonical_And. split; [simpl; lia|]. split; [done|].
    rewrite Forall_forall in *. intros e He.
    destruct (HF e He) as [? ?]. specialize (HT e He). specialize (EF e He).
    simpl in HT. apply negb_true_iff in HT. done.
Qed.

Lemma Or_new_canonical (exprs : list BooleanTerm) :
  Forall (fun e => canonical e = true) exprs -> canonical (Or_new exprs) = true.
Proof.
  intros H. unfold Or_new.
  pose proof (filter_Forall_bool (fun e => negb (is_FALSE e)) _ _
                (frozenset_Forall _ _ (Or_flatten_canonical _ H))) as HF.
  pose proof (distinct_filter (fun e => negb (is_FALSE e)) _
                (frozenset_is_distinct (Or_flatten exprs))) as HD.
  pose proof (filter_all (fun e => negb (is_FALSE e))
                (frozenset (Or_flatten exprs))) as HT.
  destruct (existsb is_TRUE _) eqn:EF; [done|].
  apply existsb_false_Forall in EF.
  destruct (List.filter _ _) as [|x [|y l]] eqn:E; [done| |].
  - by inversion HF as [|? ? [_ Hx] _].
  - apply canonical_Or. split; [simpl; lia|]. split; [done|].
    rewrite Forall_forall in *. intros e He.
    destruct (HF e He) as [? ?]. specialize (HT e He). specialize (EF e He).
    simpl in HT. apply negb_true_iff in HT. done.
Qed.

Lemma Eq_new_canonical (a b : string) : canonical (Eq_new a b) = true.
Proof.
  by destruct (Eq_new_cases a b) as [[_ ->]|[(_ & ? & ->)|(_ & ? & ->)]].
Qed.

Lemma canonical_is_well_formed (t : BooleanTerm) :
  canonical t = true -> well_formed t = true.
Proof.
  induction t as [| |l r|exprs IH|exprs IH] using BooleanTerm_induction;
    [done|done|done| |]; intros Hc.
  - apply canonical_And in Hc as (Hlen & _ & Hc). apply well_formed_And.
    split; [done|]. rewrite Forall_forall in *. intros e He.
    destruct (Hc e He) as (? & _ & _ & ?). split; [done|]. by apply IH.
  - apply canonical_Or in Hc as (Hlen & _ & Hc). apply well_formed_Or.
    split; [done|]. rewrite Forall_forall in *. intros e He.
    destruct (Hc e He) as (? & _ & _ & ?). split; [done|]. by apply IH.
Qed.

(** ** Constants and repeated members in [And] and [Or] *)

Lemma And_new_FALSE_member (exprs : list BooleanTerm) :
  In FALSE exprs -> And_new exprs = FALSE.
Proof.
  intros H. unfold And_new.
  assert (HF : In FALSE (List.filter (fun e => negb (is_TRUE e))
                           (frozenset (And_flatten exprs)))).
  { apply filter_In. split; [|done]. apply set_add_all_keeps.
    - apply in_flat_map. exists FALSE. split; [done | by left].
    - intros y Hy. rewrite term_eqb_FALSE_l in Hy. by destruct y. }
  apply is_FALSE_In in HF. by rewrite HF.
Qed.

Lemma Or_new_TRUE_member (exprs : list BooleanTerm) :
  In TRUE exprs -> Or_new exprs = TRUE.
Proof.
  intros H. unfold Or_new.
  assert (HF : In TRUE (List.filter (fun e => negb (is_FALSE e))
                          (frozenset (Or_flatten exprs)))).
  { apply filter_In. split; [|done]. apply set_add_all_keeps.
    - apply in_flat_map. exists TRUE. split; [done | by left].
    - intros y Hy. rewrite term_eqb_TRUE_l in Hy. by destruct y. }
  apply is_TRUE_In in HF. by rewrite HF.
Qed.

(** Dropping the members equal to a constant [k] before the set is built or
    after it gives the same list. *)
Lemma filter_set_add_all (k : BooleanTerm) (l seen : list BooleanTerm) :
  (forall x, term_eqb x k = term_eqb k x) ->
  (forall x y, term_eqb k x = false -> term_eqb k y = true -> term_eqb x y = false) ->
  List.filter (fun e => negb (term_eqb k e)) (set_add_all seen l)
  = set_add_all (List.filter (fun e => negb (term_eqb k e)) seen)
                (List.filter (fun e => negb (term_eqb k e)) l).
Proof.
  intros Hsym Hsep. revert seen. induction l as [|x l IH]; intros seen; simpl; [done|].
  rewrite IH. destruct (term_eqb k x) eqn:Ek; simpl.
  - f_equal. destruct (term_in x seen); [done|].
    rewrite List.filter_app. simpl. rewrite Ek. simpl. apply app_nil_r.
  - assert (Hin : term_in x (List.filter (fun e => negb (term_eqb k e)) seen)
                  = term_in x seen).
    { unfold term_in. clear IH. induction seen as [|y seen IHs]; simpl; [done|].
      destruct (term_eqb k y) eqn:Ey; simpl; rewrite IHs; [|done].
      by rewrite (Hsep x y Ek Ey). }
    rewrite Hin. f_equal. destruct (term_in x seen); [done|].
    rewrite List.filter_app. simpl. by rewrite Ek.
Qed.

Lemma filter_not_TRUE_set (l : list BooleanTerm) :
  List.filter (fun e => negb (is_TRUE e)) (frozenset l)
  = frozenset (List.filter (fun e => negb (is_TRUE e)) l).
Proof.
  unfold frozenset.
  change (fun e => negb (is_TRUE e)) with (fun e => negb (term_eqb TRUE e)).
  apply (filter_set_add_all TRUE l []).
  - intros x. by rewrite term_eqb_TRUE_l, term_eqb_TRUE_r.
  - intros x y Hx Hy. rewrite term_eqb_TRUE_l in Hx, Hy.
    destruct y; try done. rewrite term_eqb_TRUE_r. done.
Qed.

Lemma filter_not_FALSE_set (l : list BooleanTerm) :
  List.filter (fun e => negb (is_FALSE e)) (frozenset l)
  = frozenset (List.filter (fun e => negb (is_FALSE e)) l).
Proof.
  unfold frozenset.
  change (fun e => negb (is_FALSE e)) with (fun e => negb (term_eqb FALSE e)).
  apply (filter_set_add_all FALSE l []).
  - intros x. by rewrite term_eqb_FALSE_l, term_eqb_FALSE_r.
  - intros x y Hx Hy. rewrite term_eqb_FALSE_l in Hx, Hy.
    destruct y; try done. rewrite term_eqb_FALSE_r. done.
Qed.

Lemma filter_flat_map_drop (f g : BooleanTerm -> bool)
    (h : BooleanTerm -> list BooleanTerm) (l : list BooleanTerm) :
  (forall x, g x = false -> List.filter f (h x) = []) ->
  List.filter f (flat_map h (List.filter g l)) = List.filter f (flat_map h l).
Proof.
  intros Hdrop. induction l as [|x l IH]; simpl; [done|].
  rewrite List.filter_app, <- IH. destruct (g x) eqn:E; simpl.
  - by rewrite List.filter_app.
  - by rewrite (Hdrop x E).
Qed.

Lemma And_new_drop_TRUE (exprs : list BooleanTerm) :
  And_new (List.filter (fun e => negb (is_TRUE e)) exprs) = And_new exprs.
Proof.
  unfold And_new. rewrite !filter_not_TRUE_set. unfold And_flatten.
  rewrite filter_flat_map_drop; [done|].
  intros x Hx. apply negb_false_iff in Hx. by destruct x.
Qed.

Lemma Or_new_drop_FALSE (exprs : list BooleanTerm) :
  Or_new (List.filter (fun e => negb (is_FALSE e)) exprs) = Or_new exprs.
Proof.
  unfold Or_new. rewrite !filter_not_FALSE_set. unfold Or_flatten.
  rewrite filter_flat_map_drop; [done|].
  intros x Hx. apply negb_false_iff in Hx. by destruct x.
Qed.

Lemma forallb_Forall_false (f : BooleanTerm -> bool) (l : list BooleanTerm) :
  Forall (fun e => f e = false) l -> existsb f l = false.
Proof. induction 1 as [|x l Hx _ IH]; simpl; [done|]. by rewrite Hx, IH. Qed.

Lemma And_new_singleton (x : BooleanTerm) : canonical x = true -> And_new [x] = x.
Proof.
  intros Hc. destruct x as [| |l r|cs|cs]; try reflexivity.
  apply canonical_And in Hc as (Hlen & Hd & Hc).
  unfold And_new. simpl. rewrite app_nil_r, (frozenset_distinct _ Hd).
  rewrite forallb_filter_id.
  - rewrite forallb_Forall_false.
    + destruct cs as [|a [|b cs]]; simpl in Hlen; [lia|lia|done].
    + eapply Forall_impl; [exact Hc|]. simpl. tauto.
  - apply forallb_forall. intros e He. rewrite Forall_forall in Hc.
    apply list_elem_of_In, Hc in He as (_ & -> & _). done.
Qed.

Lemma Or_new_singleton (x : BooleanTerm) : canonical x = true -> Or_new [x] = x.
Proof.
  intros Hc. destruct x as [| |l r|cs|cs]; try reflexivity.
  apply canonical_Or in Hc as (Hlen & Hd & Hc).
  unfold Or_new. simpl. rewrite app_nil_r, (frozenset_distinct _ Hd).
  rewrite forallb_filter_id.
  - rewrite forallb_Forall_false.
    + destruct cs as [|a [|b cs]]; simpl in Hlen; [lia|lia|done].
    + eapply Forall_impl; [exact Hc|]. simpl. tauto.
  - apply forallb_forall. intros e He. rewrite Forall_forall in Hc.
    apply list_elem_of_In, Hc in He as (_ & _ & -> & _). done.
Qed.







(** ** [__eq__] on canonical terms *)

Lemma members_found (xs ys : list BooleanTerm) :
  forallb (fun x => existsb (fun y => term_eqb x y) ys) xs = true <->
  forall x, In x xs -> exists y, In y ys /\ term_eqb x y = true.
Proof.
  rewrite forallb_forall. split; intros H x Hx; specialize (H x Hx).
  - by apply existsb_exists in H.
  - by apply existsb_exists.
Qed.

Lemma term_eqb_And (xs ys : list BooleanTerm) :
  term_eqb (AndNode xs) (AndNode ys) = true <->
  length xs = length ys
  /\ forall x, In x xs -> exists y, In y ys /\ term_eqb x y = true.
Proof. cbn [term_eqb]. by rewrite andb_true_iff, Nat.eqb_eq, members_found. Qed.

Lemma term_eqb_Or (xs ys : list BooleanTerm) :
  term_eqb (OrNode xs) (OrNode ys) = true <->
  length xs = length ys
  /\ forall x, In x xs -> exists y, In y ys /\ term_eqb x y = true.
Proof. cbn [term_eqb]. by rewrite andb_true_iff, Nat.eqb_eq, members_found. Qed.

Lemma term_eqb_trans (a b c : BooleanTerm) :
  term_eqb a b = true -> term_eqb b c = true -> term_eqb a c = true.
Proof.
  revert b c.
  induction a as [| |l r|xs IH|xs IH] using BooleanTerm_induction; intros b c.
  - destruct b; try done.
  - destruct b; try done.
  - destruct b as [| |l' r'| |]; try done. destruct c as [| |l'' r''| |]; try done.
    simpl. intros [H1 H2]%andb_true_iff [H3 H4]%andb_true_iff.
    apply String.eqb_eq in H1, H2, H3, H4. subst. by rewrite !String.eqb_refl.
  - destruct b as [| | |ys|]; try done. destruct c as [| | |zs|]; try done.
    rewrite !term_eqb_And. intros [Hl1 H1] [Hl2 H2]. split; [congruence|].
    intros x Hx. destruct (H1 x Hx) as (y & Hy & Hxy).
    destruct (H2 y Hy) as (z & Hz & Hyz). exists z. split; [done|].
    rewrite Forall_forall in IH. eapply IH; [by apply list_elem_of_In | done | done].
  - destruct b as [| | | |ys]; try done. destruct c as [| | | |zs]; try done.
    rewrite !term_eqb_Or. intros [Hl1 H1] [Hl2 H2]. split; [congruence|].
    intros x Hx. destruct (H1 x Hx) as (y & Hy & Hxy).
    destruct (H2 y Hy) as (z & Hz & Hyz). exists z. split; [done|].
    rewrite Forall_forall in IH. eapply IH; [by apply list_elem_of_In | done | done].
Qed.

(** As many different members on the left as there are members on the
    right, each found on the right: every member on the right is found. *)
Lemma members_found_back (xs ys : list BooleanTerm) :
  distinct xs = true -> length xs = length ys ->
  (forall x, In x xs -> exists y, In y ys /\ term_eqb x y = true) ->
  (forall x x' y, In x xs -> In x' xs -> In y ys ->
     term_eqb x y = true -> term_eqb x' y = true -> term_eqb x' x = true) ->
  forall y, In y ys -> exists x, In x xs /\ term_eqb x y = true.
Proof.
  revert ys. induction xs as [|x xs IH]; intros ys Hd Hlen Hsub Hcol y Hy.
  - destruct ys; [done | simpl in Hlen; lia].
  - apply distinct_cons in Hd as [Hx Hd].
    destruct (Hsub x) as (y0 & Hy0 & Hxy0); [by left|].
    apply in_split in Hy0 as (ys1 & ys2 & ->).
    assert (Hrest : forall y, In y (ys1 ++ ys2) ->
                    exists x', In x' xs /\ term_eqb x' y = true).
    { apply IH; [done| | |].
      - rewrite length_app in *. simpl in Hlen. lia.
      - intros x' Hx'. destruct (Hsub x') as (y' & Hy' & Hxy'); [by right|].
        exists y'. split; [|done].
        apply in_app_or in Hy' as [Hy'|[<-|Hy']]; apply in_or_app;
          [by left| |by right].
        exfalso. specialize (Hx x' Hx').
        assert (term_eqb x' x = true); [|congruence].
        apply (Hcol x x' y0); [by left | by right | | done | done].
        apply in_or_app. right. by left.
      - intros x1 x2 y' H1 H2 Hy'. apply Hcol; [by right | by right |].
        apply in_app_or in Hy' as [?|?]; apply in_or_app; [by left | right; by right]. }
    apply in_app_or in Hy as [Hy|[<-|Hy]].
    + destruct (Hrest y) as (x' & Hx' & Hxy); [apply in_or_app; by left|].
      exists x'. split; [by right | done].
    + exists x. split; [by left | done].
    + destruct (Hrest y) as (x' & Hx' & Hxy); [apply in_or_app; by right|].
      exists x'. split; [by right | done].
Qed.

Lemma term_eqb_sym (a b : BooleanTerm) :
  canonical a = true -> canonical b = true ->
  term_eqb a b = true -> term_eqb b a = true.
Proof.
  revert b.
  induction a as [| |l r|xs IH|xs IH] using BooleanTerm_induction; intros b Ha Hb.
  - destruct b; try done.
  - destruct b; try done.
  - destruct b as [| |l' r'| |]; try done. simpl.
    intros [H1 H2]%andb_true_iff. apply String.eqb_eq in H1, H2. subst.
    by rewrite !String.eqb_refl.
  - destruct b as [| | |ys|]; try done. rewrite !term_eqb_And. intros [Hlen Hsub].
    apply canonical_And in Ha as (_ & Hd & Hxs).
    apply canonical_And in Hb as (_ & _ & Hys).
    rewrite Forall_forall in IH, Hxs, Hys. split; [done|].
    assert (Hsym : forall x y, In x xs -> In y ys ->
                   term_eqb x y = true -> term_eqb y x = true).
    { intros x y Hx Hy. apply list_elem_of_In in Hx, Hy.
      apply (IH x Hx); [by apply Hxs | by apply Hys]. }
    intros y Hy.
    destruct (members_found_back xs ys Hd Hlen Hsub) with (y := y)
      as (x & Hx & Hxy); [|done|].
    { intros x x' y' Hx Hx' Hy' H1 H2.
      apply (term_eqb_trans x' y' x); [done | by apply Hsym]. }
    exists x. split; [done | by apply Hsym].
  - destruct b as [| | | |ys]; try done. rewrite !term_eqb_Or. intros [Hlen Hsub].
    apply canonical_Or in Ha as (_ & Hd & Hxs).
    apply canonical_Or in Hb as (_ & _ & Hys).
    rewrite Forall_forall in IH, Hxs, Hys. split; [done|].
    assert (Hsym : forall x y, In x xs -> In y ys ->
                   term_eqb x y = true -> term_eqb y x = true).
    { intros x y Hx Hy. apply list_elem_of_In in Hx, Hy.
      apply (IH x Hx); [by apply Hxs | by apply Hys]. }
    intros y Hy.
    destruct (members_found_back xs ys Hd Hlen Hsub) with (y := y)
      as (x & Hx & Hxy); [|done|].
    { intros x x' y' Hx Hx' Hy' H1 H2.
      apply (term_eqb_trans x' y' x); [done | by apply Hsym]. }
    exists x. split; [done | by apply Hsym].
Qed.

Lemma forallb_iff {A : Type} (f g : A -> bool) (xs ys : list A) :
  (forall x, In x xs -> exists y, In y ys /\ f x = g y) ->
  (forall y, In y ys -> exists x, In x xs /\ f x = g y) ->
  forallb f xs = forallb g ys.
Proof.
  intros H1 H2. apply eq_true_iff_eq. rewrite !forallb_forall. split.
  - intros H y Hy. destruct (H2 y Hy) as (x & Hx & <-). by apply H.
  - intros H x Hx. destruct (H1 x Hx) as (y & Hy & ->). by apply H.
Qed.

Lemma existsb_iff {A : Type} (f g : A -> bool) (xs ys : list A) :
  (forall x, In x xs -> exists y, In y ys /\ f x = g y) ->
  (forall y, In y ys -> exists x, In x xs /\ f x = g y) ->
  existsb f xs = existsb g ys.
Proof.
  intros H1 H2. apply eq_true_iff_eq. rewrite !existsb_exists. split.
  - intros (x & Hx & Hf). destruct (H1 x Hx) as (y & Hy & E).
    exists y. split; [done | congruence].
  - intros (y & Hy & Hg). destruct (H2 y Hy) as (x & Hx & E).
    exists x. split; [done | congruence].
Qed.

Lemma term_eqb_eval (rho : string -> string) (a b : BooleanTerm) :
  canonical a = true -> canonical b = true ->
  term_eqb a b = true -> eval rho a = eval rho b.
Proof.
  revert b.
  induction a as [| |l r|xs IH|xs IH] using BooleanTerm_induction; intros b Ha Hb.
  - destruct b; try done.
  - destruct b; try done.
  - destruct b as [| |l' r'| |]; try done. simpl.
    intros [H1 H2]%andb_true_iff. apply String.eqb_eq in H1, H2. by subst.
  - destruct b as [| | |ys|]; try done. intros Heq.
    pose proof (term_eqb_sym _ _ Ha Hb Heq) as Hqe.
    apply term_eqb_And in Heq as [_ Hsub]. apply term_eqb_And in Hqe as [_ Hbus].
    apply canonical_And in Ha as (_ & _ & Hxs).
    apply canonical_And in Hb as (_ & _ & Hys).
    rewrite Forall_forall in IH, Hxs, Hys. simpl. apply forallb_iff.
    + intros x Hx. destruct (Hsub x Hx) as (y & Hy & Hxy). exists y. split; [done|].
      apply list_elem_of_In in Hx, Hy. apply (IH x Hx); [by apply Hxs|by apply Hys|done].
    + intros y Hy. destruct (Hbus y Hy) as (x & Hx & Hyx). exists x. split; [done|].
      apply list_elem_of_In in Hx, Hy.
      apply (IH x Hx); [by apply Hxs|by apply Hys|].
      apply term_eqb_sym; [by apply Hys | by apply Hxs | done].
  - destruct b as [| | | |ys]; try done. intros Heq.
    pose proof (term_eqb_sym _ _ Ha Hb Heq) as Hqe.
    apply term_eqb_Or in Heq as [_ Hsub]. apply term_eqb_Or in Hqe as [_ Hbus].
    apply canonical_Or in Ha as (_ & _ & Hxs).
    apply canonical_Or in Hb as (_ & _ & Hys).
    rewrite Forall_forall in IH, Hxs, Hys. simpl. apply existsb_iff.
    + intros x Hx. destruct (Hsub x Hx) as (y & Hy & Hxy). exists y. split; [done|].
      apply list_elem_of_In in Hx, Hy. apply (IH x Hx); [by apply Hxs|by apply Hys|done].
    + intros y Hy. destruct (Hbus y Hy) as (x & Hx & Hyx). exists x. split; [done|].
      apply list_elem_of_In in Hx, Hy.
      apply (IH x Hx); [by apply Hxs|by apply Hys|].
      apply term_eqb_sym; [by apply Hys | by apply Hxs | done].
Qed.

(** ** The meaning of the constructors *)

Lemma eval_Eq_new (rho : string -> string) (a b : string) :
  eval rho (Eq_new a b) = String.eqb (rho a) (rho b).
Proof.
  destruct (Eq_new_cases a b) as [[-> ->]|[(_ & _ & ->)|(_ & _ & ->)]]; simpl.
  - by rewrite String.eqb_refl.
  - done.
  - apply String.eqb_sym.
Qed.

Lemma eval_And_flatten (rho : string -> string) (exprs : list BooleanTerm) :
  forallb (eval rho) (And_flatten exprs) = forallb (eval rho) exprs.
Proof.
  induction exprs as [|e l IH]; simpl; [done|].
  rewrite forallb_app, IH. f_equal. destruct e; simpl; by rewrite ?andb_true_r.
Qed.

Lemma eval_Or_flatten (rho : string -> string) (exprs : list BooleanTerm) :
  existsb (eval rho) (Or_flatten exprs) = existsb (eval rho) exprs.
Proof.
  induction exprs as [|e l IH]; simpl; [done|].
  rewrite existsb_app, IH. f_equal. destruct e; simpl; by rewrite ?orb_false_r.
Qed.

Lemma term_in_eval (rho : string -> string) (x : BooleanTerm) (seen : list BooleanTerm) :
  canonical x = true -> Forall (fun e => canonical e = true) seen ->
  term_in x seen = true -> exists y, In y seen /\ eval rho y = eval rho x.
Proof.
  intros Hx Hs (y & Hy & Heq)%existsb_exists. exists y. split; [done|].
  symmetry. apply term_eqb_eval; [done| |done].
  rewrite Forall_forall in Hs. by apply Hs, list_elem_of_In.
Qed.

Lemma forallb_set_add_all (rho : string -> string) (l seen : list BooleanTerm) :
  Forall (fun e => canonical e = true) seen ->
  Forall (fun e => canonical e = true) l ->
  forallb (eval rho) (set_add_all seen l)
  = forallb (eval rho) seen && forallb (eval rho) l.
Proof.
  revert seen. induction l as [|x l IH]; intros seen Hs Hl; simpl.
  - by rewrite andb_true_r.
  - inversion Hl as [|? ? Hx Hl']; subst.
    destruct (term_in x seen) eqn:E.
    + rewrite (IH seen Hs Hl').
      destruct (term_in_eval rho x seen Hx Hs E) as (y & Hy & Hxy).
      destruct (forallb (eval rho) seen) eqn:Ef; [|done]. simpl.
      rewrite forallb_forall in Ef. rewrite <- Hxy, (Ef y Hy). done.
    + rewrite IH; [|by apply Forall_app; split; [|constructor]|done].
      rewrite forallb_app. simpl. by rewrite andb_true_r, andb_assoc.
Qed.

Lemma existsb_set_add_all (rho : string -> string) (l seen : list BooleanTerm) :
  Forall (fun e => canonical e = true) seen ->
  Forall (fun e => canonical e = true) l ->
  existsb (eval rho) (set_add_all seen l)
  = existsb (eval rho) seen || existsb (eval rho) l.
Proof.
  revert seen. induction l as [|x l IH]; intros seen Hs Hl; simpl.
  - by rewrite orb_false_r.
  - inversion Hl as [|? ? Hx Hl']; subst.
    destruct (term_in x seen) eqn:E.
    + rewrite (IH seen Hs Hl').
      destruct (term_in_eval rho x seen Hx Hs E) as (y & Hy & Hxy).
      destruct (existsb (eval rho) seen) eqn:Ef; [done|]. simpl.
      assert (eval rho y = false) as Hf.
      { destruct (eval rho y) eqn:Ey; [|done].
        assert (existsb (eval rho) seen = true); [|congruence].
        apply existsb_exists. by exists y. }
      by rewrite <- Hxy, Hf.
    + rewrite IH; [|by apply Forall_app; split; [|constructor]|done].
      rewrite existsb_app. simpl. by rewrite orb_false_r, orb_assoc.
Qed.

Lemma forallb_filter_not_TRUE (rho : string -> string) (l : list BooleanTerm) :
  forallb (eval rho) (List.filter (fun e => negb (is_TRUE e)) l)
  = forallb (eval rho) l.
Proof.
  induction l as [|x l IH]; [done|]. cbn [List.filter forallb].
  destruct x; cbn [is_TRUE negb forallb eval]; by rewrite IH.
Qed.

Lemma existsb_filter_not_FALSE (rho : string -> string) (l : list BooleanTerm) :
  existsb (eval rho) (List.filter (fun e => negb (is_FALSE e)) l)
  = existsb (eval rho) l.
Proof.
  induction l as [|x l IH]; [done|]. cbn [List.filter existsb].
  destruct x; cbn [is_FALSE negb existsb eval]; by rewrite IH.
Qed.

Lemma Forall_weaken_snd {A : Type} (P Q : A -> Prop) (l : list A) :
  Forall (fun e => P e /\ Q e) l -> Forall Q l.
Proof. intros H. eapply Forall_impl; [exact H|]. simpl. tauto. Qed.

Lemma eval_And_new (rho : string -> string) (exprs : list BooleanTerm) :
  Forall (fun e => canonical e = true) exprs ->
  eval rho (And_new exprs) = forallb (eval rho) exprs.
Proof.
  intros H. rewrite <- (eval_And_flatten rho exprs).
  pose proof (Forall_weaken_snd _ _ _ (And_flatten_canonical _ H)) as Hc.
  assert (E : forallb (eval rho) (And_flatten exprs)
              = forallb (eval rho)
                  (List.filter (fun e => negb (is_TRUE e))
                     (frozenset (And_flatten exprs)))).
  { rewrite forallb_filter_not_TRUE. unfold frozenset.
    rewrite forallb_set_add_all; [done | constructor | done]. }
  rewrite E. unfold And_new.
  destruct (existsb is_FALSE _) eqn:EF.
  - apply is_FALSE_In in EF. symmetry. apply not_true_is_false. intros Hall.
    rewrite forallb_forall in Hall. by specialize (Hall FALSE EF).
  - destruct (List.filter _ _) as [|x [|y l]]; simpl; [done| |done].
    by rewrite andb_true_r.
Qed.

Lemma eval_Or_new (rho : string -> string) (exprs : list BooleanTerm) :
  Forall (fun e => canonical e = true) exprs ->
  eval rho (Or_new exprs) = existsb (eval rho) exprs.
Proof.
  intros H. rewrite <- (eval_Or_flatten rho exprs).
  pose proof (Forall_weaken_snd _ _ _ (Or_flatten_canonical _ H)) as Hc.
  assert (E : existsb (eval rho) (Or_flatten exprs)
              = existsb (eval rho)
                  (List.filter (fun e => negb (is_FALSE e))
                     (frozenset (Or_flatten exprs)))).
  { rewrite existsb_filter_not_FALSE. unfold frozenset.
    rewrite existsb_set_add_all; [done | constructor | done]. }
  rewrite E. unfold Or_new.
  destruct (existsb is_TRUE _) eqn:EF.
  - apply is_TRUE_In in EF. symmetry. apply existsb_exists. by exists TRUE.
  - destruct (List.filter _ _) as [|x [|y l]]; simpl; [done| |done].
    by rewrite orb_false_r.
Qed.

(** ** [simplify] keeps the canonical form and the meaning *)

Lemma simplify_canonical (t : BooleanTerm) (a : assignment) :
  canonical t = true -> canonical (simplify t a) = true.
Proof.
  induction t as [| |l r|exprs IH|exprs IH] using BooleanTerm_induction;
    intros Hc; [done|done| | |]; simpl.
  - unfold Eq_simplify. destruct (_ || _); [done|].
    apply Or_new_canonical, Forall_forall. intros e He.
    apply list_elem_of_In, in_map_iff in He as (i & <- & _).
    apply And_new_canonical. repeat constructor; apply Eq_new_canonical.
  - apply canonical_And in Hc as (_ & _ & Hc).
    apply And_new_canonical, Forall_forall. intros e He.
    apply list_elem_of_In, in_map_iff in He as (x & <- & Hx).
    rewrite Forall_forall in IH, Hc. apply list_elem_of_In in Hx.
    apply IH; [done|]. by apply Hc.
  - apply canonical_Or in Hc as (_ & _ & Hc).
    apply Or_new_canonical, Forall_forall. intros e He.
    apply list_elem_of_In, in_map_iff in He as (x & <- & Hx).
    rewrite Forall_forall in IH, Hc. apply list_elem_of_In in Hx.
    apply IH; [done|]. by apply Hc.
Qed.

Lemma ltb_neq (a b : string) : String.ltb a b = true -> a <> b.
Proof.
  intros H ->. exact (ltb_irrefl_pair b b H H).
Qed.

Lemma Eq_simplify_sound (rho : string -> string) (l r : string) (a : assignment) :
  l <> r -> separated a -> consistent rho a ->
  eval rho (Eq_simplify l r a) = String.eqb (rho l) (rho r).
Proof.
  intros Hlr Hsep [Hin Hout]. unfold Eq_simplify.
  destruct (bool_decide (r ∈ assignments_get a l)) eqn:E1; [done|].
  destruct (bool_decide (l ∈ assignments_get a r)) eqn:E2; [done|].
  apply bool_decide_eq_false in E1, E2. simpl.
  rewrite eval_Or_new.
  2:{ apply Forall_forall. intros e He.
      apply list_elem_of_In, in_map_iff in He as (i & <- & _).
      apply And_new_canonical. repeat constructor; apply Eq_new_canonical. }
  assert (Hcand : forall i, i ∈ assignments_get a l ∩ assignments_get a r ->
                  rho i = i).
  { intros i [Hi _]%elem_of_intersection. apply Hout.
    unfold assignments_get in Hi. destruct (a !! l) as [c|] eqn:El.
    - by apply (Hsep l c).
    - by apply not_elem_of_empty in Hi. }
  apply eq_true_iff_eq. rewrite existsb_exists, String.eqb_eq. split.
  - intros (e & He & Hev). apply in_map_iff in He as (i & <- & Hi).
    apply list_elem_of_In, elem_of_elements in Hi.
    rewrite eval_And_new in Hev
      by (repeat constructor; apply Eq_new_canonical).
    simpl in Hev. rewrite !eval_Eq_new, andb_true_r in Hev.
    apply andb_true_iff in Hev as [H1 H2]. apply String.eqb_eq in H1, H2. congruence.
  - intros Heq.
    assert (Hboth : exists c c', a !! l = Some c /\ a !! r = Some c').
    { unfold assignments_get in E1, E2.
      destruct (a !! l) as [c|] eqn:El, (a !! r) as [c'|] eqn:Er.
      - by exists c, c'.
      - exfalso. apply E1. simpl. rewrite <- (Hout r Er), <- Heq. by apply Hin.
      - exfalso. apply E2. simpl. rewrite <- (Hout l El), Heq. by apply Hin.
      - exfalso. apply Hlr. by rewrite <- (Hout l El), <- (Hout r Er). }
    destruct Hboth as (c & c' & El & Er).
    assert (Hi : rho l ∈ assignments_get a l ∩ assignments_get a r).
    { apply elem_of_intersection. unfold assignments_get. rewrite El, Er. simpl.
      split; [by apply Hin|]. rewrite Heq. by apply Hin. }
    exists (And_new [Eq_new l (rho l); Eq_new (rho l) r]). split.
    + apply in_map_iff. exists (rho l). split; [done|].
      by apply list_elem_of_In, elem_of_elements.
    + rewrite eval_And_new by (repeat constructor; apply Eq_new_canonical).
      simpl. rewrite !eval_Eq_new, (Hcand _ Hi), andb_true_r.
      rewrite String.eqb_refl. simpl. by apply String.eqb_eq.
Qed.

Lemma forallb_map_ext {A B : Type} (f : B -> bool) (g : A -> B) (h : A -> bool)
    (l : list A) :
  (forall x, In x l -> f (g x) = h x) -> forallb f (map g l) = forallb h l.
Proof.
  induction l as [|x l IH]; intros H; simpl; [done|].
  rewrite H by (by left). f_equal. apply IH. intros y Hy. apply H. by right.
Qed.

Lemma existsb_map_ext {A B : Type} (f : B -> bool) (g : A -> B) (h : A -> bool)
    (l : list A) :
  (forall x, In x l -> f (g x) = h x) -> existsb f (map g l) = existsb h l.
Proof.
  induction l as [|x l IH]; intros H; simpl; [done|].
  rewrite H by (by left). f_equal. apply IH. intros y Hy. apply H. by right.
Qed.

Lemma simplify_sound (rho : string -> string) (t : BooleanTerm) (a : assignment) :
  canonical t = true -> separated a -> consistent rho a ->
  eval rho (simplify t a) = eval rho t.
Proof.
  intros Hc Hsep Hcons.
  induction t as [| |l r|exprs IH|exprs IH] using BooleanTerm_induction;
    [done|done| | |]; simpl.
  - apply Eq_simplify_sound; [|done|done]. simpl in Hc.
    intros ->. by apply ltb_neq in Hc.
  - apply canonical_And in Hc as (_ & _ & Hc). rewrite Forall_forall in IH, Hc.
    rewrite eval_And_new.
    + apply forallb_map_ext. intros x Hx%list_elem_of_In.
      apply IH; [done|]. by apply Hc.
    + apply Forall_forall. intros e He.
      apply list_elem_of_In, in_map_iff in He as (x & <- & Hx%list_elem_of_In).
      apply simplify_canonical. by apply Hc.
  - apply canonical_Or in Hc as (_ & _ & Hc). rewrite Forall_forall in IH, Hc.
    rewrite eval_Or_new.
    + apply existsb_map_ext. intros x Hx%list_elem_of_In.
      apply IH; [done|]. by apply Hc.
    + apply Forall_forall. intros e He.
      apply list_elem_of_In, in_map_iff in He as (x & <- & Hx%list_elem_of_In).
      apply simplify_canonical. by apply Hc.
Qed.

(** ** Simplified terms bound variables by labels that are not variables *)

Lemma all_eqs_And (Q : string -> string -> bool) (exprs : list BooleanTerm) :
  all_eqs Q (AndNode exprs) = true <-> Forall (fun e => all_eqs Q e = true) exprs.
Proof.
  cbn [all_eqs]. rewrite forallb_forall, Forall_forall.
  split; intros H e He; apply H; by apply list_elem_of_In.
Qed.

Lemma all_eqs_Or (Q : string -> string -> bool) (exprs : list BooleanTerm) :
  all_eqs Q (OrNode exprs) = true <-> Forall (fun e => all_eqs Q e = true) exprs.
Proof.
  cbn [all_eqs]. rewrite forallb_forall, Forall_forall.
  split; intros H e He; apply H; by apply list_elem_of_In.
Qed.

Lemma all_eqs_And_new (Q : string -> string -> bool) (exprs : list BooleanTerm) :
  Forall (fun e => all_eqs Q e = true) exprs -> all_eqs Q (And_new exprs) = true.
Proof.
  intros H. unfold And_new.
  assert (HF : Forall (fun e => all_eqs Q e = true) (And_flatten exprs)).
  { induction H as [|e l He Hl IH]; simpl; [constructor|].
    apply Forall_app; split; [|exact IH].
    destruct e; try (by repeat constructor). by apply all_eqs_And. }
  apply frozenset_Forall in HF.
  apply (filter_Forall_bool (fun e => negb (is_TRUE e))) in HF.
  destruct (existsb is_FALSE _); [done|].
  destruct (List.filter _ _) as [|x [|y l]]; [done| |].
  - by inversion HF.
  - by apply all_eqs_And.
Qed.

Lemma all_eqs_Or_new (Q : string -> string -> bool) (exprs : list BooleanTerm) :
  Forall (fun e => all_eqs Q e = true) exprs -> all_eqs Q (Or_new exprs) = true.
Proof.
  intros H. unfold Or_new.
  assert (HF : Forall (fun e => all_eqs Q e = true) (Or_flatten exprs)).
  { induction H as [|e l He Hl IH]; simpl; [constructor|].
    apply Forall_app; split; [|exact IH].
    destruct e; try (by repeat constructor). by apply all_eqs_Or. }
  apply frozenset_Forall in HF.
  apply (filter_Forall_bool (fun e => negb (is_FALSE e))) in HF.
  destruct (existsb is_TRUE _); [done|].
  destruct (List.filter _ _) as [|x [|y l]]; [done| |].
  - by inversion HF.
  - by apply all_eqs_Or.
Qed.

Lemma all_eqs_Eq_new (Q : string -> string -> bool) (a b : string) :
  Q a b = true -> Q b a = true -> all_eqs Q (Eq_new a b) = true.
Proof.
  intros H1 H2.
  by destruct (Eq_new_cases a b) as [[_ ->]|[(_ & _ & ->)|(_ & _ & ->)]].
Qed.

Lemma grounded_Eq (a : assignment) (l r : string) :
  a !! l = None \/ a !! r = None -> grounded a (Eq_new l r) = true.
Proof.
  intros H. apply all_eqs_Eq_new; apply orb_true_iff;
    destruct H as [H|H]; rewrite (bool_decide_eq_true_2 _ H); tauto.
Qed.

Lemma simplify_grounded (t : BooleanTerm) (a : assignment) :
  separated a -> grounded a (simplify t a) = true.
Proof.
  intros Hsep. unfold grounded.
  induction t as [| |l r|exprs IH|exprs IH] using BooleanTerm_induction;
    [done|done| | |]; simpl.
  - assert (Hcand : forall k v, v ∈ assignments_get a k -> a !! v = None).
    { intros k v Hv. unfold assignments_get in Hv.
      destruct (a !! k) as [c|] eqn:E; [by apply (Hsep k c)|].
      by apply not_elem_of_empty in Hv. }
    unfold Eq_simplify.
    destruct (bool_decide (r ∈ assignments_get a l)) eqn:E1.
    { apply bool_decide_eq_true in E1. simpl.
      rewrite (bool_decide_eq_true_2 _ (Hcand _ _ E1)). apply orb_true_r. }
    destruct (bool_decide (l ∈ assignments_get a r)) eqn:E2.
    { apply bool_decide_eq_true in E2. simpl.
      by rewrite (bool_decide_eq_true_2 _ (Hcand _ _ E2)). }
    simpl. apply all_eqs_Or_new, Forall_forall. intros e He.
    apply list_elem_of_In, in_map_iff in He as (i & <- & Hi).
    apply list_elem_of_In, elem_of_elements, elem_of_intersection in Hi as [Hi _].
    apply Hcand in Hi.
    apply all_eqs_And_new. repeat constructor; apply grounded_Eq; tauto.
  - apply all_eqs_And_new, Forall_forall. intros e He.
    apply list_elem_of_In, in_map_iff in He as (x & <- & Hx).
    rewrite Forall_forall in IH. by apply IH, list_elem_of_In.
  - apply all_eqs_Or_new, Forall_forall. intros e He.
    apply list_elem_of_In, in_map_iff in He as (x & <- & Hx).
    rewrite Forall_forall in IH. by apply IH, list_elem_of_In.
Qed.

Lemma Forall2_In_l {A B : Type} (R : A -> B -> Prop) (l1 : list A) (l2 : list B) (x : A) :
  Forall2 R l1 l2 -> In x l1 -> exists y, In y l2 /\ R x y.
Proof.
  induction 1 as [|a b l1 l2 Hab _ IH]; intros Hx; [done|].
  destruct Hx as [->|Hx].
  - exists b. split; [by left | done].
  - destruct (IH Hx) as (y & Hy & Hxy). exists y. split; [by right | done].
Qed.

Lemma Forall2_In_r {A B : Type} (R : A -> B -> Prop) (l1 : list A) (l2 : list B) (y : B) :
  Forall2 R l1 l2 -> In y l2 -> exists x, In x l1 /\ R x y.
Proof.
  induction 1 as [|a b l1 l2 Hab _ IH]; intros Hy; [done|].
  destruct Hy as [->|Hy].
  - exists a. split; [by left | done].
  - destruct (IH Hy) as (x & Hx & Hxy). exists x. split; [by right | done].
Qed.

Lemma extract_pivots_And_inv (exprs : list BooleanTerm) (P : pivot_table) :
  extract_pivots (AndNode exprs) = Ok P ->
  exists ps, Forall2 (fun e p => extract_pivots e = Ok p) exprs ps
             /\ And_pivots_reference ps P.
Proof.
  simpl. intros H. apply bind_Ok_inv in H as (ps & Hps & [= <-]).
  exists ps. split; [by apply sequence_Forall2|].
  apply And_extract_pivots_reference.
Qed.

Lemma extract_pivots_Or_inv (exprs : list BooleanTerm) (P : pivot_table) :
  extract_pivots (OrNode exprs) = Ok P ->
  exists ps, Forall2 (fun e p => extract_pivots e = Ok p) exprs ps
             /\ Or_pivots_reference ps P.
Proof.
  simpl. intros H. apply bind_Ok_inv in H as (ps & Hps & HP).
  exists ps. split; [by apply sequence_Forall2|].
  destruct ps as [|p0 rest]; [done|].
  destruct (Or_extract_pivots_reference p0 rest) as (P' & HP' & Href).
  rewrite HP in HP'. by injection HP' as <-.
Qed.

Lemma pivots_sound (rho : string -> string) (a : assignment) (t : BooleanTerm)
    (P : pivot_table) :
  grounded a t = true ->
  (forall k, a !! k = None -> rho k = k) ->
  eval rho t = true ->
  extract_pivots t = Ok P ->
  forall k V, is_Some (a !! k) -> P !! k = Some V -> rho k ∈ V.
Proof.
  intros Hg Hout. revert P Hg.
  induction t as [| |l r|exprs IH|exprs IH] using BooleanTerm_induction;
    intros P Hg Hev HP k V Hk HV.
  - injection HP as <-. by rewrite lookup_empty in HV.
  - done.
  - injection HP as <-. simpl in Hev. apply String.eqb_eq in Hev.
    unfold grounded in Hg. simpl in Hg. apply orb_true_iff in Hg.
    unfold Eq_extract_pivots in HV.
    destruct (decide (r = k)) as [->|Hrk].
    + rewrite lookup_insert_eq in HV. injection HV as <-.
      apply elem_of_singleton. rewrite <- Hev.
      destruct Hg as [Hl|Hr]; [apply bool_decide_eq_true in Hl; by apply Hout|].
      apply bool_decide_eq_true in Hr. rewrite Hr in Hk. by destruct Hk.
    + rewrite lookup_insert_ne in HV by done.
      destruct (decide (l = k)) as [->|Hlk].
      * rewrite lookup_insert_eq in HV. injection HV as <-.
        apply elem_of_singleton. rewrite Hev.
        destruct Hg as [Hl|Hr]; [|apply bool_decide_eq_true in Hr; by apply Hout].
        apply bool_decide_eq_true in Hl. rewrite Hl in Hk. by destruct Hk.
      * rewrite lookup_insert_ne in HV by done. by rewrite lookup_empty in HV.
  - apply extract_pivots_And_inv in HP as (ps & Hps & _ & Hval).
    apply (Hval k V HV). intros p c Hp Hc.
    apply list_elem_of_In in Hp.
    destruct (Forall2_In_r _ _ _ _ Hps Hp) as (e & He & Hep).
    rewrite Forall_forall in IH. apply (IH e (proj2 (list_elem_of_In _ _) He) p);
      try done.
    + apply all_eqs_And in Hg. rewrite Forall_forall in Hg.
      by apply Hg, list_elem_of_In.
    + simpl in Hev. rewrite forallb_forall in Hev. by apply Hev.
  - apply extract_pivots_Or_inv in HP as (ps & Hps & Hdom & Hval).
    simpl in Hev. apply existsb_exists in Hev as (e & He & Hev).
    destruct (Forall2_In_l _ _ _ _ Hps He) as (p & Hp & Hep).
    apply list_elem_of_In in Hp.
    assert (Hkp : k ∈ dom p).
    { apply Hdom; [|done]. by apply elem_of_dom. }
    apply elem_of_dom in Hkp as [c Hc].
    apply (Hval k V HV). exists p, c. split; [done|]. split; [done|].
    rewrite Forall_forall in IH. apply (IH e (proj2 (list_elem_of_In _ _) He) p);
      try done.
    apply all_eqs_Or in Hg. rewrite Forall_forall in Hg.
    by apply Hg, list_elem_of_In.
Qed.

(** ** Completion and the initial assignment *)

Lemma item_app (l1 l2 : list (BooleanTerm * BooleanTerm)) (e : BooleanTerm) :
  item (l1 ++ l2) e = if has_key l1 e then item l1 e else item l2 e.
Proof.
  unfold item, has_key. induction l1 as [|kv l1 IH]; simpl; [done|].
  destruct (term_eqb kv.1 e); [done | apply IH].
Qed.

Lemma item_has_key (impls : list (BooleanTerm * BooleanTerm)) (e t : BooleanTerm) :
  item impls e = Ok t -> has_key impls e = true.
Proof.
  unfold item, has_key. induction impls as [|kv l IH]; simpl; [done|].
  destruct (term_eqb kv.1 e); [done | apply IH].
Qed.

Lemma item_In (impls : list (BooleanTerm * BooleanTerm)) (e t : BooleanTerm) :
  item impls e = Ok t -> exists k, In (k, t) impls.
Proof.
  unfold item. destruct (List.find _ impls) as [[k t']|] eqn:E; [|done].
  intros [= <-]. apply find_some in E as [E _]. by exists k.
Qed.

Lemma complete_pair_item (var value : string)
    (impls : list (BooleanTerm * BooleanTerm)) (e t : BooleanTerm) :
  item (complete_pair var impls value) e = Ok t ->
  item impls e = Ok t \/ (has_key impls e = false /\ t = TRUE).
Proof.
  unfold complete_pair. destruct (has_key impls (Eq_new var value)); [by left|].
  rewrite item_app. destruct (has_key impls e) eqn:E; [by left|].
  unfold item. simpl. destruct (term_eqb _ e); [|done]. intros [= <-]. by right.
Qed.

Lemma complete_pair_item_keeps (var value : string)
    (impls : list (BooleanTerm * BooleanTerm)) (e t : BooleanTerm) :
  item impls e = Ok t -> item (complete_pair var impls value) e = Ok t.
Proof.
  intros H. unfold complete_pair.
  destruct (has_key impls (Eq_new var value)); [done|].
  rewrite item_app. by rewrite (item_has_key _ _ _ H).
Qed.

(** [_complete] leaves the registered implications as they are and gives
    every other key that it adds the implication [TRUE]. *)
Lemma _complete_item (s : state) (e t : BooleanTerm) :
  (item (implications s) e = Ok t -> item (implications (_complete s)) e = Ok t)
  /\ (item (implications (_complete s)) e = Ok t ->
      item (implications s) e = Ok t
      \/ (has_key (implications s) e = false /\ t = TRUE)).
Proof.
  unfold _complete. simpl. generalize (implications s) as impls.
  induction (variables s) as [|var vars IH]; intros impls; simpl; [tauto|].
  assert (Hin : forall vals impls,
             (item impls e = Ok t ->
              item (foldl (complete_pair var) impls vals) e = Ok t)
             /\ (item (foldl (complete_pair var) impls vals) e = Ok t ->
                 item impls e = Ok t \/ (has_key impls e = false /\ t = TRUE))).
  { induction vals as [|v vals IHv]; intros impls0; simpl; [tauto|].
    destruct (IHv (complete_pair var impls0 v)) as [H1 H2]. split.
    - intros H. by apply H1, complete_pair_item_keeps.
    - intros H. destruct (H2 H) as [H'|[Hk ->]].
      + exact (complete_pair_item var v impls0 e t H').
      + right. split; [|done]. destruct (has_key impls0 e) eqn:E; [|done].
        by rewrite (complete_pair_keeps var v impls0 e E) in Hk. }
  destruct (Hin (values s) impls) as [H1 H2].
  destruct (IH (foldl (complete_pair var) impls (values s))) as [H3 H4].
  split.
  - intros H. by apply H3, H1.
  - intros H. destruct (H4 H) as [H'|[Hk ->]].
    + by apply H2.
    + right. split; [|done]. destruct (has_key impls e) eqn:E; [|done].
      by rewrite (complete_values_keeps var (values s) impls e E) in Hk.
Qed.

Lemma initial_candidates_spec (impls : list (BooleanTerm * BooleanTerm))
    (vals : list string) (var : string) (c : gset string) :
  initial_candidates impls vals var = Ok c ->
  forall v, v ∈ c <->
    v ∈ vals /\ exists t, item impls (Eq_new var v) = Ok t /\ is_FALSE t = false.
Proof.
  unfold initial_candidates.
  assert (H : forall acc,
    foldlM (fun acc value =>
              implication ← item impls (Eq_new var value);
              Ok (if is_FALSE implication then acc else acc ∪ {[value]}))
           acc vals = Ok c ->
    forall v, v ∈ c <->
      v ∈ acc \/ (v ∈ vals /\ exists t, item impls (Eq_new var v) = Ok t
                                         /\ is_FALSE t = false)).
  { induction vals as [|value vals IH]; intros acc; simpl.
    - intros [= <-] v. split; [by left|]. intros [?|[Hv _]]; [done|].
      by apply elem_of_nil in Hv.
    - intros H. apply bind_Ok_inv in H as (acc' & Hacc & H).
      apply bind_Ok_inv in Hacc as (t & Ht & [= <-]).
      intros v. rewrite (IH _ H v). split.
      + intros [Hv|[Hv Hex]]; [|right; split; [by constructor | done]].
        destruct (is_FALSE t) eqn:Ef; [by left|].
        apply elem_of_union in Hv as [Hv|Hv]; [by left|].
        apply elem_of_singleton in Hv as ->. right. split; [constructor|].
        by exists t.
      + intros [Hv|[Hv (t' & Ht' & Hf)]]; [left|].
        { destruct (is_FALSE t); [done|]. apply elem_of_union. by left. }
        apply elem_of_cons in Hv as [->|Hv]; [|right; split; [done|]; by exists t'].
        left. rewrite Ht in Ht'. injection Ht' as <-. rewrite Hf.
        apply elem_of_union. right. by apply elem_of_singleton. }
  intros Hc v. rewrite (H ∅ Hc v). split; [|by right].
  intros [Hv|?]; [by apply not_elem_of_empty in Hv | done].
Qed.

Lemma initial_assignments_spec (s : state) (a0 : assignment) :
  initial_assignments s = Ok a0 ->
  forall k,
    (k ∈ variables s ->
     exists c, initial_candidates (implications s) (values s) k = Ok c
               /\ a0 !! k = Some c)
    /\ (k ∉ variables s -> a0 !! k = None).
Proof.
  unfold initial_assignments.
  assert (H : forall (vars : list string) (acc : assignment),
    foldlM (fun asg var =>
              c ← initial_candidates (implications s) (values s) var;
              Ok (<[var := c]> asg)) acc vars = Ok a0 ->
    forall k,
      (k ∈ vars ->
       exists c, initial_candidates (implications s) (values s) k = Ok c
                 /\ a0 !! k = Some c)
      /\ (k ∉ vars -> a0 !! k = acc !! k)).
  { induction vars as [|x vars IH]; intros acc; simpl.
    - intros [= <-] k. split; [intros Hk; by apply elem_of_nil in Hk | done].
    - intros H. apply bind_Ok_inv in H as (acc' & Hacc & H).
      apply bind_Ok_inv in Hacc as (c & Hc & [= <-]).
      intros k. destruct (IH _ H k) as [H1 H2]. split.
      + intros Hk. destruct (decide (k ∈ vars)) as [Hin|Hnin]; [by apply H1|].
        apply elem_of_cons in Hk as [->|Hk]; [|done].
        exists c. split; [done|]. rewrite (H2 Hnin). apply lookup_insert_eq.
      + intros Hk. apply not_elem_of_cons in Hk as [Hne Hk].
        rewrite (H2 Hk). by apply lookup_insert_ne. }
  intros Ha0 k. destruct (H _ _ Ha0 k) as [H1 H2]. split; [done|].
  intros Hk. rewrite (H2 Hk). apply lookup_empty.
Qed.

Lemma foldlM_through {A B : Type} (R : A -> A -> Prop) (f : A -> B -> result A)
    (l : list B) (a a' : A) (b : B) :
  (forall x, R x x) -> (forall x y z, R x y -> R y z -> R x z) ->
  (forall x c y, In c l -> f x c = Ok y -> R x y) ->
  In b l -> foldlM f a l = Ok a' ->
  exists x y, R a x /\ f x b = Ok y /\ R y a'.
Proof.
  intros Hrefl Htrans. revert a.
  induction l as [|c l IH]; intros a Hf Hb; [done|]. simpl.
  intros H. apply bind_Ok_inv in H as (y & Hy & H).
  destruct Hb as [->|Hb].
  - exists a, y. split; [done|]. split; [done|].
    apply (foldlM_preorder R f l y a' Hrefl Htrans); [|done].
    intros x c z Hc. apply Hf. right. by apply list_elem_of_In.
  - destruct (IH y) as (x' & y' & H1 & H2 & H3); [|done|done|].
    { intros x c' z Hc'. apply Hf. by right. }
    exists x', y'. split; [|done].
    apply (Htrans _ y); [|done]. apply (Hf a c); [by left | done].
Qed.

(** ** No solution is lost *)

Section soundness.

Variable s : state.
Variable rho : string -> string.
Hypothesis Hposed : well_posed s.
Hypothesis Hsol : solution s rho.

Lemma agrees_key (a : assignment) (k : string) :
  agrees s rho a -> (is_Some (a !! k) <-> k ∈ variables s).
Proof.
  intros [Hdom _]. rewrite <- elem_of_dom, Hdom. apply elem_of_list_to_set.
Qed.

Lemma agrees_separated (a : assignment) : agrees s rho a -> separated a.
Proof.
  intros Ha k c v Hk Hv. destruct Hposed as (_ & _ & Hdisj).
  assert (Hkv : k ∈ variables s) by (apply (agrees_key a k Ha); by exists c).
  destruct Ha as (Hdom & Hr & _).
  destruct (Hr k Hkv) as (c' & Hc' & Hin). rewrite Hk in Hc'. injection Hc' as <-.
  apply not_elem_of_dom. rewrite Hdom, elem_of_list_to_set.
  intros Hvv. by apply (Hdisj v Hvv), Hin.
Qed.

Lemma agrees_consistent (a : assignment) : agrees s rho a -> consistent rho a.
Proof.
  intros Ha. destruct Hsol as (_ & Hfix & _). split.
  - intros k c Hk.
    assert (Hkv : k ∈ variables s) by (apply (agrees_key a k Ha); by exists c).
    destruct Ha as (_ & _ & Hkeep). specialize (Hkeep k Hkv).
    unfold assignments_get in Hkeep. by rewrite Hk in Hkeep.
  - intros k Hk. apply Hfix. intros Hkv.
    apply (agrees_key a k Ha) in Hkv. rewrite Hk in Hkv. by destruct Hkv.
Qed.

Lemma eval_own_value (var : string) :
  var ∈ variables s -> eval rho (Eq_new var (rho var)) = true.
Proof.
  intros Hv. destruct Hsol as (Hval & Hfix & _), Hposed as (_ & _ & Hdisj).
  rewrite eval_Eq_new. apply String.eqb_eq. symmetry. apply Hfix.
  intros H. by apply (Hdisj _ H), Hval.
Qed.

Lemma completed_implication (e t : BooleanTerm) :
  item (implications (_complete s)) e = Ok t ->
  canonical t = true /\ (eval rho e = true -> eval rho t = true).
Proof.
  intros H. apply _complete_item in H as [H|[_ ->]]; [|done].
  destruct Hposed as (_ & Hcan & _), Hsol as (_ & _ & _ & Himpl). split.
  - apply item_In in H as [k Hk]. rewrite Forall_forall in Hcan.
    by apply (Hcan (k, t)), list_elem_of_In.
  - by apply Himpl.
Qed.

Lemma update_agrees (st : store) (k : string) (c c' : gset string) :
  agrees s rho (assignments st) ->
  assignments st !! k = Some c -> c' ⊆ c -> rho k ∈ c' ->
  agrees s rho (assignments (update k c' st)).
Proof.
  intros Ha Hk Hsub Hrho.
  destruct (update_evolves st k c c' Hk Hsub) as [He _].
  pose proof He as (_ & _ & _ & Hd & _).
  destruct Ha as (Hdom & Hr & Hkeep). split; [congruence|]. split.
  - by apply (in_range_evolves s st).
  - intros var Hv. simpl. unfold assignments_get.
    destruct (decide (k = var)) as [<-|Hne].
    + by rewrite lookup_insert_eq.
    + rewrite lookup_insert_ne by done. by apply Hkeep.
Qed.

Lemma initial_agrees (a0 : assignment) :
  initial_assignments (_complete s) = Ok a0 -> agrees s rho a0.
Proof.
  intros Ha0. pose proof (initial_assignments_spec _ _ Ha0) as Hspec.
  destruct (initial_assignments_total _ (_complete_completed s))
    as (a0' & Ha0' & Hr).
  rewrite Ha0 in Ha0'. injection Ha0' as <-.
  split; [|split; [exact Hr|]].
  - apply set_eq. intros k. rewrite elem_of_dom, elem_of_list_to_set.
    destruct (Hspec k) as [H1 H2]. split.
    + intros [c Hc]. destruct (decide (k ∈ variables s)) as [|Hn]; [done|].
      rewrite (H2 Hn) in Hc. done.
    + intros Hk. destruct (H1 Hk) as (c & _ & Hc). by exists c.
  - intros var Hv. destruct (Hspec var) as [H1 _].
    destruct (H1 Hv) as (c & Hc & Hlook).
    unfold assignments_get. rewrite Hlook. simpl.
    apply (initial_candidates_spec _ _ _ _ Hc).
    destruct Hsol as (Hval & _). split; [by apply Hval|].
    destruct (has_key_item (implications (_complete s)) (Eq_new var (rho var)))
      as [t Ht].
    { apply _complete_completed; [done | by apply Hval]. }
    exists t. split; [done|].
    destruct (completed_implication _ _ Ht) as [_ Hev].
    specialize (Hev (eval_own_value var Hv)). by destruct t.
Qed.

Lemma ground_narrowing_agrees (P : pivot_table) (st : store) :
  (forall k V, k ∈ variables s -> P !! k = Some V -> rho k ∈ V) ->
  agrees s rho (assignments st) ->
  agrees s rho (assignments (foldl ground_step st (map_to_list P))).
Proof.
  intros HP.
  apply (foldl_preorder
           (fun x y : store => agrees s rho (assignments x) ->
                               agrees s rho (assignments y))); [tauto|tauto|].
  intros x [k V] Hin Ha. apply elem_of_map_to_list in Hin. unfold ground_step.
  destruct (assignments x !! k) as [c|] eqn:Hk; [|done].
  assert (Hkv : k ∈ variables s) by (apply (agrees_key _ k Ha); by exists c).
  apply (update_agrees x k c); [done|done|apply intersection_subseteq_l|].
  apply elem_of_intersection. split; [|by apply (HP k V)].
  destruct (agrees_consistent _ Ha) as [Hc _]. by apply Hc.
Qed.

Lemma pivot_narrowing_agrees (P : pivot_table) (acc : store * bool) :
  (forall k V, k ∈ variables s -> P !! k = Some V -> rho k ∈ V) ->
  agrees s rho (assignments acc.1) ->
  agrees s rho (assignments (foldl pivot_step acc (map_to_list P)).1).
Proof.
  intros HP.
  apply (foldl_preorder
           (fun x y : store * bool => agrees s rho (assignments x.1) ->
                                      agrees s rho (assignments y.1)));
    [tauto|tauto|].
  intros [x ch] [k V] Hin Ha. apply elem_of_map_to_list in Hin.
  unfold pivot_step. simpl in *.
  destruct (assignments x !! k) as [c|] eqn:Hk; [|done]. simpl.
  assert (Hkv : k ∈ variables s) by (apply (agrees_key _ k Ha); by exists c).
  apply (update_agrees x k c); [done|done|apply intersection_subseteq_l|].
  apply elem_of_intersection. split; [|by apply (HP k V)].
  destruct (agrees_consistent _ Ha) as [Hc _]. by apply Hc.
Qed.

(** The pivots of a true term, simplified against an assignment that
    agrees with the solution, hold the value of every variable. *)
Lemma simplified_pivots_agree (t : BooleanTerm) (a : assignment) (P : pivot_table) :
  canonical t = true -> eval rho t = true -> agrees s rho a ->
  extract_pivots (simplify t a) = Ok P ->
  forall k V, k ∈ variables s -> P !! k = Some V -> rho k ∈ V.
Proof.
  intros Hc Hev Ha HP k V Hk HV.
  pose proof (agrees_separated _ Ha) as Hsep.
  pose proof (agrees_consistent _ Ha) as Hcons.
  apply (pivots_sound rho a (simplify t a) P); try done.
  - by apply simplify_grounded.
  - by destruct Hcons.
  - by rewrite simplify_sound.
  - by apply (agrees_key a k Ha).
Qed.

Lemma filter_value_agrees (var value : string) (st st' : store) (ch ch' : bool)
    (terms terms' : list BooleanTerm) :
  var ∈ variables s ->
  agrees s rho (assignments st) -> Forall (fun t => canonical t = true) terms ->
  filter_value (_complete s) var (st, ch, terms) value = Ok (st', ch', terms') ->
  agrees s rho (assignments st')
  /\ Forall (fun t => canonical t = true) terms'
  /\ (forall t, In t terms -> In t terms')
  /\ (value = rho var -> exists t, In t terms' /\ eval rho t = true).
Proof.
  intros Hv Ha Hts. unfold filter_value. intros H.
  apply bind_Ok_inv in H as (t & Ht & H).
  apply bind_Ok_inv in H as ([st1 ch1] & H1 & [= <- <- <-]).
  destruct (completed_implication _ _ Ht) as [Hcan Hev].
  assert (Hrest : Forall (fun t => canonical t = true) (terms ++ [t])
                  /\ (forall t0, In t0 terms -> In t0 (terms ++ [t]))
                  /\ (value = rho var ->
                      exists t0, In t0 (terms ++ [t]) /\ eval rho t0 = true)).
  { split; [apply Forall_app; split; [done | by constructor]|].
    split; [intros t0 H0; apply in_or_app; by left|].
    intros ->. exists t. split; [apply in_or_app; right; by left|].
    by apply Hev, eval_own_value. }
  split; [|exact Hrest].
  destruct (is_FALSE (simplify t (assignments st))) eqn:EF.
  - apply bind_Ok_inv in H1 as (st2 & Hr & [= <- <-]).
    unfold remove in Hr. apply bind_Ok_inv in Hr as (c & Hc & Hr).
    unfold dict_item in Hc. destruct (assignments st !! var) as [c0|] eqn:E; [|done].
    injection Hc as ->. case_bool_decide as Hvc; [|done]. injection Hr as <-.
    apply (update_agrees st var c); [done|done|apply subseteq_difference_l; done|].
    apply elem_of_difference. split.
    + destruct (agrees_consistent _ Ha) as [Hcons _]. by apply Hcons.
    + intros Heq%elem_of_singleton.
      assert (eval rho (simplify t (assignments st)) = true) as Htrue.
      { rewrite simplify_sound;
          [|done|by apply agrees_separated|by apply agrees_consistent].
        apply Hev. rewrite <- Heq. by apply eval_own_value. }
      by destruct (simplify t (assignments st)).
  - by injection H1 as <- <-.
Qed.

Lemma process_var_agrees (var : string) (acc acc' : store * bool) :
  var ∈ variables s -> agrees s rho (assignments acc.1) ->
  process_var (_complete s) acc var = Ok acc' ->
  agrees s rho (assignments acc'.1).
Proof.
  destruct acc as [st ch]. intros Hv Ha. unfold process_var. intros H.
  apply bind_Ok_inv in H as (c & Hc & H).
  apply bind_Ok_inv in H as ([[st1 ch1] terms] & Hf & H).
  apply bind_Ok_inv in H as (P & HP & [= <-]).
  unfold dict_item in Hc. simpl in Ha.
  destruct (assignments st !! var) as [c0|] eqn:E; [|done]. injection Hc as ->.
  pose (J := fun x : store * bool * list BooleanTerm =>
               agrees s rho (assignments x.1.1)
               /\ Forall (fun t => canonical t = true) x.2).
  pose (R := fun x y : store * bool * list BooleanTerm =>
               J x -> J y /\ forall t, In t x.2 -> In t y.2).
  assert (Hrefl : forall x, R x x) by (intros x Hx; by split).
  assert (Htrans : forall x y z, R x y -> R y z -> R x z).
  { intros x y z Hxy Hyz Hx. destruct (Hxy Hx) as [Hy Hsub].
    destruct (Hyz Hy) as [Hz Hsub']. split; [done|]. intros t Ht. by apply Hsub', Hsub. }
  assert (Hbody : forall x v y, In v (elements c) ->
                    filter_value (_complete s) var x v = Ok y -> R x y).
  { intros [[x1 x2] x3] v [[y1 y2] y3] _ Hxy [Hx1 Hx3].
    destruct (filter_value_agrees var v x1 y1 x2 y2 x3 y3 Hv Hx1 Hx3 Hxy)
      as (? & ? & ? & _). by split. }
  assert (Hstart : J (st, ch, [])) by (split; [done | constructor]).
  assert (Hrho : In (rho var) (elements c)).
  { apply list_elem_of_In, elem_of_elements.
    destruct (agrees_consistent _ Ha) as [Hcons _]. by apply Hcons. }
  destruct (foldlM_through R _ _ _ _ (rho var) Hrefl Htrans Hbody Hrho Hf)
    as ([[x1 x2] x3] & [[y1 y2] y3] & Hax & Hxy & Hya).
  destruct (Hax Hstart) as [[Hx1 Hx3] _]. simpl in Hx1, Hx3.
  destruct (filter_value_agrees var _ x1 y1 x2 y2 x3 y3 Hv Hx1 Hx3 Hxy)
    as (Hy1 & Hy3 & _ & Hex).
  destruct (Hex eq_refl) as (t & Ht & Hev).
  destruct (Hya (conj Hy1 Hy3)) as [[Ha1 Hts] Hsub]. simpl in Ha1, Hts, Hsub.
  apply (pivot_narrowing_agrees P (st1, ch1)); [|done].
  apply (simplified_pivots_agree (Or_new terms) (assignments st1)); try done.
  - by apply Or_new_canonical.
  - rewrite eval_Or_new by done. apply existsb_exists. exists t.
    split; [by apply Hsub | done].
Qed.

Lemma pass_agrees (st st' : store) (ch : bool) :
  agrees s rho (assignments st) -> pass (_complete s) st = Ok (st', ch) ->
  agrees s rho (assignments st').
Proof.
  intros Ha H. unfold pass in H.
  pose proof (foldlM_preorder
           (fun x y : store * bool => agrees s rho (assignments x.1) ->
                                      agrees s rho (assignments y.1))
           (process_var (_complete s)) (variables (_complete s))
           (st, false) (st', ch)
           (fun x H => H) (fun x y z H1 H2 H => H2 (H1 H))) as Hf.
  apply Hf; [|done|done].
  intros x var y Hvar Hxy Hx. by apply (process_var_agrees var x y).
Qed.

Lemma solve_loop_agrees (fuel : nat) (st st' : store) :
  agrees s rho (assignments st) -> solve_loop fuel (_complete s) st = Ok st' ->
  agrees s rho (assignments st').
Proof.
  revert st. induction fuel as [|fuel IH]; intros st Ha; simpl; [done|].
  intros H. apply bind_Ok_inv in H as ([st1 ch] & Hp & H).
  apply (pass_agrees _ _ _ Ha) in Hp. destruct ch.
  - by apply (IH st1).
  - by injection H as <-.
Qed.

Lemma solve_agrees :
  exists res, solve s = Ok res /\ agrees s rho res.
Proof.
  destruct (solve_store_unfold s) as (a0 & P & Ha0 & _ & HP & Hs).
  destruct (solve_store_total s) as [st Hst].
  exists (assignments st). split; [unfold solve; by rewrite Hst|].
  rewrite Hs in Hst. apply (solve_loop_agrees _ _ _) in Hst; [done|].
  pose proof (initial_agrees a0 Ha0) as Ha.
  apply ground_narrowing_agrees; [|done].
  destruct Hposed as (Hgt & _), Hsol as (_ & _ & Hev & _).
  by apply (simplified_pivots_agree (ground_truth s) a0).
Qed.

End soundness.

(** ** More on [simplify] and [extract_pivots] *)

Lemma Eq_new_comm (a b : string) : Eq_new a b = Eq_new b a.
Proof.
  destruct (Eq_new_cases a b) as [[-> _]|[(Hne & Hlt & ->)|(Hne & Hlt & ->)]];
    [done| |].
  - destruct (Eq_new_cases b a) as [[-> _]|[(_ & Hlt' & ->)|(_ & _ & ->)]];
      [done| |done].
    destruct (ltb_irrefl_pair _ _ Hlt Hlt').
  - destruct (Eq_new_cases b a) as [[-> _]|[(_ & _ & ->)|(_ & Hlt' & ->)]];
      [done|done|].
    destruct (ltb_irrefl_pair _ _ Hlt Hlt').
Qed.




Lemma Eq_new_extract_pivots (a b : string) :
  a <> b -> extract_pivots (Eq_new a b) = Ok (<[a := {[b]}]> {[b := {[a]}]}).
Proof.
  intros Hne.
  destruct (Eq_new_cases a b) as [[? _]|[(_ & _ & ->)|(_ & _ & ->)]]; [done| |];
    simpl; unfold Eq_extract_pivots.
  - apply (f_equal Ok). rewrite insert_insert_ne by done. by rewrite insert_empty.
  - apply (f_equal Ok). by rewrite insert_empty.
Qed.

Lemma sequence_outcome {A : Type} (ms : list (result A)) (e : exn) :
  Forall (fun m => (exists a, m = Ok a) \/ m = Raise e) ms ->
  (Forall (fun m => exists a, m = Ok a) ms /\ exists r, sequence ms = Ok r)
  \/ (Exists (fun m => m = Raise e) ms /\ sequence ms = Raise e).
Proof.
  induction 1 as [|m ms Hm _ IH]; simpl.
  - left. split; [constructor | by eexists].
  - destruct Hm as [[a ->]| ->]; [|right; split; [by constructor | done]].
    simpl. destruct IH as [[Hall [r ->]]|[Hex ->]].
    + left. split; [constructor; [by eexists | done] | by eexists].
    + right. split; [by apply Exists_cons_tl | done].
Qed.

Lemma well_formed_no_empty_Or (t : BooleanTerm) :
  well_formed t = true -> no_empty_Or t = true.
Proof.
  induction t as [| |l r|exprs IH|exprs IH] using BooleanTerm_induction;
    [done|done|done| |]; intros Hwf.
  - apply well_formed_And in Hwf as [_ Hwf]. simpl. apply forallb_forall.
    intros e He%list_elem_of_In. rewrite Forall_forall in IH, Hwf.
    apply (IH e He). by apply Hwf.
  - apply well_formed_Or in Hwf as [Hlen Hwf].
    destruct exprs as [|e0 exprs]; [simpl in Hlen; lia|].
    cbn [no_empty_Or]. apply forallb_forall.
    intros e He%list_elem_of_In. rewrite Forall_forall in IH, Hwf.
    apply (IH e He). by apply Hwf.
Qed.

(** ** Registration and completion *)

Lemma complete_values_id (var : string) (vals : list string)
    (impls : list (BooleanTerm * BooleanTerm)) :
  (forall value, value ∈ vals -> has_key impls (Eq_new var value) = true) ->
  foldl (complete_pair var) impls vals = impls.
Proof.
  induction vals as [|v vals IH]; intros H; simpl; [done|].
  unfold complete_pair at 2. rewrite (H v) by constructor.
  apply IH. intros value Hv. apply H. by constructor.
Qed.

Lemma complete_variables_id (vars vals : list string)
    (impls : list (BooleanTerm * BooleanTerm)) :
  (forall var value, var ∈ vars -> value ∈ vals ->
     has_key impls (Eq_new var value) = true) ->
  foldl (fun impls var => foldl (complete_pair var) impls vals) impls vars = impls.
Proof.
  induction vars as [|x vars IH]; intros H; simpl; [done|].
  rewrite complete_values_id.
  - apply IH. intros var value Hvar. apply H. by constructor.
  - intros value. apply H. constructor.
Qed.

Lemma _complete_idempotent (s : state) : _complete (_complete s) = _complete s.
Proof.
  pose proof (_complete_completed s) as Hc. unfold completed in Hc.
  unfold _complete at 1. cbn [variables values ground_truth].
  rewrite complete_variables_id; [|exact Hc].
  by destruct s.
Qed.


(** ** The returned assignment *)

Lemma initial_assignments_dom (s : state) (a0 : assignment) :
  initial_assignments s = Ok a0 -> dom a0 = list_to_set (variables s).
Proof.
  intros Ha0. apply set_eq. intros k. rewrite elem_of_dom, elem_of_list_to_set.
  destruct (initial_assignments_spec _ _ Ha0 k) as [H1 H2]. split.
  - intros [c Hc]. destruct (decide (k ∈ variables s)) as [|Hn]; [done|].
    rewrite (H2 Hn) in Hc. done.
  - intros Hk. destruct (H1 Hk) as (c & _ & Hc). by exists c.
Qed.

Lemma solve_loop_more (s : state) (fuel fuel' : nat) (st st' : store) :
  solve_loop fuel s st = Ok st' -> fuel <= fuel' -> solve_loop fuel' s st = Ok st'.
Proof.
  revert fuel' st. induction fuel as [|fuel IH]; intros fuel' st H Hle; [done|].
  destruct fuel' as [|fuel']; [lia|]. simpl in *.
  destruct (pass s st) as [[st1 ch]| |]; [|done|done]. simpl in *.
  destruct ch; [|done]. apply IH; [done | lia].
Qed.

(** ** The result is a fixed point of the loop *)

Lemma quiet_refl (x : store_flag) : quiet x x.
Proof. by intros H. Qed.

Lemma quiet_trans (x y z : store_flag) : quiet x y -> quiet y z -> quiet x z.
Proof.
  intros H1 H2 Hz. destruct (H2 Hz) as [Hy E2]. destruct (H1 Hy) as [Hx E1].
  split; [done | congruence].
Qed.

Lemma pivot_step_quiet (acc : store_flag) (it : string * gset string) :
  quiet acc (pivot_step acc it).
Proof.
  destruct acc as [st ch], it as [pivot pv]. unfold pivot_step.
  destruct (assignments st !! pivot) as [c|] eqn:E; [|apply quiet_refl].
  intros H. simpl in H. apply orb_false_elim in H as [-> H].
  apply negb_false_iff, Nat.eqb_eq in H. split; [done|]. simpl.
  assert (Hc : c ∩ pv = c).
  { apply set_subseteq_size_eq; [apply intersection_subseteq_l | lia]. }
  rewrite Hc. by apply insert_id.
Qed.

Lemma filter_value_quiet (s : state) (var value : string) (st st' : store)
    (ch ch' : bool) (terms terms' : list BooleanTerm) :
  filter_value s var (st, ch, terms) value = Ok (st', ch', terms') ->
  quiet (st, ch) (st', ch').
Proof.
  unfold filter_value. intros H.
  apply bind_Ok_inv in H as (t & _ & H).
  destruct (is_FALSE (simplify t (assignments st))).
  - apply bind_Ok_inv in H as ([st1 ch1] & H1 & H).
    apply bind_Ok_inv in H1 as (st2 & _ & H1).
    injection H1 as <- <-. injection H as <- <- _. by intros Hf.
  - simpl in H. injection H as <- <- _. apply quiet_refl.
Qed.

Lemma filter_values_quiet (s : state) (var : string) (vals : list string)
    (st st' : store) (ch ch' : bool) (terms terms' : list BooleanTerm) :
  foldlM (filter_value s var) (st, ch, terms) vals = Ok (st', ch', terms') ->
  quiet (st, ch) (st', ch').
Proof.
  intros H.
  pose proof (foldlM_preorder
                (fun x y : store * bool * list BooleanTerm => quiet x.1 y.1)
                (filter_value s var) vals (st, ch, terms) (st', ch', terms')) as Hf.
  apply Hf; [| |  | done].
  - intros x. apply quiet_refl.
  - intros x y z. apply quiet_trans.
  - intros [[x1 x2] x3] b [[y1 y2] y3] _ Hb. simpl.
    by apply filter_value_quiet in Hb.
Qed.

Lemma process_var_quiet (s : state) (var : string) (acc acc' : store_flag) :
  process_var s acc var = Ok acc' -> quiet acc acc'.
Proof.
  destruct acc as [st ch]. unfold process_var. intros H.
  apply bind_Ok_inv in H as (c & _ & H).
  apply bind_Ok_inv in H as ([[st1 ch1] terms] & H1 & H).
  apply bind_Ok_inv in H as (pivots & _ & H). injection H as <-.
  apply (quiet_trans _ (st1, ch1)); [by apply filter_values_quiet in H1|].
  apply (foldl_preorder quiet); [apply quiet_refl | apply quiet_trans |].
  intros x b _. apply pivot_step_quiet.
Qed.

Lemma pass_quiet (s : state) (st st' : store) :
  pass s st = Ok (st', false) -> assignments st' = assignments st.
Proof.
  unfold pass. intros H.
  pose proof (foldlM_preorder quiet (process_var s) (variables s)
                (st, false) (st', false)) as Hf.
  apply Hf in H; [by apply H | apply quiet_refl | apply quiet_trans |].
  intros x b y _. apply process_var_quiet.
Qed.

Lemma foldlM_related {A B : Type} (R : A -> A -> Prop) (f : A -> B -> result A)
    (l : list B) (a b a' : A) :
  (forall x y c x', R x y -> f x c = Ok x' -> exists y', f y c = Ok y' /\ R x' y') ->
  R a b -> foldlM f a l = Ok a' -> exists b', foldlM f b l = Ok b' /\ R a' b'.
Proof.
  intros Hstep. revert a b. induction l as [|c l IH]; intros a b HR H; simpl in *.
  - injection H as <-. by exists b.
  - apply bind_Ok_inv in H as (a1 & H1 & H).
    destruct (Hstep a b c a1 HR H1) as (b1 & -> & HR1). simpl.
    by apply (IH a1).
Qed.

Lemma foldl_related {A B : Type} (R : A -> A -> Prop) (f : A -> B -> A)
    (l : list B) (a b : A) :
  (forall x y c, R x y -> R (f x c) (f y c)) ->
  R a b -> R (foldl f a l) (foldl f b l).
Proof.
  intros Hstep. revert a b. induction l as [|c l IH]; intros a b HR; simpl; [done|].
  apply IH. by apply Hstep.
Qed.

Lemma pivot_step_alike (x y : store_flag) (it : string * gset string) :
  alike x y -> alike (pivot_step x it) (pivot_step y it).
Proof.
  destruct x as [st ch], y as [st2 ch2], it as [pivot pv].
  intros [Ha Hc]. simpl in Ha, Hc. subst ch2. unfold pivot_step. rewrite <- Ha.
  destruct (assignments st !! pivot) as [c|]; [|done].
  split; [|done]. simpl. by rewrite Ha.
Qed.

Lemma filter_value_alike (s : state) (var value : string)
    (x y x' : store * bool * list BooleanTerm) :
  alike x.1 y.1 /\ x.2 = y.2 ->
  filter_value s var x value = Ok x' ->
  exists y', filter_value s var y value = Ok y' /\ alike x'.1 y'.1 /\ x'.2 = y'.2.
Proof.
  destruct x as [[st ch] terms], y as [[st2 ch2] terms2].
  intros [[Ha Hc] Ht]. simpl in Ha, Hc, Ht. subst ch2 terms2.
  unfold filter_value. intros H.
  apply bind_Ok_inv in H as (t & -> & H). simpl. rewrite <- Ha.
  destruct (is_FALSE (simplify t (assignments st))).
  - apply bind_Ok_inv in H as ([st1 ch1] & H1 & H).
    apply bind_Ok_inv in H1 as (st3 & H3 & H1). injection H1 as <- <-.
    injection H as <-. unfold remove in *. rewrite <- Ha.
    destruct (dict_item (assignments st) var) as [c| |]; [|done|done].
    simpl in *. destruct (bool_decide (value ∈ c)); [|done].
    injection H3 as <-. simpl. eexists. split; [done|].
    split; [|done]. split; [|done]. simpl. by rewrite Ha.
  - simpl in H. injection H as <-. simpl. eexists. split; [done|].
    by repeat split.
Qed.

Lemma process_var_alike (s : state) (var : string) (x y x' : store_flag) :
  alike x y -> process_var s x var = Ok x' ->
  exists y', process_var s y var = Ok y' /\ alike x' y'.
Proof.
  destruct x as [st ch], y as [st2 ch2]. intros [Ha Hc]. simpl in Ha, Hc.
  subst ch2. unfold process_var. intros H. rewrite <- Ha.
  apply bind_Ok_inv in H as (c & -> & H). simpl.
  apply bind_Ok_inv in H as ([[st1 ch1] terms] & H1 & H).
  pose proof (foldlM_related
                (fun x y : store * bool * list BooleanTerm =>
                   alike x.1 y.1 /\ x.2 = y.2)
                (filter_value s var) (elements c)
                (st, ch, []) (st2, ch, []) (st1, ch1, terms)) as Hf.
  destruct Hf as ([[st3 ch3] terms3] & -> & [Ha3 Hc3] & Ht3); [| |done|].
  - intros a b v a' HR Hx. by apply (filter_value_alike s var v a b a').
  - by repeat split.
  - simpl in Ha3, Hc3, Ht3. subst ch3 terms3. simpl. rewrite <- Ha3.
    apply bind_Ok_inv in H as (pivots & -> & H). injection H as <-. simpl.
    eexists. split; [done|].
    apply (foldl_related alike); [|done].
    intros x y it. apply pivot_step_alike.
Qed.

Lemma pass_alike (s : state) (st st2 st' : store) (ch : bool) :
  assignments st = assignments st2 -> pass s st = Ok (st', ch) ->
  exists st2', pass s st2 = Ok (st2', ch) /\ assignments st' = assignments st2'.
Proof.
  intros Ha H. unfold pass in *.
  destruct (foldlM_related alike (process_var s) (variables s)
              (st, false) (st2, false) (st', ch)) as ([st2' ch2] & H2 & Ha2 & Hc2);
    [|done|done|].
  - intros a b c a'. apply process_var_alike.
  - simpl in Ha2, Hc2. subst ch2. by exists st2'.
Qed.

Lemma solve_loop_last (s : state) (fuel : nat) (st st' : store) :
  solve_loop fuel s st = Ok st' -> exists st0, pass s st0 = Ok (st', false).
Proof.
  revert st. induction fuel as [|fuel IH]; intros st; simpl; [done|].
  intros H. apply bind_Ok_inv in H as ([st1 ch] & Hp & H).
  destruct ch.
  - by apply (IH st1).
  - injection H as <-. by exists st.
Qed.

Lemma solve_loop_stable (s : state) (fuel : nat) (st st' st2 : store) :
  solve_loop fuel s st = Ok st' -> assignments st2 = assignments st' ->
  exists st2', pass s st2 = Ok (st2', false)
               /\ assignments st2' = assignments st'.
Proof.
  intros H Ha. apply solve_loop_last in H as (st0 & H0).
  pose proof (pass_quiet _ _ _ H0) as Hq.
  destruct (pass_alike s st0 st2 st' false) as (st2' & H2 & Ha2);
    [congruence | done |].
  exists st2'. by split.
Qed.

(** ** A system without constraints *)

Lemma _complete_all_TRUE (s : state) (e t : BooleanTerm) :
  Forall (fun kv => kv.2 = TRUE) (implications s) ->
  item (implications (_complete s)) e = Ok t -> t = TRUE.
Proof.
  intros Hall H. apply (proj2 (_complete_item s e t)) in H as [H|[_ H]]; [|done].
  apply item_In in H as [k Hk]. rewrite Forall_forall in Hall.
  apply list_elem_of_In in Hk. by apply (Hall (k, t)).
Qed.

Lemma filter_values_TRUE (s : state) (var : string) (vals : list string)
    (st : store) (ch : bool) (terms : list BooleanTerm) :
  (forall v, v ∈ vals -> item (implications s) (Eq_new var v) = Ok TRUE) ->
  foldlM (filter_value s var) (st, ch, terms) vals
  = Ok (st, ch, terms ++ repeat TRUE (length vals)).
Proof.
  revert terms. induction vals as [|v vals IH]; intros terms H; simpl.
  - by rewrite app_nil_r.
  - rewrite (H v) by constructor. simpl. rewrite IH.
    + by rewrite <- app_assoc.
    + intros v' Hv'. apply H. by constructor.
Qed.

Lemma Or_new_all_TRUE (n : nat) :
  Or_new (repeat TRUE n) = match n with O => FALSE | S _ => TRUE end.
Proof.
  destruct n as [|n]; [done|]. apply Or_new_TRUE_member. by left.
Qed.

Lemma process_var_TRUE (s : state) (var : string) (st : store) (ch : bool)
    (c : gset string) :
  assignments st !! var = Some c ->
  (forall v, v ∈ c -> item (implications s) (Eq_new var v) = Ok TRUE) ->
  process_var s (st, ch) var = Ok (st, ch).
Proof.
  intros Hc Hitem. unfold process_var. rewrite (dict_item_Some _ _ _ Hc). simpl.
  rewrite filter_values_TRUE.
  2:{ intros v Hv. apply Hitem. by apply elem_of_elements. }
  simpl. rewrite Or_new_all_TRUE.
  by destruct (length (elements c)).
Qed.

Lemma pass_TRUE (s : state) (st : store) :
  in_range s (assignments st) -> completed s ->
  (forall e t, item (implications s) e = Ok t -> t = TRUE) ->
  pass s st = Ok (st, false).
Proof.
  intros Hr Hc Hall. unfold pass.
  assert (H : forall vars, (forall v, v ∈ vars -> v ∈ variables s) ->
                foldlM (process_var s) (st, false) vars = Ok (st, false)).
  { induction vars as [|var vars IH]; intros Hin; cbn [foldlM]; [done|].
    destruct (Hr var) as (c & Hlook & Hvals); [apply Hin; constructor|].
    rewrite (process_var_TRUE s var st false c Hlook).
    - simpl. apply IH. intros v Hv. apply Hin. by constructor.
    - intros v Hv.
      destruct (has_key_item (implications s) (Eq_new var v)) as [t Ht].
      + apply Hc; [apply Hin; constructor | by apply Hvals].
      + by rewrite Ht, (Hall _ _ Ht). }
  by apply H.
Qed.

(** ** Valuations given by a table *)

Lemma valuation_outside (m : gmap string string) (k : string) :
  m !! k = None -> valuation m k = k.
Proof. unfold valuation. by intros ->. Qed.

Lemma valuation_consistent (m : gmap string string) (a : assignment) :
  dom m ⊆ dom a -> map_Forall (fun k c => valuation m k ∈ c) a ->
  consistent (valuation m) a.
Proof.
  intros Hd Ha. split.
  - intros k c Hk. by apply (Ha k c).
  - intros k Hk. apply valuation_outside. apply not_elem_of_dom.
    intros Hin. apply Hd in Hin. by apply not_elem_of_dom in Hk.
Qed.

Lemma separated_check (a : assignment) :
  map_Forall (fun _ c => set_Forall (fun v => a !! v = None) c) a -> separated a.
Proof. intros H k c v Hk Hv. by apply (H k c Hk v). Qed.

Lemma term_eqb_Eq_inv (l r : string) (e : BooleanTerm) :
  term_eqb (EqNode l r) e = true -> e = EqNode l r.
Proof.
  destruct e; simpl; try done. intros H. apply andb_true_iff in H as [H1 H2].
  apply String.eqb_eq in H1, H2. by subst.
Qed.

Lemma valuation_solution (s : state) (m : gmap string string) :
  dom m ⊆ list_to_set (variables s) ->
  Forall (fun var => valuation m var ∈ values s) (variables s) ->
  eval (valuation m) (ground_truth s) = true ->
  Forall (fun kv => is_Eq kv.1 = true
                    /\ (eval (valuation m) kv.1 = true ->
                        eval (valuation m) kv.2 = true)) (implications s) ->
  solution s (valuation m).
Proof.
  intros Hd Hv Hg Hi. split; [|split; [|split; [done|]]].
  - intros var Hvar. rewrite Forall_forall in Hv. by apply Hv.
  - intros k Hk. apply valuation_outside. apply not_elem_of_dom.
    intros Hin. apply Hd in Hin. by apply elem_of_list_to_set in Hin.
  - intros e t Ht He. unfold item in Ht.
    destruct (List.find _ (implications s)) as [kv|] eqn:Ef; [|done].
    injection Ht as <-. apply find_some in Ef as [Hin Hkv].
    rewrite Forall_forall in Hi. apply list_elem_of_In in Hin.
    destruct (Hi kv Hin) as [HEq Himp]. apply Himp.
    destruct kv as [k t]. simpl in *. destruct k; try done.
    apply term_eqb_Eq_inv in Hkv. by subst.
Qed.

(** * Terms: what the constructors and [__eq__] guarantee *)



(** X2. A conjunction with the member [FALSE] is [FALSE] and a disjunction
    with the member [TRUE] is [TRUE], whatever the other members. *)
Theorem absorbing_member (exprs : list BooleanTerm) :
  (In FALSE exprs -> And_new exprs = FALSE)
  /\ (In TRUE exprs -> Or_new exprs = TRUE).
Proof. split; [apply And_new_FALSE_member | apply Or_new_TRUE_member]. Qed.

Lemma absorbing_member_witness :
  And_new [Eq_new "x" "a"; FALSE; Eq_new "y" "b"] = FALSE
  /\ Or_new [Eq_new "x" "a"; Eq_new "y" "b"; TRUE] = TRUE.
Proof.
  split.
  - apply (proj1 (absorbing_member [Eq_new "x" "a"; FALSE; Eq_new "y" "b"])).
    simpl. tauto.
  - apply (proj2 (absorbing_member [Eq_new "x" "a"; Eq_new "y" "b"; TRUE])).
    simpl. tauto.
Defined.

(** X3. [TRUE] among the arguments of [And], and [FALSE] among those of
    [Or], changes nothing: the constructor returns what it returns on the
    other arguments. *)
Theorem neutral_members_dropped (exprs : list BooleanTerm) :
  And_new (List.filter (fun e => negb (is_TRUE e)) exprs) = And_new exprs
  /\ Or_new (List.filter (fun e => negb (is_FALSE e)) exprs) = Or_new exprs.
Proof. split; [apply And_new_drop_TRUE | apply Or_new_drop_FALSE]. Qed.

(** X4. [And] and [Or] of a single canonical term return that term. *)
Theorem single_member_returned (x : BooleanTerm) :
  canonical x = true -> And_new [x] = x /\ Or_new [x] = x.
Proof.
  intros H. split; [by apply And_new_singleton | by apply Or_new_singleton].
Qed.

Lemma single_member_returned_witness :
  canonical (And_new [Eq_new "x" "a"; Eq_new "y" "b"]) = true
  /\ And_new [And_new [Eq_new "x" "a"; Eq_new "y" "b"]]
     = And_new [Eq_new "x" "a"; Eq_new "y" "b"]
  /\ Or_new [And_new [Eq_new "x" "a"; Eq_new "y" "b"]]
     = And_new [Eq_new "x" "a"; Eq_new "y" "b"].
Proof.
  split; [reflexivity|].
  apply (single_member_returned (And_new [Eq_new "x" "a"; Eq_new "y" "b"])).
  reflexivity.
Defined.







(** X8. Two canonical terms that are equal for [__eq__] have the same
    truth value under every valuation of the labels. *)
Theorem equal_terms_same_meaning (rho : string -> string) (a b : BooleanTerm) :
  canonical a = true -> canonical b = true ->
  term_eqb a b = true -> eval rho a = eval rho b.
Proof. apply term_eqb_eval. Qed.

Lemma equal_terms_same_meaning_witness :
  canonical (Or_new [Eq_new "t" "v1"; Eq_new "t" "v2"]) = true
  /\ canonical (Or_new [Eq_new "v2" "t"; Eq_new "v1" "t"]) = true
  /\ term_eqb (Or_new [Eq_new "t" "v1"; Eq_new "t" "v2"])
              (Or_new [Eq_new "v2" "t"; Eq_new "v1" "t"]) = true
  /\ eval (valuation {[ "t" := "v1" ]}) (Or_new [Eq_new "t" "v1"; Eq_new "t" "v2"])
     = eval (valuation {[ "t" := "v1" ]}) (Or_new [Eq_new "v2" "t"; Eq_new "v1" "t"]).
Proof.
  split; [reflexivity|]. split; [reflexivity|]. split; [reflexivity|].
  apply (equal_terms_same_meaning (valuation {[ "t" := "v1" ]})
           (Or_new [Eq_new "t" "v1"; Eq_new "t" "v2"])
           (Or_new [Eq_new "v2" "t"; Eq_new "v1" "t"])); reflexivity.
Defined.

(** X9. The constructors build what their names say: under every
    valuation, [Eq(a, b)] is true when the two labels stand for the same
    label, [And(exprs)] when every argument is true, and [Or(exprs)] when
    some argument is true. *)
Theorem constructors_meaning (rho : string -> string) (a b : string)
    (exprs : list BooleanTerm) :
  Forall (fun e => canonical e = true) exprs ->
  eval rho (Eq_new a b) = String.eqb (rho a) (rho b)
  /\ eval rho (And_new exprs) = forallb (eval rho) exprs
  /\ eval rho (Or_new exprs) = existsb (eval rho) exprs.
Proof.
  intros H. split; [apply eval_Eq_new|].
  split; [by apply eval_And_new | by apply eval_Or_new].
Qed.

Lemma constructors_meaning_witness :
  Forall (fun e => canonical e = true)
         [Eq_new "t" "v1"; TRUE; And_new [Eq_new "t" "v2"; Eq_new "u" "v1"]]
  /\ eval (valuation {[ "t" := "v1" ]}) (Eq_new "v1" "t") = true
  /\ eval (valuation {[ "t" := "v1" ]})
          (And_new [Eq_new "t" "v1"; TRUE;
                    And_new [Eq_new "t" "v2"; Eq_new "u" "v1"]]) = false
  /\ eval (valuation {[ "t" := "v1" ]})
          (Or_new [Eq_new "t" "v1"; TRUE;
                   And_new [Eq_new "t" "v2"; Eq_new "u" "v1"]]) = true.
Proof.
  assert (H : Forall (fun e => canonical e = true)
                [Eq_new "t" "v1"; TRUE;
                 And_new [Eq_new "t" "v2"; Eq_new "u" "v1"]])
    by (repeat constructor).
  split; [exact H|].
  destruct (constructors_meaning (valuation {[ "t" := "v1" ]}) "v1" "t" _ H)
    as (H1 & H2 & H3).
  rewrite H1, H2, H3. by vm_compute.
Defined.

(** * Simplification and pivots *)



(** X11. [simplify] keeps the truth value of a canonical term under every
    valuation that gives each key of the assignment one of its candidates
    and leaves the other labels as they are, when no candidate of the
    assignment is itself a key. *)
Theorem simplify_keeps_meaning (rho : string -> string) (t : BooleanTerm)
    (a : assignment) :
  canonical t = true -> separated a -> consistent rho a ->
  eval rho (simplify t a) = eval rho t.
Proof. apply simplify_sound. Qed.

Lemma simplify_keeps_meaning_witness :
  canonical (Eq_new "t" "u") = true
  /\ separated {[ "t" := {[ "v1"; "v2" ]}; "u" := {[ "v2"; "v3" ]} ]}
  /\ consistent (valuation {[ "t" := "v2"; "u" := "v2" ]})
                {[ "t" := {[ "v1"; "v2" ]}; "u" := {[ "v2"; "v3" ]} ]}
  /\ simplify (Eq_new "t" "u")
              {[ "t" := {[ "v1"; "v2" ]}; "u" := {[ "v2"; "v3" ]} ]}
     = AndNode [EqNode "v2" "u"; EqNode "v2" "t"]
  /\ eval (valuation {[ "t" := "v2"; "u" := "v2" ]})
          (simplify (Eq_new "t" "u")
                    {[ "t" := {[ "v1"; "v2" ]}; "u" := {[ "v2"; "v3" ]} ]})
     = eval (valuation {[ "t" := "v2"; "u" := "v2" ]}) (Eq_new "t" "u").
Proof.
  assert (Hs : separated {[ "t" := {[ "v1"; "v2" ]}; "u" := {[ "v2"; "v3" ]} ]}).
  { apply separated_check. by_computation. }
  assert (Hc : consistent (valuation {[ "t" := "v2"; "u" := "v2" ]})
                 {[ "t" := {[ "v1"; "v2" ]}; "u" := {[ "v2"; "v3" ]} ]}).
  { apply valuation_consistent; by_computation. }
  split; [reflexivity|]. split; [exact Hs|]. split; [exact Hc|].
  split; [by vm_compute|].
  exact (simplify_keeps_meaning _ (Eq_new "t" "u") _ eq_refl Hs Hc).
Defined.

(** X12. After [simplify] no equality between two keys of the assignment
    is left in the term, when no candidate of the assignment is itself a
    key: every [Eq] of the result has a side that is no key. *)
Theorem simplify_leaves_no_key_pair (t : BooleanTerm) (a : assignment) :
  separated a -> grounded a (simplify t a) = true.
Proof. apply simplify_grounded. Qed.

Lemma simplify_leaves_no_key_pair_witness :
  separated {[ "t" := {[ "v1"; "v2" ]}; "u" := {[ "v2"; "v3" ]} ]}
  /\ grounded {[ "t" := {[ "v1"; "v2" ]}; "u" := {[ "v2"; "v3" ]} ]}
              (Eq_new "t" "u") = false
  /\ grounded {[ "t" := {[ "v1"; "v2" ]}; "u" := {[ "v2"; "v3" ]} ]}
              (simplify (Eq_new "t" "u")
                        {[ "t" := {[ "v1"; "v2" ]}; "u" := {[ "v2"; "v3" ]} ]})
     = true.
Proof.
  assert (Hs : separated {[ "t" := {[ "v1"; "v2" ]}; "u" := {[ "v2"; "v3" ]} ]}).
  { apply separated_check. by_computation. }
  split; [exact Hs|]. split; [by vm_compute|].
  exact (simplify_leaves_no_key_pair (Eq_new "t" "u") _ Hs).
Defined.

(** X13. The pivots are sound: when a valuation that leaves the labels
    without candidate set as they are makes a term true, and no [Eq] of the
    term relates two keys of the assignment, every key of the assignment
    that has pivots is given one of them by the valuation. *)
Theorem pivots_hold_the_value (rho : string -> string) (a : assignment)
    (t : BooleanTerm) (P : pivot_table) :
  grounded a t = true ->
  (forall k, a !! k = None -> rho k = k) ->
  eval rho t = true ->
  extract_pivots t = Ok P ->
  forall k V, is_Some (a !! k) -> P !! k = Some V -> rho k ∈ V.
Proof. apply pivots_sound. Qed.

Lemma pivots_hold_the_value_witness :
  grounded {[ "t" := {[ "v1"; "v2"; "v3" ]} ]}
           (Or_new [Eq_new "t" "v1"; Eq_new "t" "v2"]) = true
  /\ (forall k, ({[ "t" := {[ "v1"; "v2"; "v3" ]} ]} : assignment) !! k = None ->
                valuation {[ "t" := "v2" ]} k = k)
  /\ eval (valuation {[ "t" := "v2" ]})
          (Or_new [Eq_new "t" "v1"; Eq_new "t" "v2"]) = true
  /\ extract_pivots (Or_new [Eq_new "t" "v1"; Eq_new "t" "v2"])
     = Ok {[ "t" := {[ "v1"; "v2" ]} ]}
  /\ valuation {[ "t" := "v2" ]} "t" ∈ ({[ "v1"; "v2" ]} : gset string).
Proof.
  assert (Hrho : forall k,
             ({[ "t" := {[ "v1"; "v2"; "v3" ]} ]} : assignment) !! k = None ->
             valuation {[ "t" := "v2" ]} k = k).
  { intros k Hk. apply valuation_outside.
    apply lookup_singleton_None in Hk. by apply lookup_singleton_None. }
  assert (HP : extract_pivots (Or_new [Eq_new "t" "v1"; Eq_new "t" "v2"])
               = Ok {[ "t" := {[ "v1"; "v2" ]} ]}) by (by vm_compute).
  split; [by vm_compute|]. split; [exact Hrho|]. split; [by vm_compute|].
  split; [exact HP|].
  apply (pivots_hold_the_value (valuation {[ "t" := "v2" ]})
           {[ "t" := {[ "v1"; "v2"; "v3" ]} ]}
           (Or_new [Eq_new "t" "v1"; Eq_new "t" "v2"])
           {[ "t" := {[ "v1"; "v2" ]} ]}
           ltac:(by vm_compute) Hrho ltac:(by vm_compute) HP "t").
  - by eexists.
  - by vm_compute.
Defined.



(** X15. The pivots of an equality between two different labels give each
    label the other one as its only value, in whichever order the labels
    were passed to [Eq]. *)
Theorem Eq_pivots_both_sides (a b : string) :
  a <> b ->
  extract_pivots (Eq_new a b) = Ok (<[a := {[b]}]> {[b := {[a]}]})
  /\ extract_pivots (Eq_new b a) = Ok (<[a := {[b]}]> {[b := {[a]}]}).
Proof.
  intros H. split; [by apply Eq_new_extract_pivots|].
  rewrite Eq_new_comm. by apply Eq_new_extract_pivots.
Qed.

Lemma Eq_pivots_both_sides_witness :
  "t" <> "v1"
  /\ extract_pivots (Eq_new "t" "v1") = Ok (<["t" := {["v1"]}]> {["v1" := {["t"]}]})
  /\ extract_pivots (Eq_new "v1" "t") = Ok (<["t" := {["v1"]}]> {["v1" := {["t"]}]}).
Proof.
  assert (H : "t" <> "v1") by discriminate.
  split; [exact H | exact (Eq_pivots_both_sides "t" "v1" H)].
Defined.

(** X16. On an equality between a key of the assignment and a label that
    is no key, [simplify] is a membership test: the equality is returned
    when the label is a candidate of the key, and [FALSE] otherwise. *)
Theorem simplify_key_value (x v : string) (a : assignment) :
  x <> v -> a !! v = None ->
  simplify (Eq_new x v) a
  = if bool_decide (v ∈ assignments_get a x) then Eq_new x v else FALSE.
Proof.
  intros Hne Hv.
  assert (Hget : assignments_get a v = ∅) by (unfold assignments_get; by rewrite Hv).
  destruct (Eq_new_cases x v) as [[? _]|[(_ & _ & ->)|(_ & _ & ->)]]; [done| |];
    simpl; unfold Eq_simplify; rewrite Hget.
  - rewrite (bool_decide_eq_false_2 (x ∈ ∅)) by apply not_elem_of_empty.
    rewrite orb_false_r. destruct (bool_decide _); [done|].
    by rewrite intersection_empty_r_L, elements_empty.
  - rewrite (bool_decide_eq_false_2 (x ∈ ∅)) by apply not_elem_of_empty.
    simpl. destruct (bool_decide _); [done|].
    by rewrite intersection_empty_l_L, elements_empty.
Qed.

Lemma simplify_key_value_witness :
  "t" <> "v3"
  /\ ({[ "t" := {[ "v1"; "v2" ]} ]} : assignment) !! "v3" = None
  /\ simplify (Eq_new "t" "v3") {[ "t" := {[ "v1"; "v2" ]} ]} = FALSE.
Proof.
  assert (H : "t" <> "v3") by discriminate.
  split; [exact H|]. split; [by vm_compute|].
  rewrite (simplify_key_value "t" "v3" {[ "t" := {[ "v1"; "v2" ]} ]} H
             ltac:(by vm_compute)).
  by vm_compute.
Defined.

(** X17. [extract_pivots] returns a table of pivots on every term in which
    each [Or] has a member, and raises [IndexError] on the other terms; it
    raises nothing else. *)
Theorem extract_pivots_raises_only_on_empty_Or (t : BooleanTerm) :
  if no_empty_Or t then exists P, extract_pivots t = Ok P
  else extract_pivots t = Raise IndexError.
Proof.
  induction t as [| |l r|exprs IH|exprs IH] using BooleanTerm_induction;
    [by exists ∅ | by exists ∅ | by eexists | |].
  - assert (Hall : Forall (fun m => (exists a, m = Ok a) \/ m = Raise IndexError)
                     (map extract_pivots exprs)).
    { apply Forall_forall. intros m Hm.
      apply list_elem_of_In, in_map_iff in Hm as (e & <- & He).
      rewrite Forall_forall in IH. specialize (IH e (proj2 (list_elem_of_In _ _) He)).
      destruct (no_empty_Or e); [by left | by right]. }
    cbn [no_empty_Or extract_pivots].
    destruct (sequence_outcome _ _ Hall) as [[Hok [r Hr]]|[Hex Hr]]; rewrite Hr.
    + replace (forallb no_empty_Or exprs) with true; [by eexists|].
      symmetry. apply forallb_forall. intros e He.
      rewrite Forall_forall in IH. rewrite Forall_forall in Hok.
      specialize (IH e (proj2 (list_elem_of_In _ _) He)).
      destruct (no_empty_Or e); [done|].
      destruct (Hok (extract_pivots e)) as [P HP]; [|congruence].
      apply list_elem_of_In, in_map_iff. by exists e.
    + replace (forallb no_empty_Or exprs) with false; [done|].
      symmetry. apply not_true_is_false. intros Hf.
      apply Exists_exists in Hex as (m & Hm & ->).
      apply list_elem_of_In, in_map_iff in Hm as (e & He & Hin).
      rewrite forallb_forall in Hf. rewrite Forall_forall in IH.
      specialize (IH e (proj2 (list_elem_of_In _ _) Hin)).
      rewrite (Hf e Hin) in IH. destruct IH as [P HP]. congruence.
  - assert (Hall : Forall (fun m => (exists a, m = Ok a) \/ m = Raise IndexError)
                     (map extract_pivots exprs)).
    { apply Forall_forall. intros m Hm.
      apply list_elem_of_In, in_map_iff in Hm as (e & <- & He).
      rewrite Forall_forall in IH. specialize (IH e (proj2 (list_elem_of_In _ _) He)).
      destruct (no_empty_Or e); [by left | by right]. }
    destruct exprs as [|e0 exprs]; [done|].
    cbn [no_empty_Or extract_pivots].
    destruct (sequence_outcome _ _ Hall) as [[Hok [r Hr]]|[Hex Hr]]; rewrite Hr.
    + replace (forallb no_empty_Or (e0 :: exprs)) with true.
      * simpl. destruct r as [|p0 rest].
        { simpl in Hr. destruct (extract_pivots e0); [|done|done].
          simpl in Hr. by destruct (sequence _). }
        destruct (Or_extract_pivots_reference p0 rest) as (P & HP & _). by exists P.
      * symmetry. apply forallb_forall. intros e He.
        rewrite Forall_forall in IH. rewrite Forall_forall in Hok.
        specialize (IH e (proj2 (list_elem_of_In _ _) He)).
        destruct (no_empty_Or e); [done|].
        destruct (Hok (extract_pivots e)) as [P HP]; [|congruence].
        apply list_elem_of_In, in_map_iff. by exists e.
    + replace (forallb no_empty_Or (e0 :: exprs)) with false; [done|].
      symmetry. apply not_true_is_false. intros Hf.
      apply Exists_exists in Hex as (m & Hm & ->).
      apply list_elem_of_In, in_map_iff in Hm as (e & He & Hin).
      rewrite forallb_forall in Hf. rewrite Forall_forall in IH.
      specialize (IH e (proj2 (list_elem_of_In _ _) Hin)).
      rewrite (Hf e Hin) in IH. destruct IH as [P HP]. congruence.
Qed.

(** * Solver *)

(** X18. [_complete] gives every (variable, value) pair an implication, it
    keeps every implication that was registered, each one that it adds is
    [TRUE] under a key that had none, and running it a second time changes
    nothing. *)
Theorem _complete_fills_missing (s : state) :
  completed (_complete s)
  /\ (forall e t, item (implications s) e = Ok t ->
                  item (implications (_complete s)) e = Ok t)
  /\ (forall e t, item (implications (_complete s)) e = Ok t ->
                  item (implications s) e = Ok t
                  \/ (has_key (implications s) e = false /\ t = TRUE))
  /\ _complete (_complete s) = _complete s.
Proof.
  split; [apply _complete_completed|].
  split; [intros e t; apply (proj1 (_complete_item s e t))|].
  split; [intros e t; apply (proj2 (_complete_item s e t))|].
  apply _complete_idempotent.
Qed.

(** X19. [solve] returns on every solver, and the assignment that it
    returns has exactly the registered variables for keys; every candidate
    in it is a registered value, and none has [FALSE] for its registered
    implication. *)
Theorem solve_result_range (s : state) :
  exists res, solve s = Ok res
    /\ dom res = list_to_set (variables s)
    /\ forall var v, v ∈ assignments_get res var ->
         var ∈ variables s /\ v ∈ values s
         /\ forall t, item (implications s) (Eq_new var v) = Ok t ->
                      is_FALSE t = false.
Proof.
  destruct (solve_store_unfold s) as (a0 & P & Ha0 & _ & _ & _).
  destruct (solve_store_total s) as [st Hst].
  exists (assignments st). split; [unfold solve; by rewrite Hst|].
  destruct (solve_store_evolves s a0 st Ha0 Hst) as (_ & _ & Hsh & Hd & _).
  simpl in Hsh, Hd. split.
  - rewrite Hd. by apply (initial_assignments_dom (_complete s)).
  - intros var v Hv. apply Hsh in Hv. unfold assignments_get in Hv.
    destruct (initial_assignments_spec _ _ Ha0 var) as [H1 H2].
    destruct (decide (var ∈ variables s)) as [Hin|Hn].
    2:{ rewrite (H2 Hn) in Hv. by apply not_elem_of_empty in Hv. }
    destruct (H1 Hin) as (c & Hc & Hlook). rewrite Hlook in Hv. simpl in Hv.
    apply (initial_candidates_spec _ _ _ _ Hc) in Hv as (Hval & t & Ht & Hf).
    split; [done|]. split; [done|]. intros t' Ht'.
    apply (proj1 (_complete_item s _ _)) in Ht'. congruence.
Qed.

(** X20. [solve] loses no solution.  When the ground truth and the
    implications are canonical and no label is both a variable and a value,
    every valuation that gives the variables registered values, makes the
    ground truth true and makes every implication true whose key it makes
    true, gives each variable a value that is among the candidates
    returned for it. *)
Theorem solve_keeps_every_solution (s : state) (rho : string -> string) :
  well_posed s -> solution s rho ->
  exists res, solve s = Ok res
    /\ forall var, var ∈ variables s -> rho var ∈ assignments_get res var.
Proof.
  intros Hp Hs. destruct (solve_agrees s rho Hp Hs) as (res & Hres & _ & _ & H).
  by exists res.
Qed.

Lemma solve_keeps_every_solution_witness :
  example_solver = Ok documented_state
  /\ well_posed documented_state
  /\ solution documented_state (valuation {[ "t" := "v2" ]})
  /\ exists res, solve documented_state = Ok res
       /\ forall var, var ∈ variables documented_state ->
            valuation {[ "t" := "v2" ]} var ∈ assignments_get res var.
Proof.
  assert (Hp : well_posed documented_state).
  { split; [reflexivity|]. split; [repeat constructor|].
    intros v Hv. apply list_elem_of_singleton in Hv as ->. by_computation. }
  assert (Hs : solution documented_state (valuation {[ "t" := "v2" ]})).
  { apply valuation_solution.
    - by_computation.
    - repeat constructor.
    - reflexivity.
    - repeat constructor; by vm_compute. }
  split; [reflexivity|]. split; [exact Hp|]. split; [exact Hs|].
  exact (solve_keeps_every_solution documented_state _ Hp Hs).
Defined.

(** X21. The assignment that [solve] returns is a fixed point of the body
    of its [while] loop: one more round over the variables, started from
    that assignment, raises nothing, leaves [something_changed] false and
    leaves the assignment as it is. *)
Theorem solve_result_is_fixed_point (s : state) :
  exists res, solve s = Ok res
    /\ forall st, assignments st = res ->
         exists st', pass (_complete s) st = Ok (st', false)
                     /\ assignments st' = res.
Proof.
  destruct (solve_store_unfold s) as (a0 & P & _ & _ & _ & Hs).
  destruct (solve_store_total s) as [st Hst].
  exists (assignments st). split; [unfold solve; by rewrite Hst|].
  intros st2 H2. rewrite Hs in Hst.
  by apply (solve_loop_stable _ _ _ _ st2 Hst).
Qed.

(** X22. The [while] loop ends: started on a completed solver with an
    assignment that gives every variable a set of registered values, it
    stops within one round more than there are (variable, candidate) pairs
    in that assignment, and a larger bound on the rounds gives the same
    store. *)
Theorem solve_loop_rounds_bounded (s : state) (st : store) :
  completed s -> in_range s (assignments st) ->
  exists st', forall fuel, weight (assignments st) < fuel ->
                solve_loop fuel s st = Ok st'.
Proof.
  intros Hc Hr.
  destruct (solve_loop_total s (S (weight (assignments st))) st Hc Hr) as [st' H];
    [lia|].
  exists st'. intros fuel Hf. apply (solve_loop_more s _ fuel _ _ H). lia.
Qed.

Lemma solve_loop_rounds_bounded_witness :
  completed (_complete documented_state)
  /\ in_range (_complete documented_state)
              (assignments (fresh_store {[ "t" := {[ "v1"; "v2" ]} ]}))
  /\ weight (assignments (fresh_store {[ "t" := {[ "v1"; "v2" ]} ]})) = 2
  /\ exists st', forall fuel,
       weight (assignments (fresh_store {[ "t" := {[ "v1"; "v2" ]} ]})) < fuel ->
       solve_loop fuel (_complete documented_state)
                  (fresh_store {[ "t" := {[ "v1"; "v2" ]} ]}) = Ok st'.
Proof.
  assert (Hc : completed (_complete documented_state))
    by apply _complete_completed.
  assert (Hr : in_range (_complete documented_state)
                 (assignments (fresh_store {[ "t" := {[ "v1"; "v2" ]} ]}))).
  { intros var Hvar. apply list_elem_of_singleton in Hvar as ->.
    exists {[ "v1"; "v2" ]}. split; [reflexivity|].
    intros v Hv. apply elem_of_union in Hv as [Hv|Hv];
      apply elem_of_singleton in Hv as ->; by_computation. }
  split; [exact Hc|]. split; [exact Hr|]. split; [by vm_compute|].
  exact (solve_loop_rounds_bounded _ _ Hc Hr).
Defined.

(** X23. Without constraints nothing is ruled out: when the ground truth
    is [TRUE] and every registered implication is [TRUE], [solve] returns
    for every variable the set of all registered values. *)
Theorem unconstrained_system_keeps_all_values (s : state) :
  ground_truth s = TRUE ->
  Forall (fun kv => kv.2 = TRUE) (implications s) ->
  exists res, solve s = Ok res
    /\ dom res = list_to_set (variables s)
    /\ forall var, var ∈ variables s ->
         res !! var = Some (list_to_set (values s)).
Proof.
  intros Hg Hall.
  destruct (solve_store_unfold s) as (a0 & P & Ha0 & Hr & HP & Hs).
  rewrite Hg in HP. simpl in HP. injection HP as <-.
  rewrite map_to_list_empty in Hs. simpl in Hs.
  rewrite pass_TRUE in Hs; [|done|apply _complete_completed|].
  2:{ intros e t. by apply _complete_all_TRUE. }
  simpl in Hs. exists a0. split; [unfold solve; by rewrite Hs|].
  split; [by apply (initial_assignments_dom (_complete s))|].
  intros var Hvar.
  destruct (initial_assignments_spec _ _ Ha0 var) as [H1 _].
  destruct (H1 Hvar) as (c & Hc & ->). f_equal.
  apply set_eq. intros v. rewrite elem_of_list_to_set.
  rewrite (initial_candidates_spec _ _ _ _ Hc v). simpl. split; [by intros [? _]|].
  intros Hv. split; [done|].
  destruct (has_key_item (implications (_complete s)) (Eq_new var v)) as [t Ht].
  { by apply _complete_completed. }
  exists t. split; [done|]. by rewrite (_complete_all_TRUE s _ _ Hall Ht).
Qed.

Lemma unconstrained_system_keeps_all_values_witness :
  ground_truth unconstrained_state = TRUE
  /\ Forall (fun kv => kv.2 = TRUE) (implications unconstrained_state)
  /\ solve unconstrained_state
     = Ok {[ "x" := {[ "1"; "2"; "3" ]}; "y" := {[ "1"; "2"; "3" ]} ]}
  /\ exists res, solve unconstrained_state = Ok res
       /\ dom res = list_to_set (variables unconstrained_state)
       /\ forall var, var ∈ variables unconstrained_state ->
            res !! var = Some (list_to_set (values unconstrained_state)).
Proof.
  assert (H : Forall (fun kv => kv.2 = TRUE) (implications unconstrained_state))
    by (repeat constructor).
  split; [reflexivity|]. split; [exact H|]. split; [by vm_compute|].
  exact (unconstrained_system_keeps_all_values unconstrained_state eq_refl H).
Defined.

(** X24. An implication that [implies] has accepted is the one that a
    lookup of its key returns, the lookup of every other key is as before,
    and a second call of [implies] with the same key raises
    [AssertionError]. *)
Theorem implies_then_lookup (e t : BooleanTerm) (s s' : state) :
  implies e t s = Ok s' ->
  item (implications s') e = Ok t
  /\ (forall e', term_eqb e e' = false ->
        item (implications s') e' = item (implications s) e')
  /\ (forall t', implies e t' s' = Raise AssertionError)
  /\ variables s' = variables s /\ values s' = values s
  /\ ground_truth s' = ground_truth s.
Proof.
  unfold implies. destruct (is_FALSE e || is_TRUE e) eqn:E1; [done|].
  destruct (is_Eq e) eqn:E2; [|done]. simpl.
  destruct (has_key (implications s) e) eqn:E3; [done|].
  intros [= <-]. simpl.
  assert (Hrefl : term_eqb e e = true) by apply term_eqb_refl.
  split; [|split; [|split; [|done]]].
  - rewrite item_app, E3. unfold item. simpl. by rewrite Hrefl.
  - intros e' Hne. rewrite item_app.
    destruct (has_key (implications s) e') eqn:E4; [done|].
    unfold item at 1. simpl. rewrite Hne.
    unfold item, has_key in *.
    destruct (List.find _ (implications s)) as [kv|] eqn:Ef; [|done].
    apply find_some in Ef as [Hin Hkv].
    assert (existsb (fun kv => term_eqb kv.1 e') (implications s) = true);
      [|congruence].
    apply existsb_exists. by exists kv.
  - intros t'. rewrite has_key_app. unfold has_key at 2. simpl. rewrite Hrefl.
    by rewrite orb_true_r.
Qed.

Lemma implies_then_lookup_witness :
  exists s',
    implies (Eq_new "x" "2") FALSE unconstrained_state = Ok s'
    /\ item (implications s') (Eq_new "x" "2") = Ok FALSE
    /\ item (implications s') (Eq_new "x" "1") = Ok TRUE
    /\ implies (Eq_new "x" "2") TRUE s' = Raise AssertionError.
Proof.
  eexists. split; [reflexivity|].
  edestruct (implies_then_lookup (Eq_new "x" "2") FALSE unconstrained_state)
    as (H1 & H2 & H3 & _); [reflexivity|].
  split; [exact H1|]. split; [by vm_compute | apply H3].
Defined.


